(** * TileDB byte buffers: [BufferBase], [Buffer] (OwningMemoryBuffer),
      [ConstBuffer] and [PreallocatedBuffer] (tiledb/sm/buffer/buffer.cc)

    A shallow embedding of buffer.cc.  Unsigned 64-bit quantities are
    integers in [0, 2^64) with the wrap-around of every addition,
    subtraction and multiplication written out.  Memory is a store of
    blocks; a pointer is null or a block with a byte offset, so that the
    [data_] member of a buffer, the storage of its [vec_] and the raw
    regions handed in by callers can alias as they do in the program. *)

From Stdlib Require Import ZArith Lia String.
From stdpp Require Import base option list gmap.

Local Open Scope Z_scope.

(** ** Unsigned 64-bit arithmetic *)

Module U64.

Definition modulus : Z := 2 ^ 64.

Definition wrap (z : Z) : Z := z mod modulus.

Definition add (a b : Z) : Z := wrap (a + b).
Definition sub (a b : Z) : Z := wrap (a - b).
Definition mul (a b : Z) : Z := wrap (a * b).

(** The values a [uint64_t] can hold. *)
Definition in_range (z : Z) : Prop := 0 <= z < modulus.

End U64.

(** ** Memory *)

Definition byte := Byte.byte.
Definition block := positive.

Inductive ptr : Type :=
| nullptr
| Ptr (b : block) (o : Z).

(** [static_cast<char*>(p) + n] *)
Definition ptr_add (p : ptr) (n : Z) : ptr :=
  match p with
  | nullptr => nullptr
  | Ptr b o => Ptr b (o + n)
  end.

Definition is_null (p : ptr) : bool :=
  match p with nullptr => true | Ptr _ _ => false end.

(** The store: the bytes of every live block, and the next unused block
    name.  Memory does not run out in this model (std::bad_alloc is left
    out); the limit on the size of a vector is kept, see [Vec.max_size]. *)
Record heap : Type := Heap {
  cells : gmap block (list byte);
  next_block : block
}.

Definition heap_set (b : block) (l : list byte) (h : heap) : heap :=
  Heap (<[b := l]> (cells h)) (next_block h).

Definition heap_alloc (l : list byte) (h : heap) : block * heap :=
  (next_block h, Heap (<[next_block h := l]> (cells h)) (Pos.succ (next_block h))).

Definition heap_free (b : block) (h : heap) : heap :=
  Heap (delete b (cells h)) (next_block h).

(** Reading [n] bytes at [p].  A read of no bytes touches nothing; any
    other read needs a live block that holds the whole range. *)
Definition load (h : heap) (p : ptr) (n : Z) : option (list byte) :=
  if n =? 0 then Some []
  else match p with
       | nullptr => None
       | Ptr b o =>
           match cells h !! b with
           | None => None
           | Some l =>
               if (0 <=? o) && (o + n <=? Z.of_nat (length l))
               then Some (take (Z.to_nat n) (drop (Z.to_nat o) l))
               else None
           end
       end.

(** Overwriting the bytes at [p] with [bs]. *)
Definition store (h : heap) (p : ptr) (bs : list byte) : option heap :=
  match bs with
  | [] => Some h
  | _ =>
      match p with
      | nullptr => None
      | Ptr b o =>
          match cells h !! b with
          | None => None
          | Some l =>
              if (0 <=? o) && (o + Z.of_nat (length bs) <=? Z.of_nat (length l))
              then Some (heap_set b
                           (take (Z.to_nat o) l ++ bs ++
                            drop (Z.to_nat o + length bs) l) h)
              else None
          end
      end
  end.

(** The two ranges of [n] bytes share a byte. *)
Definition overlap (dst src : ptr) (n : Z) : bool :=
  match dst, src with
  | Ptr b1 o1, Ptr b2 o2 =>
      (0 <? n) && Pos.eqb b1 b2 && (o1 <? o2 + n) && (o2 <? o1 + n)
  | _, _ => false
  end.

(** [std::memcpy(dst, src, n)]; [None] is undefined behaviour (a range
    outside a live block, or overlapping ranges). *)
Definition memcpy (h : heap) (dst src : ptr) (n : Z) : option heap :=
  if overlap dst src n then None
  else match load h src n with
       | None => None
       | Some bs => store h dst bs
       end.

(** ** Status values and exceptions *)

Inductive Status : Type :=
| Status_Ok
| Status_BufferError (msg : string)
| Status_PreallocatedBufferError (msg : string).

Definition ok (st : Status) : bool :=
  match st with Status_Ok => true | _ => false end.

Inductive exn : Type :=
| BufferStatusException (msg : string)
| StatusException (st : Status)
| out_of_range (msg : string)
| length_error.

(** What a call does: it returns a value and a new state, or throws out
    of the state it had reached, or runs into undefined behaviour, or
    never returns. *)
Inductive result (S A : Type) : Type :=
| Ret (a : A) (s : S)
| Throw (e : exn) (s : S)
| Undefined
| Diverges.

Arguments Ret {S A} a s.
Arguments Throw {S A} e s.
Arguments Undefined {S A}.
Arguments Diverges {S A}.

(** ** BufferBase *)

Record BufferBase : Type := mkBase {
  data_ : ptr;
  size_ : Z;
  offset_ : Z
}.

Definition with_offset (o : Z) (b : BufferBase) : BufferBase :=
  mkBase (data_ b) (size_ b) o.

Definition with_size (s : Z) (b : BufferBase) : BufferBase :=
  mkBase (data_ b) s (offset_ b).

Definition with_data (p : ptr) (b : BufferBase) : BufferBase :=
  mkBase p (size_ b) (offset_ b).

Module Base.

(** BufferBase::BufferBase() *)
Definition new : BufferBase := mkBase nullptr 0 0.

(** BufferBase::BufferBase(void* data, uint64_t size), and the overload
    that takes a const pointer. *)
Definition of_region (data : ptr) (size : Z) : BufferBase :=
  mkBase data size 0.

Definition size (b : BufferBase) : Z := size_ b.
Definition nonconst_data (b : BufferBase) : ptr := data_ b.
Definition data (b : BufferBase) : ptr := data_ b.
Definition offset (b : BufferBase) : Z := offset_ b.

Definition nonconst_unread_data (b : BufferBase) : ptr :=
  if is_null (data_ b) then nullptr else ptr_add (data_ b) (offset_ b).

Definition cur_data (b : BufferBase) : ptr := nonconst_unread_data b.

Definition reset_offset (b : BufferBase) : BufferBase := with_offset 0 b.

Definition assert_offset_is_valid (offset : Z) (b : BufferBase)
  : result BufferBase unit :=
  if size_ b <? offset
  then Throw (out_of_range "BufferBase::set_offset") b
  else Ret tt b.

Definition set_offset (offset : Z) (b : BufferBase)
  : result BufferBase unit :=
  match assert_offset_is_valid offset b with
  | Ret _ b => Ret tt (with_offset offset b)
  | r => r
  end.

Definition advance_offset (nbytes : Z) (b : BufferBase) : BufferBase :=
  if U64.sub (size_ b) (offset_ b) <=? nbytes
  then with_offset (size_ b) b
  else with_offset (U64.add (offset_ b) nbytes) b.

Definition end_ (b : BufferBase) : bool := offset_ b =? size_ b.

Definition overflow_msg : string :=
  "Read buffer overflow; may not read beyond buffer size".

(** Status BufferBase::read(void* destination, uint64_t nbytes) *)
Definition read (destination : ptr) (nbytes : Z) (s : heap * BufferBase)
  : result (heap * BufferBase) Status :=
  let '(h, b) := s in
  if U64.sub (size_ b) (offset_ b) <? nbytes
  then Ret (Status_BufferError overflow_msg) (h, b)
  else match memcpy h destination (ptr_add (data_ b) (offset_ b)) nbytes with
       | None => Undefined
       | Some h' =>
           Ret Status_Ok (h', with_offset (U64.add (offset_ b) nbytes) b)
       end.

(** Status BufferBase::read(void* destination, uint64_t offset,
    uint64_t nbytes) *)
Definition read_at (destination : ptr) (offset nbytes : Z)
    (s : heap * BufferBase) : result (heap * BufferBase) Status :=
  let '(h, b) := s in
  if U64.sub (size_ b) offset <? nbytes
  then Ret (Status_BufferError overflow_msg) (h, b)
  else match memcpy h destination (ptr_add (data_ b) offset) nbytes with
       | None => Undefined
       | Some h' => Ret Status_Ok (h', b)
       end.

End Base.

(** ** ConstBuffer

    A [BufferBase] over memory it never writes. *)

Module Const.

(** ConstBuffer::ConstBuffer(const void* data, uint64_t size) *)
Definition of_region (data : ptr) (size : Z) : BufferBase :=
  Base.of_region data size.

Definition nbytes_left_to_read (b : BufferBase) : Z :=
  U64.sub (size_ b) (offset_ b).

End Const.

(** ** std::vector<uint8_t>

    The vector [vec_] of an owning buffer: the block that holds its
    elements, if it has storage, and its element count.  The length of
    that block in the store is the vector's capacity. *)

Record vector : Type := mkVec {
  vstore : option block;
  vsize : Z
}.

Module Vec.

Definition empty : vector := mkVec None 0.

Definition size (v : vector) : Z := vsize v.

Definition data (v : vector) : ptr :=
  match vstore v with
  | Some b => Ptr b 0
  | None => nullptr
  end.

(** clear() destroys the elements and keeps the storage. *)
Definition clear (v : vector) : vector := mkVec (vstore v) 0.

Definition zeros (n : Z) : list byte := replicate (Z.to_nat n) Byte.x00.

(** max_size() of a vector of bytes on a 64-bit target: the largest
    difference of two pointers. *)
Definition max_size : Z := 2 ^ 63 - 1.

(** resize(n): the first [min n size] elements are kept and the new
    ones are zero.  Growing beyond max_size() throws std::length_error
    and leaves the vector as it is.  Within the capacity the storage
    stays where it is; beyond it the elements move to a new block of [n]
    bytes and the old block is released.  [Undefined]: the storage is
    not in the store. *)
Definition resize (n : Z) (h : heap) (v : vector) : result heap vector :=
  if n <=? vsize v then Ret (mkVec (vstore v) n) h
  else if max_size <? n then Throw length_error h
  else match vstore v with
       | None =>
           let '(nb, h') := heap_alloc (zeros n) h in
           Ret (mkVec (Some nb) n) h'
       | Some b =>
           match cells h !! b with
           | None => Undefined
           | Some l =>
               let kept := take (Z.to_nat (vsize v)) l in
               let fresh := zeros (n - vsize v) in
               if n <=? Z.of_nat (length l)
               then Ret (mkVec (Some b) n)
                        (heap_set b (kept ++ fresh ++ drop (Z.to_nat n) l) h)
               else let '(nb, h') := heap_alloc (kept ++ fresh) (heap_free b h) in
                    Ret (mkVec (Some nb) n) h'
           end
       end.

(** The copy constructor: the elements are copied to a new block; an
    empty vector is copied to an empty vector without storage. *)
Definition copy (h : heap) (v : vector) : option (heap * vector) :=
  if vsize v =? 0 then Some (h, empty)
  else match vstore v with
       | None => None
       | Some b =>
           match cells h !! b with
           | None => None
           | Some l =>
               let '(nb, h') := heap_alloc (take (Z.to_nat (vsize v)) l) h in
               Some (h', mkVec (Some nb) (vsize v))
           end
       end.

(** The move constructor: the storage changes hands and the source is
    left empty. *)
Definition move (v : vector) : vector * vector := (v, empty).

(** The destructor. *)
Definition destroy (h : heap) (v : vector) : heap :=
  match vstore v with
  | Some b => heap_free b h
  | None => h
  end.

End Vec.

(** ** Helpers declared outside buffer.cc *)

(** Modelled from the spec: the macro RETURN_NOT_OK of the status
    collaborator is not in buffer.cc.  A failure that is recoverable is
    returned to the immediate caller: the enclosing function returns the
    status at once when it is not Ok, and goes on otherwise. *)
Definition RETURN_NOT_OK {S : Type} (r : result S Status)
    (k : S -> result S Status) : result S Status :=
  match r with
  | Ret st s => if ok st then k s else Ret st s
  | Throw e s => Throw e s
  | Undefined => Undefined
  | Diverges => Diverges
  end.

(** Modelled from the spec: throw_if_not_ok of the status collaborator
    is not in buffer.cc.  It turns a status that is not Ok into a thrown
    fault and lets an Ok status through. *)
Definition throw_if_not_ok {S : Type} (r : result S Status) : result S unit :=
  match r with
  | Ret st s => if ok st then Ret tt s else Throw (StatusException st) s
  | Throw e s => Throw e s
  | Undefined => Undefined
  | Diverges => Diverges
  end.

(** Modelled from the spec: the default member initialiser of
    [preallocated_] is in buffer.h, not in buffer.cc.  A buffer
    built empty and growable, or built over externally owned memory, has
    preallocated = false. *)
Definition preallocated_default : bool := false.

(** ** Buffer (OwningMemoryBuffer<Alloc>)

    The allocator chooses where the memory of [vec_] comes from and
    nothing else; blocks of the store have no origin, so the allocator
    arguments of the constructors do not appear. *)

Record Buffer : Type := mkBuffer {
  base : BufferBase;
  vec_ : vector;
  owns_data_ : bool;
  preallocated_ : bool
}.

Definition with_base (bb : BufferBase) (b : Buffer) : Buffer :=
  mkBuffer bb (vec_ b) (owns_data_ b) (preallocated_ b).

Definition with_vec (v : vector) (b : Buffer) : Buffer :=
  mkBuffer (base b) v (owns_data_ b) (preallocated_ b).

Module Buf.

Definition not_owner_realloc_msg : string :=
  "Cannot reallocate buffer; Buffer does not own data".
Definition not_owner_write_msg : string :=
  "Cannot write to buffer; Buffer does not own the already stored data".
Definition preallocated_msg : string :=
  "Failed to reallocate. Buffer is preallocated to a fixed size.".

Definition alloced_size (b : Buffer) : Z := Vec.size (vec_ b).
Definition owns_data (b : Buffer) : bool := owns_data_ b.
Definition data (b : Buffer) : ptr := Base.nonconst_data (base b).
Definition cur_data (b : Buffer) : ptr := Base.nonconst_unread_data (base b).

(** void* data(uint64_t offset) const *)
Definition data_at (offset : Z) (b : Buffer) : ptr :=
  if is_null (Base.nonconst_data (base b)) then nullptr
  else ptr_add (Base.nonconst_data (base b)) offset.

(** free_space() asserts alloced_size() >= size_ first. *)
Definition free_space (b : Buffer) : Z :=
  U64.sub (alloced_size b) (size_ (base b)).

(** advance_size(nbytes) asserts owns_data_ first. *)
Definition advance_size (nbytes : Z) (b : Buffer) : Buffer :=
  with_base (with_size (U64.add (size_ (base b)) nbytes) (base b)) b.

Definition clear (b : Buffer) : Buffer :=
  let b1 :=
    if negb (is_null (data_ (base b))) && owns_data_ b
    then with_vec (Vec.clear (vec_ b)) b
    else b in
  with_base (mkBase nullptr 0 0) b1.

Definition reset_size (b : Buffer) : Buffer :=
  with_base (mkBase (data_ (base b)) 0 0) b.

Definition set_size (size : Z) (b : Buffer) : Buffer :=
  with_base (with_size size (base b)) b.

(** realloc(nbytes): an exception of vec_.resize passes through, with
    the buffer as it was. *)
Definition realloc (nbytes : Z) (s : heap * Buffer)
  : result (heap * Buffer) Status :=
  let '(h, b) := s in
  if negb (owns_data_ b)
  then Ret (Status_BufferError not_owner_realloc_msg) (h, b)
  else if alloced_size b <? nbytes
       then match Vec.resize nbytes h (vec_ b) with
            | Ret v' h' =>
                Ret Status_Ok
                  (h', with_base (with_data (Vec.data v') (base b)) (with_vec v' b))
            | Throw e h' => Throw e (h', b)
            | Undefined => Undefined
            | Diverges => Diverges
            end
       else Ret Status_Ok (h, b).

(** while (new_alloc_size < nbytes) new_alloc_size *= 2;
    [None] when the loop is still running after [fuel] tests. *)
Fixpoint grow (fuel : nat) (new_alloc_size nbytes : Z) : option Z :=
  match fuel with
  | O => None
  | S fuel' =>
      if new_alloc_size <? nbytes
      then grow fuel' (U64.mul new_alloc_size 2) nbytes
      else Some new_alloc_size
  end.

(** After 64 doublings the value is 0 for good, so a loop that is still
    running after 65 tests never stops (see [grow_fuel]). *)
Definition grow_fuel : nat := 65.

Definition ensure_alloced_size (nbytes : Z) (s : heap * Buffer)
  : result (heap * Buffer) Status :=
  let '(h, b) := s in
  if preallocated_ b && (alloced_size b <? nbytes)
  then Throw (BufferStatusException preallocated_msg) (h, b)
  else if preallocated_ b || (nbytes <=? alloced_size b)
       then Ret Status_Ok (h, b)
       else
         let new_alloc_size :=
           if alloced_size b =? 0 then nbytes else alloced_size b in
         match grow grow_fuel new_alloc_size nbytes with
         | None => Diverges
         | Some new_alloc_size => realloc new_alloc_size (h, b)
         end.

(** OwningMemoryBuffer(const allocator_type& alloc) *)
Definition new : Buffer :=
  mkBuffer Base.new Vec.empty true preallocated_default.

(** OwningMemoryBuffer(uint64_t size, const allocator_type& alloc) *)
Definition new_preallocated (size : Z) (h : heap) : result heap Buffer :=
  let this := mkBuffer (Base.of_region nullptr size) Vec.empty true true in
  match throw_if_not_ok (ensure_alloced_size (size_ (base this)) (h, this)) with
  | Ret _ (h', this') => Ret (with_base (with_size 0 (base this')) this') h'
  | Throw e (h', _) => Throw e h'
  | Undefined => Undefined
  | Diverges => Diverges
  end.

(** OwningMemoryBuffer(void* data, uint64_t size, const allocator_type&) *)
Definition wrap (data : ptr) (size : Z) : Buffer :=
  mkBuffer (Base.of_region data size) Vec.empty false preallocated_default.

(** OwningMemoryBuffer(const OwningMemoryBuffer& buff): the base is
    default-constructed, [vec_] is copied, then the body runs. *)
Definition copy (h : heap) (buff : Buffer) : result heap Buffer :=
  match Vec.copy h (vec_ buff) with
  | None => Undefined
  | Some (h', v) =>
      let this := mkBuffer Base.new v (owns_data_ buff) (preallocated_ buff) in
      let this := with_base (with_offset (offset_ (base buff)) (base this)) this in
      if owns_data_ buff && negb (is_null (data_ (base buff)))
      then Ret (with_base
                  (with_size (size_ (base buff))
                     (with_data (Vec.data (vec_ this)) (base this))) this) h'
      else Ret this h'
  end.

(** OwningMemoryBuffer(const OwningMemoryBuffer& buff,
    const allocator_type& alloc): the same text with the copy of
    [vec_] drawn from [alloc]. *)
Definition copy_alloc (h : heap) (buff : Buffer) : result heap Buffer :=
  match Vec.copy h (vec_ buff) with
  | None => Undefined
  | Some (h', v) =>
      let this := mkBuffer Base.new v (owns_data_ buff) (preallocated_ buff) in
      let this := with_base (with_offset (offset_ (base buff)) (base this)) this in
      if owns_data_ buff && negb (is_null (data_ (base buff)))
      then Ret (with_base
                  (with_size (size_ (base buff))
                     (with_data (Vec.data (vec_ this)) (base this))) this) h'
      else Ret this h'
  end.

(** OwningMemoryBuffer(OwningMemoryBuffer&& buff): the new buffer and
    what is left of [buff]. *)
Definition move (buff : Buffer) : Buffer * Buffer :=
  let d := data_ (base buff) in
  let buff := with_base (with_data nullptr (base buff)) buff in
  let sz := size_ (base buff) in
  let buff := with_base (with_size 0 (base buff)) buff in
  let '(v, emptied) := Vec.move (vec_ buff) in
  let buff := with_vec emptied buff in
  let this := mkBuffer (Base.of_region d sz) v (owns_data_ buff) (preallocated_ buff) in
  let o := offset_ (base buff) in
  let buff := with_base (with_offset 0 (base buff)) buff in
  (with_base (with_offset o (base this)) this, buff).

(** swap(other): the six members are exchanged one by one. *)
Definition swap (this other : Buffer) : Buffer * Buffer :=
  (mkBuffer (mkBase (data_ (base other)) (size_ (base other)) (offset_ (base other)))
     (vec_ other) (owns_data_ other) (preallocated_ other),
   mkBuffer (mkBase (data_ (base this)) (size_ (base this)) (offset_ (base this)))
     (vec_ this) (owns_data_ this) (preallocated_ this)).

(** Running a call on part of a larger state. *)
Definition within {S T A : Type} (f : S -> T) (r : result S A) : result T A :=
  match r with
  | Ret a s => Ret a (f s)
  | Throw e s => Throw e (f s)
  | Undefined => Undefined
  | Diverges => Diverges
  end.

Definition after_write (n : Z) (this : Buffer) : Buffer :=
  let b := with_offset (U64.add (offset_ (base this)) n) (base this) in
  with_base (with_size (Z.max (offset_ b) (size_ b)) b) this.

(** Status write(ConstBuffer* buff) *)
Definition write_const (s : heap * Buffer * BufferBase)
  : result (heap * Buffer * BufferBase) Status :=
  let '(h, this, buff) := s in
  if negb (owns_data_ this)
  then Ret (Status_BufferError not_owner_write_msg) s
  else
    let bytes_left_to_write := U64.sub (alloced_size this) (offset_ (base this)) in
    let bytes_left_to_read := Const.nbytes_left_to_read buff in
    let bytes_to_copy := Z.min bytes_left_to_write bytes_left_to_read in
    RETURN_NOT_OK
      (within (fun '(h', buff') => (h', this, buff'))
         (Base.read (ptr_add (data_ (base this)) (offset_ (base this)))
            bytes_to_copy (h, buff)))
      (fun '(h', this, buff') =>
         Ret Status_Ok (h', after_write bytes_to_copy this, buff')).

(** Status write(ConstBuffer* buff, uint64_t nbytes) *)
Definition write_const_n (nbytes : Z) (s : heap * Buffer * BufferBase)
  : result (heap * Buffer * BufferBase) Status :=
  let '(h, this, buff) := s in
  if negb (owns_data_ this)
  then Ret (Status_BufferError not_owner_write_msg) s
  else
    RETURN_NOT_OK
      (within (fun '(h', this') => (h', this', buff))
         (ensure_alloced_size (U64.add (offset_ (base this)) nbytes) (h, this)))
      (fun '(h, this, buff) =>
         RETURN_NOT_OK
           (within (fun '(h', buff') => (h', this, buff'))
              (Base.read (ptr_add (data_ (base this)) (offset_ (base this)))
                 nbytes (h, buff)))
           (fun '(h', this, buff') =>
              Ret Status_Ok (h', after_write nbytes this, buff'))).

(** Status write(const void* buffer, uint64_t nbytes) *)
Definition write (buffer : ptr) (nbytes : Z) (s : heap * Buffer)
  : result (heap * Buffer) Status :=
  let '(h, this) := s in
  if negb (owns_data_ this)
  then Ret (Status_BufferError not_owner_write_msg) s
  else
    RETURN_NOT_OK
      (ensure_alloced_size (U64.add (offset_ (base this)) nbytes) (h, this))
      (fun '(h, this) =>
         match memcpy h (ptr_add (data_ (base this)) (offset_ (base this)))
                 buffer nbytes with
         | None => Undefined
         | Some h' => Ret Status_Ok (h', after_write nbytes this)
         end).

(** Status write(const void* buffer, uint64_t offset, uint64_t nbytes) *)
Definition write_at (buffer : ptr) (offset nbytes : Z) (s : heap * Buffer)
  : result (heap * Buffer) Status :=
  let '(h, this) := s in
  if negb (owns_data_ this)
  then Ret (Status_BufferError not_owner_write_msg) s
  else
    RETURN_NOT_OK
      (ensure_alloced_size (U64.add offset nbytes) (h, this))
      (fun '(h, this) =>
         match memcpy h (ptr_add (data_ (base this)) offset) buffer nbytes with
         | None => Undefined
         | Some h' =>
             Ret Status_Ok
               (h', with_base
                      (with_size (Z.max (U64.add offset nbytes) (size_ (base this)))
                         (base this)) this)
         end).

(** operator=(const OwningMemoryBuffer& buff) on two distinct objects:
    clear, copy into a temporary, swap with it, and the temporary is
    destroyed with the old storage. *)
Definition copy_assign (buff : Buffer) (s : heap * Buffer)
  : result (heap * Buffer) unit :=
  let '(h, this) := s in
  let this := clear this in
  match copy h buff with
  | Ret tmp h' =>
      let '(this, tmp) := swap this tmp in
      Ret tt (Vec.destroy h' (vec_ tmp), this)
  | Throw e h' => Throw e (h', this)
  | Undefined => Undefined
  | Diverges => Diverges
  end.

(** operator=(OwningMemoryBuffer&& buff) on two distinct objects. *)
Definition move_assign (this buff : Buffer) : Buffer * Buffer :=
  swap this buff.

End Buf.

(** ConstBuffer::ConstBuffer(Buffer* buff) *)
Definition Const_of_buffer (buff : Buffer) : BufferBase :=
  Const.of_region (Buf.data buff) (Base.size (base buff)).

(** ** PreallocatedBuffer *)

Module Prealloc.

Definition overflow_msg : string := "Write would overflow buffer.".

(** PreallocatedBuffer::PreallocatedBuffer(const void* data, uint64_t size) *)
Definition of_region (data : ptr) (size : Z) : BufferBase :=
  Base.of_region data size.

Definition cur_data (b : BufferBase) : ptr := Base.nonconst_unread_data b.

Definition free_space (b : BufferBase) : Z := U64.sub (size_ b) (offset_ b).

Definition write (buffer : ptr) (nbytes : Z) (s : heap * BufferBase)
  : result (heap * BufferBase) Status :=
  let '(h, b) := s in
  if U64.sub (size_ b) (offset_ b) <? nbytes
  then Ret (Status_PreallocatedBufferError overflow_msg) (h, b)
  else match memcpy h (ptr_add (data_ b) (offset_ b)) buffer nbytes with
       | None => Undefined
       | Some h' =>
           Ret Status_Ok (h', with_offset (U64.add (offset_ b) nbytes) b)
       end.

End Prealloc.

(** ** Objects and public calls

    Buffers are objects with an identity: assignment and swap compare
    addresses, and a call on one buffer can change another.  A world is
    the store together with the buffers that exist, and a call is one use
    of the public interface. *)

Inductive object : Type :=
| ABuffer (b : Buffer)
| AConst (b : BufferBase)
| APrealloc (b : BufferBase).

Definition cursor (o : object) : BufferBase :=
  match o with
  | ABuffer b => base b
  | AConst b => b
  | APrealloc b => b
  end.

Definition set_cursor (bb : BufferBase) (o : object) : object :=
  match o with
  | ABuffer b => ABuffer (with_base bb b)
  | AConst _ => AConst bb
  | APrealloc _ => APrealloc bb
  end.

Record world : Type := World {
  mem : heap;
  objs : gmap nat object
}.

Inductive call : Type :=
| c_reset_offset (this : nat)
| c_set_offset (this : nat) (offset : Z)
| c_advance_offset (this : nat) (nbytes : Z)
| c_read (this : nat) (destination : ptr) (nbytes : Z)
| c_read_at (this : nat) (destination : ptr) (offset nbytes : Z)
| c_new (this : nat)
| c_new_preallocated (this : nat) (size : Z)
| c_wrap (this : nat) (data : ptr) (size : Z)
| c_copy (this buff : nat)
| c_copy_alloc (this buff : nat)
| c_move (this buff : nat)
| c_advance_size (this : nat) (nbytes : Z)
| c_clear (this : nat)
| c_reset_size (this : nat)
| c_set_size (this : nat) (size : Z)
| c_realloc (this : nat) (nbytes : Z)
| c_ensure_alloced_size (this : nat) (nbytes : Z)
| c_swap (this other : nat)
| c_write_const (this buff : nat)
| c_write_const_n (this buff : nat) (nbytes : Z)
| c_write (this : nat) (buffer : ptr) (nbytes : Z)
| c_write_at (this : nat) (buffer : ptr) (offset nbytes : Z)
| c_copy_assign (this buff : nat)
| c_move_assign (this buff : nat)
| c_const_of_region (this : nat) (data : ptr) (size : Z)
| c_const_of_buffer (this buff : nat)
| c_prealloc_of_region (this : nat) (data : ptr) (size : Z)
| c_prealloc_write (this : nat) (buffer : ptr) (nbytes : Z).

Module World.

Definition put (l : nat) (o : object) (w : world) : world :=
  World (mem w) (<[l := o]> (objs w)).

Definition get_buffer (l : nat) (w : world) : option Buffer :=
  match objs w !! l with
  | Some (ABuffer b) => Some b
  | _ => None
  end.

Definition get_const (l : nat) (w : world) : option BufferBase :=
  match objs w !! l with
  | Some (AConst b) => Some b
  | _ => None
  end.

Definition get_prealloc (l : nat) (w : world) : option BufferBase :=
  match objs w !! l with
  | Some (APrealloc b) => Some b
  | _ => None
  end.

Definition returning {S A B : Type} (f : A -> B) (r : result S A) : result S B :=
  match r with
  | Ret a s => Ret (f a) s
  | Throw e s => Throw e s
  | Undefined => Undefined
  | Diverges => Diverges
  end.

Definition no_status {A : Type} (_ : A) : option Status := None.

(** A method of BufferBase, on a buffer of any kind. *)
Definition on_cursor {A : Type} (this : nat) (w : world)
    (f : heap * BufferBase -> result (heap * BufferBase) A) : result world A :=
  match objs w !! this with
  | None => Undefined
  | Some o =>
      Buf.within (fun '(h, bb) => World h (<[this := set_cursor bb o]> (objs w)))
        (f (mem w, cursor o))
  end.

(** A method of Buffer. *)
Definition on_buffer {A : Type} (this : nat) (w : world)
    (f : heap * Buffer -> result (heap * Buffer) A) : result world A :=
  match get_buffer this w with
  | None => Undefined
  | Some b =>
      Buf.within (fun '(h, b') => World h (<[this := ABuffer b']> (objs w)))
        (f (mem w, b))
  end.

(** A constructor: the new object takes a name that is not in use. *)
Definition construct (this : nat) (w : world) (r : result heap object)
  : result world (option Status) :=
  match objs w !! this with
  | Some _ => Undefined
  | None =>
      match r with
      | Ret o h => Ret None (World h (<[this := o]> (objs w)))
      | Throw e h => Throw e (World h (objs w))
      | Undefined => Undefined
      | Diverges => Diverges
      end
  end.

Definition pure {S A : Type} (f : S -> S) (a : A) (s : S) : result S A :=
  Ret a (f s).

Definition on_snd {A B : Type} (f : B -> B) (s : A * B) : A * B :=
  (s.1, f s.2).

Definition exec (c : call) (w : world) : result world (option Status) :=
  match c with
  | c_reset_offset this =>
      on_cursor this w (pure (on_snd Base.reset_offset) None)
  | c_set_offset this offset =>
      on_cursor this w (fun '(h, b) =>
        returning no_status (Buf.within (fun b' => (h, b')) (Base.set_offset offset b)))
  | c_advance_offset this nbytes =>
      on_cursor this w (pure (on_snd (Base.advance_offset nbytes)) None)
  | c_read this destination nbytes =>
      returning Some (on_cursor this w (Base.read destination nbytes))
  | c_read_at this destination offset nbytes =>
      returning Some (on_cursor this w (Base.read_at destination offset nbytes))
  | c_new this =>
      construct this w (Ret (ABuffer Buf.new) (mem w))
  | c_new_preallocated this size =>
      construct this w (returning ABuffer (Buf.new_preallocated size (mem w)))
  | c_wrap this data size =>
      construct this w (Ret (ABuffer (Buf.wrap data size)) (mem w))
  | c_copy this buff =>
      match get_buffer buff w with
      | None => Undefined
      | Some b => construct this w (returning ABuffer (Buf.copy (mem w) b))
      end
  | c_copy_alloc this buff =>
      match get_buffer buff w with
      | None => Undefined
      | Some b => construct this w (returning ABuffer (Buf.copy_alloc (mem w) b))
      end
  | c_move this buff =>
      match get_buffer buff w with
      | None => Undefined
      | Some b =>
          let '(new, old) := Buf.move b in
          construct this (put buff (ABuffer old) w) (Ret (ABuffer new) (mem w))
      end
  | c_advance_size this nbytes =>
      on_buffer this w (pure (on_snd (Buf.advance_size nbytes)) None)
  | c_clear this =>
      on_buffer this w (pure (on_snd Buf.clear) None)
  | c_reset_size this =>
      on_buffer this w (pure (on_snd Buf.reset_size) None)
  | c_set_size this size =>
      on_buffer this w (pure (on_snd (Buf.set_size size)) None)
  | c_realloc this nbytes =>
      returning Some (on_buffer this w (Buf.realloc nbytes))
  | c_ensure_alloced_size this nbytes =>
      returning Some (on_buffer this w (Buf.ensure_alloced_size nbytes))
  | c_swap this other =>
      match get_buffer this w, get_buffer other w with
      | Some a, Some b =>
          if decide (this = other) then Ret None w
          else let '(a', b') := Buf.swap a b in
               Ret None (put other (ABuffer b') (put this (ABuffer a') w))
      | _, _ => Undefined
      end
  | c_write_const this buff =>
      match get_buffer this w, get_const buff w with
      | Some a, Some b =>
          returning Some
            (Buf.within
               (fun '(h, a', b') =>
                  put buff (AConst b') (put this (ABuffer a') (World h (objs w))))
               (Buf.write_const (mem w, a, b)))
      | _, _ => Undefined
      end
  | c_write_const_n this buff nbytes =>
      match get_buffer this w, get_const buff w with
      | Some a, Some b =>
          returning Some
            (Buf.within
               (fun '(h, a', b') =>
                  put buff (AConst b') (put this (ABuffer a') (World h (objs w))))
               (Buf.write_const_n nbytes (mem w, a, b)))
      | _, _ => Undefined
      end
  | c_write this buffer nbytes =>
      returning Some (on_buffer this w (Buf.write buffer nbytes))
  | c_write_at this buffer offset nbytes =>
      returning Some (on_buffer this w (Buf.write_at buffer offset nbytes))
  | c_copy_assign this buff =>
      match get_buffer this w, get_buffer buff w with
      | Some _, Some b =>
          if decide (this = buff) then Ret None w
          else returning no_status (on_buffer this w (Buf.copy_assign b))
      | _, _ => Undefined
      end
  | c_move_assign this buff =>
      match get_buffer this w, get_buffer buff w with
      | Some a, Some b =>
          if decide (this = buff) then Ret None w
          else let '(a', b') := Buf.move_assign a b in
               Ret None (put buff (ABuffer b') (put this (ABuffer a') w))
      | _, _ => Undefined
      end
  | c_const_of_region this data size =>
      construct this w (Ret (AConst (Const.of_region data size)) (mem w))
  | c_const_of_buffer this buff =>
      match get_buffer buff w with
      | None => Undefined
      | Some b => construct this w (Ret (AConst (Const_of_buffer b)) (mem w))
      end
  | c_prealloc_of_region this data size =>
      construct this w (Ret (APrealloc (Prealloc.of_region data size)) (mem w))
  | c_prealloc_write this buffer nbytes =>
      match get_prealloc this w with
      | None => Undefined
      | Some b =>
          returning Some
            (Buf.within (fun '(h, b') => World h (<[this := APrealloc b']> (objs w)))
               (Prealloc.write buffer nbytes (mem w, b)))
      end
  end.

End World.

(** ** Predicates of the statements *)

(** The range of [n] bytes at [p] lies in a live block (or is empty). *)
Definition valid (h : heap) (p : ptr) (n : Z) : bool :=
  (n =? 0) ||
  match p with
  | nullptr => false
  | Ptr b o =>
      match cells h !! b with
      | None => false
      | Some l => (0 <=? o) && (o + n <=? Z.of_nat (length l))
      end
  end.

(** The cursor invariant of the data model. *)
Definition cursor_ok (b : BufferBase) : Prop :=
  0 <= offset_ b <= size_ b.

(** Both counters are [uint64_t] values. *)
Definition cursor_typed (b : BufferBase) : Prop :=
  U64.in_range (size_ b) /\ U64.in_range (offset_ b).

(** The vector's storage is in the store and holds its elements. *)
Definition vec_wf (h : heap) (v : vector) : Prop :=
  match vstore v with
  | None => vsize v = 0
  | Some b =>
      exists l, cells h !! b = Some l /\ 0 <= vsize v <= Z.of_nat (length l)
  end.

(** The bytes a buffer holds: [size_] bytes at [data_]. *)
Definition contents (h : heap) (b : BufferBase) : option (list byte) :=
  load h (data_ b) (size_ b).

(** A run that came back, with a value or with an exception. *)
Definition comes_back {S A : Type} (r : result S A) (s : S) : Prop :=
  (exists a, r = Ret a s) \/ (exists e, r = Throw e s).

Definition cursor_good (b : BufferBase) : Prop :=
  cursor_ok b /\ cursor_typed b.

(** Every buffer of the world satisfies the cursor invariant, with
    counters in range. *)
Definition world_ok (w : world) : Prop :=
  forall l o, objs w !! l = Some o -> cursor_good (cursor o).

(** The calls that keep the cursor invariant on the buffers they are
    used on: set_size with a size that is not below the offset,
    advance_size without wrap-around, a copy of a buffer that owns
    non-null data, and every other call. *)
Definition keeps_cursor (c : call) (w : world) : Prop :=
  match c with
  | c_set_size this size =>
      forall b, World.get_buffer this w = Some b -> offset_ (base b) <= size
  | c_advance_size this nbytes =>
      forall b, World.get_buffer this w = Some b ->
                size_ (base b) + nbytes < U64.modulus
  | c_copy _ buff | c_copy_alloc _ buff | c_copy_assign _ buff =>
      forall b, World.get_buffer buff w = Some b ->
                owns_data_ b = true /\ is_null (data_ (base b)) = false
  | _ => True
  end.

(** The arguments of a call are [uint64_t] values. *)
Definition call_typed (c : call) : Prop :=
  match c with
  | c_set_offset _ n | c_advance_offset _ n | c_read _ _ n
  | c_new_preallocated _ n | c_wrap _ _ n | c_advance_size _ n
  | c_set_size _ n | c_realloc _ n | c_ensure_alloced_size _ n
  | c_write_const_n _ _ n | c_write _ _ n
  | c_const_of_region _ _ n | c_prealloc_of_region _ _ n
  | c_prealloc_write _ _ n => U64.in_range n
  | c_read_at _ _ o n | c_write_at _ _ o n => U64.in_range o /\ U64.in_range n
  | _ => True
  end.

(** ** Sample memory *)

(** Two blocks: eight bytes of data and a one-byte destination. *)
Definition sample_heap : heap :=
  Heap (<[2%positive := [Byte.x00]]>
          (<[1%positive := [Byte.x01; Byte.x02; Byte.x03; Byte.x04;
                             Byte.x05; Byte.x06; Byte.x07; Byte.x08]]> ∅))
       3%positive.

Definition sample_data : ptr := Ptr 1%positive 0.
Definition sample_dst : ptr := Ptr 2%positive 0.

(** A 16-byte region and a 16-byte payload, for the scenario of the
    preallocated fixed buffer. *)
Definition payload16 : list byte :=
  [Byte.x10; Byte.x11; Byte.x12; Byte.x13; Byte.x14; Byte.x15; Byte.x16; Byte.x17;
   Byte.x18; Byte.x19; Byte.x1a; Byte.x1b; Byte.x1c; Byte.x1d; Byte.x1e; Byte.x1f].

Definition region16_heap : heap :=
  Heap (<[2%positive := payload16]>
          (<[1%positive := replicate 16 Byte.x00]> ∅))
       3%positive.

Definition payload_at (o : Z) : ptr := Ptr 2%positive o.

(** Two owning buffers in [sample_heap]: one whose vector is the 8-byte
    block, with the cursor at 2, and one whose vector is the 1-byte
    block, as after one write of one byte. *)
Definition eight_byte_buffer : Buffer :=
  mkBuffer (mkBase sample_data 8 2) (mkVec (Some 1%positive) 8) true false.

Definition one_byte_buffer : Buffer :=
  mkBuffer (mkBase sample_dst 1 1) (mkVec (Some 2%positive) 1) true false.

(** A buffer over the 8-byte block that does not own it, with the cursor
    at 3, and two worlds of one buffer each. *)
Definition borrowed_buffer : Buffer :=
  with_base (mkBase sample_data 8 3) (Buf.wrap sample_data 8).

Definition owning_world : world :=
  World sample_heap (<[0%nat := ABuffer eight_byte_buffer]> ∅).

Definition borrowed_world : world :=
  World sample_heap (<[0%nat := ABuffer borrowed_buffer]> ∅).

(** ** Good order, frames and sequences of writes *)

(** Every live block was handed out by the allocator. *)
Definition heap_wf (h : heap) : Prop :=
  forall b l, cells h !! b = Some l -> (b < next_block h)%positive.

(** The pointer does not point into the storage of the vector. *)
Definition apart (p : ptr) (v : vector) : Prop :=
  match p, vstore v with
  | Ptr b _, Some b' => b <> b'
  | _, _ => True
  end.

(** The capacity [cap] that the growth policy gives a buffer of capacity
    [c] asked for [n] bytes. *)
Definition policy (c n cap : Z) : Prop :=
  (n <= c /\ cap = c) \/
  (c = 0 /\ 0 < n /\ cap = n) \/
  (0 < c < n /\
   exists k : nat,
     cap = c * 2 ^ Z.of_nat k /\ n <= cap /\
     forall j : nat, (j < k)%nat -> c * 2 ^ Z.of_nat j < n).

(** The vector can take the capacity that the growth policy asks for:
    from capacity [c], asked for [n] bytes, any larger capacity it goes
    to is within max_size(). *)
Definition within_max_size (c n : Z) : Prop :=
  forall cap, policy c n cap -> c < cap -> cap <= Vec.max_size.

(** An owning, growable buffer in good order: its vector is in the
    store, [data_] is the vector's storage once there are elements, and
    offset <= size <= capacity. *)
Definition owner_wf (h : heap) (b : Buffer) : Prop :=
  owns_data_ b = true /\ preallocated_ b = false /\
  vec_wf h (vec_ b) /\
  (0 < Buf.alloced_size b -> data_ (base b) = Vec.data (vec_ b)) /\
  0 <= offset_ (base b) <= size_ (base b) /\
  size_ (base b) <= Buf.alloced_size b.

(** A caller that writes the payloads one after the other and stops at
    the first status that is not Ok. *)
Fixpoint write_all (srcs : list (ptr * Z)) (s : heap * Buffer)
  : result (heap * Buffer) Status :=
  match srcs with
  | [] => Ret Status_Ok s
  | (p, n) :: rest => RETURN_NOT_OK (Buf.write p n s) (write_all rest)
  end.

(** The bytes of the payloads, in order. *)
Fixpoint gather (h : heap) (srcs : list (ptr * Z)) : list byte :=
  match srcs with
  | [] => []
  | (p, n) :: rest => default [] (load h p n) ++ gather h rest
  end.

Fixpoint total (srcs : list (ptr * Z)) : Z :=
  match srcs with
  | [] => 0
  | (_, n) :: rest => n + total rest
  end.

(** The state of a buffer that was built and grown in a store that
    started as [h0]: the blocks of [h0] are as they were, and the
    vector's storage is not one of them. *)
Definition grown_from (h0 h : heap) (b : Buffer) : Prop :=
  heap_wf h /\ owner_wf h b /\
  (next_block h0 <= next_block h)%positive /\
  (forall blk, (blk < next_block h0)%positive -> cells h !! blk = cells h0 !! blk) /\
  (forall blk, vstore (vec_ b) = Some blk -> (next_block h0 <= blk)%positive).

(** The capacity after [i] one-byte writes: 0 before the first, and then
    the power of two that is at least [i] and less than twice [i]. *)
Definition tight_power (i cap : Z) : Prop :=
  (i = 0 /\ cap = 0) \/
  (1 <= i /\ exists j : nat, cap = 2 ^ Z.of_nat j /\ i <= cap < 2 * i).

(** The two pointers do not point into the same block. *)
Definition other_block (p q : ptr) : Prop :=
  match p, q with
  | Ptr b _, Ptr b' _ => b <> b'
  | _, _ => True
  end.

(** A source block and two destination blocks. *)
Definition scatter_heap : heap :=
  Heap (<[3%positive := replicate 4 Byte.x00]>
          (<[2%positive := replicate 4 Byte.x00]>
             (<[1%positive := payload16]> ∅)))
       4%positive.

(** ** TileConstCellIterator::cell_inside_range *)

Module TileConstCellIterator.

Definition INT_MAX : Z := 2147483647.

(** The loop of the dense branch, for the integer instantiations of T:
    [for (int i = 0; i < dim_num; ++i)
       if (coords[i] < range[2*i] || coords[i] > range[2*i+1]) return false;
     return true;]
    [fuel] is the number of iterations left.  [None] is undefined
    behaviour: an index past the end of an array, or 2*i beyond int. *)
Fixpoint inside_loop (fuel : nat) (i : Z) (coords range : list Z) : option bool :=
  match fuel with
  | O => Some true
  | S fuel' =>
      if INT_MAX <? 2 * i + 1 then None
      else match coords !! Z.to_nat i, range !! Z.to_nat (2 * i) with
           | Some x, Some lo =>
               if x <? lo then Some false
               else match range !! Z.to_nat (2 * i + 1) with
                    | Some hi =>
                        if hi <? x then Some false
                        else inside_loop fuel' (i + 1) coords range
                    | None => None
                    end
           | _, _ => None
           end
  end.

(** cell_inside_range(range).  [dim_num] is what tile_->dim_num()
    returns and [tile_answer] what tile_->cell_inside_range(pos_, range)
    returns; [current_coords_] is [None] for NULL, on which the assert
    stops the program. *)
Definition cell_inside_range (dense_coords_ : bool)
    (current_coords_ : option (list Z)) (dim_num : Z)
    (tile_answer : option bool) (range : list Z) : option bool :=
  if dense_coords_
  then match current_coords_ with
       | None => None
       | Some coords => inside_loop (Z.to_nat dim_num) 0 coords range
       end
  else tile_answer.

End TileConstCellIterator.

(** * Properties *)

(** ** Arithmetic and memory lemmas *)

(** Bounds between the counters of a concrete buffer. *)
Ltac bounds :=
  unfold cursor_ok, U64.in_range, U64.modulus, Buf.alloced_size, Vec.size;
  cbn; lia.

Lemma wrap_small z : U64.in_range z -> U64.wrap z = z.
Proof. unfold U64.in_range, U64.wrap. intros H. apply Z.mod_small. exact H. Qed.

Lemma sub_no_borrow a b :
  0 <= b <= a -> U64.in_range a -> U64.sub a b = a - b.
Proof.
  intros Hb Ha. unfold U64.sub. apply wrap_small.
  unfold U64.in_range in *. lia.
Qed.

Lemma add_no_carry a b :
  0 <= a -> 0 <= b -> a + b < U64.modulus -> U64.add a b = a + b.
Proof.
  intros Ha Hb Hs. unfold U64.add. apply wrap_small.
  unfold U64.in_range. lia.
Qed.

Lemma wrap_in_range z : U64.in_range (U64.wrap z).
Proof.
  unfold U64.in_range, U64.wrap, U64.modulus.
  apply Z.mod_pos_bound. reflexivity.
Qed.

Lemma load_length h p n bs :
  0 <= n -> load h p n = Some bs -> Z.of_nat (length bs) = n.
Proof.
  intros Hn. unfold load.
  destruct (n =? 0) eqn:E.
  - intros [= <-]. apply Z.eqb_eq in E. simpl. lia.
  - destruct p as [|b o]; [discriminate|].
    destruct (cells h !! b) as [l|]; [|discriminate].
    destruct ((0 <=? o) && (o + n <=? Z.of_nat (length l))) eqn:B; [|discriminate].
    intros [= <-]. apply andb_prop in B as [B1 B2].
    apply Z.leb_le in B1, B2.
    rewrite length_take, length_drop. lia.
Qed.

Lemma load_valid h p n :
  valid h p n = true -> exists bs, load h p n = Some bs.
Proof.
  unfold valid, load. destruct (n =? 0); [eauto|]. simpl.
  destruct p as [|b o]; [discriminate|].
  destruct (cells h !! b) as [l|]; [|discriminate].
  intros ->. eauto.
Qed.

Lemma store_valid h p bs :
  valid h p (Z.of_nat (length bs)) = true ->
  exists h', store h p bs = Some h' /\ load h' p (Z.of_nat (length bs)) = Some bs.
Proof.
  destruct bs as [|x bs]; [simpl; eauto|].
  assert (Hpos : (Z.of_nat (length (x :: bs)) =? 0) = false)
    by (apply Z.eqb_neq; simpl; lia).
  unfold valid, store, load. rewrite Hpos, orb_false_l.
  destruct p as [|b o]; [discriminate|].
  destruct (cells h !! b) as [l|] eqn:Hl; [|discriminate].
  intros Hv. rewrite Hv.
  eexists; split; [reflexivity|].
  unfold heap_set, cells at 1. rewrite lookup_insert_eq.
  apply andb_prop in Hv as [B1 B2]. apply Z.leb_le in B1, B2.
  assert (Hlen : length (take (Z.to_nat o) l) = Z.to_nat o)
    by (rewrite length_take; lia).
  replace ((0 <=? o) && (o + Z.of_nat (length (x :: bs)) <=?
            Z.of_nat (length (take (Z.to_nat o) l ++ (x :: bs) ++
                              drop (Z.to_nat o + length (x :: bs)) l)))) with true.
  - f_equal. rewrite drop_app_length'; [|symmetry; exact Hlen].
    rewrite Nat2Z.id. apply take_app_length.
  - symmetry. apply andb_true_intro; split; apply Z.leb_le; [lia|].
    rewrite !length_app, length_drop, Hlen. lia.
Qed.

(** memcpy between valid ranges that do not overlap copies the bytes. *)
Lemma memcpy_spec h dst src n :
  0 <= n -> valid h src n = true -> valid h dst n = true ->
  overlap dst src n = false ->
  exists bs h', load h src n = Some bs /\ memcpy h dst src n = Some h' /\
                load h' dst n = Some bs.
Proof.
  intros Hn Hs Hd Ho.
  destruct (load_valid _ _ _ Hs) as [bs Hbs].
  pose proof (load_length _ _ _ _ Hn Hbs) as Hlen.
  rewrite <- Hlen in Hd.
  destruct (store_valid _ _ _ Hd) as (h' & Hst & Hld).
  exists bs, h'. unfold memcpy. rewrite Ho, Hbs, Hst, <- Hlen. auto.
Qed.

(** ** The cursor contract *)

Lemma advance_offset_min (b : BufferBase) (n : Z) :
  cursor_ok b -> U64.in_range (size_ b) -> U64.in_range n ->
  Base.advance_offset n b
    = with_offset (Z.min (offset_ b + n) (size_ b)) b.
Proof.
  intros Hc Hs Hn. unfold cursor_ok in Hc.
  unfold Base.advance_offset. rewrite (sub_no_borrow _ _ Hc Hs).
  unfold U64.in_range in *.
  destruct (size_ b - offset_ b <=? n) eqn:E.
  - apply Z.leb_le in E. f_equal. lia.
  - apply Z.leb_gt in E. rewrite add_no_carry by lia. f_equal. lia.
Qed.

(** C9: on a buffer with offset <= size, advance_offset(n) sets the
    offset to min(offset + n, size) computed over the integers, also when
    offset + n does not fit in 64 bits; the offset does not decrease and
    does not pass the size, and nothing else changes.  The call has no
    error result: [Base.advance_offset] is a total function on buffers. *)
Theorem advance_offset_saturates (b : BufferBase) (n : Z) :
  cursor_ok b -> U64.in_range (size_ b) -> U64.in_range n ->
  offset_ (Base.advance_offset n b) = Z.min (offset_ b + n) (size_ b) /\
  offset_ b <= offset_ (Base.advance_offset n b) /\
  offset_ (Base.advance_offset n b) <= size_ (Base.advance_offset n b) /\
  size_ (Base.advance_offset n b) = size_ b /\
  data_ (Base.advance_offset n b) = data_ b.
Proof.
  intros Hc Hs Hn. rewrite (advance_offset_min b n Hc Hs Hn).
  unfold cursor_ok, U64.in_range in *. cbn.
  repeat split; try reflexivity; lia.
Qed.

Lemma advance_offset_saturates_witness :
  offset_ (Base.advance_offset (2 ^ 64 - 1) (mkBase nullptr 10 4)) = 10.
Proof.
  destruct (advance_offset_saturates (mkBase nullptr 10 4) (2 ^ 64 - 1))
    as (H & _).
  - unfold cursor_ok; simpl; lia.
  - unfold U64.in_range, U64.modulus; simpl; lia.
  - unfold U64.in_range, U64.modulus; lia.
  - rewrite H. reflexivity.
Defined.

(** C4: on a buffer with offset <= size, read(dst, n) returns a status
    that is not Ok exactly when n > size - offset; that status is the
    buffer error, and the store and the buffer are as before, so nothing
    was copied.  When n <= size - offset and the two ranges are in
    memory, the n bytes at the cursor are in dst afterwards and the
    offset has advanced by n. *)
Theorem read_at_cursor (h : heap) (b : BufferBase) (dst : ptr) (n : Z) :
  cursor_ok b -> U64.in_range (size_ b) -> U64.in_range n ->
  ((exists st s', Base.read dst n (h, b) = Ret st s' /\ ok st = false) <->
   size_ b - offset_ b < n) /\
  (size_ b - offset_ b < n ->
   Base.read dst n (h, b) = Ret (Status_BufferError Base.overflow_msg) (h, b)) /\
  (n <= size_ b - offset_ b ->
   valid h (ptr_add (data_ b) (offset_ b)) n = true ->
   valid h dst n = true ->
   overlap dst (ptr_add (data_ b) (offset_ b)) n = false ->
   exists bs h',
     load h (ptr_add (data_ b) (offset_ b)) n = Some bs /\
     Base.read dst n (h, b) = Ret Status_Ok (h', with_offset (offset_ b + n) b) /\
     load h' dst n = Some bs).
Proof.
  intros Hc Hs Hn. unfold cursor_ok in Hc.
  unfold Base.read. rewrite (sub_no_borrow _ _ Hc Hs).
  destruct (size_ b - offset_ b <? n) eqn:E.
  - apply Z.ltb_lt in E. repeat split; try lia; eauto.
  - apply Z.ltb_ge in E. repeat split; try lia.
    + intros (st & s' & Hr & Hst).
      destruct (memcpy h dst (ptr_add (data_ b) (offset_ b)) n);
        [|discriminate].
      injection Hr as <- <-. discriminate.
    + intros _ Hsrc Hdst Hov.
      destruct (memcpy_spec h dst _ n (proj1 Hn) Hsrc Hdst Hov)
        as (bs & h' & Hl & Hm & Hl').
      exists bs, h'. rewrite Hm. repeat split; auto.
      rewrite add_no_carry; [reflexivity|lia|apply Hn|].
      unfold U64.in_range in *. lia.
Qed.

Lemma read_at_cursor_witness :
  exists h',
    Base.read sample_dst 1 (sample_heap, mkBase sample_data 4 3)
      = Ret Status_Ok (h', mkBase sample_data 4 4) /\
    load h' sample_dst 1 = Some [Byte.x04].
Proof.
  destruct (read_at_cursor sample_heap (mkBase sample_data 4 3) sample_dst 1)
    as (_ & _ & H).
  - unfold cursor_ok; simpl; lia.
  - unfold U64.in_range, U64.modulus; simpl; lia.
  - unfold U64.in_range, U64.modulus; lia.
  - destruct H as (bs & h' & Hl & Hr & Hl').
    + simpl; lia.
    + reflexivity.
    + reflexivity.
    + reflexivity.
    + exists h'. split; [exact Hr|].
      rewrite Hl'. rewrite <- Hl. reflexivity.
Defined.

(** C3: a positional read whose offset is past the size is not refused.
    A view of the first 4 bytes of an 8-byte block is read at offset 5
    for 1 byte, so o + n = 6 > size = 4; the test size - o wraps to
    2^64 - 1, the call returns Ok and the byte at index 5 of the block,
    which is outside the buffer, is in the destination. *)
Theorem read_at_past_size_is_ok :
  exists h',
    Base.read_at sample_dst 5 1 (sample_heap, Const.of_region sample_data 4)
      = Ret Status_Ok (h', Const.of_region sample_data 4) /\
    load h' sample_dst 1 = Some [Byte.x06] /\
    size_ (Const.of_region sample_data 4) < 5 + 1.
Proof.
  eexists. split; [reflexivity|]. split; [reflexivity|]. simpl. lia.
Qed.

Lemma valid_inside h p size o n :
  valid h p size = true -> 0 <= o -> 0 <= n -> o + n <= size ->
  valid h (ptr_add p o) n = true.
Proof.
  unfold valid. intros Hv Ho Hn Hle.
  destruct (n =? 0) eqn:E; [reflexivity|]. apply Z.eqb_neq in E.
  destruct (size =? 0) eqn:E'; [apply Z.eqb_eq in E'; lia|].
  simpl in *. destruct p as [|b o']; [discriminate|]. simpl.
  destruct (cells h !! b) as [l|]; [|discriminate].
  apply andb_prop in Hv as [B1 B2]. apply Z.leb_le in B1, B2.
  apply andb_true_intro; split; apply Z.leb_le; lia.
Qed.

(** ** PreallocatedBuffer *)

(** C8: over an external region of length L, with the cursor inside it,
    write(raw, n) succeeds exactly when n <= L - offset: then the n bytes
    are at the cursor afterwards and the offset has advanced by n;
    otherwise the status is the preallocated-buffer error, which is not
    the buffer error of the other classes, and the store and the buffer
    are as before.  On a 16-byte region, writes of 10 and of 6 bytes
    succeed and leave free_space() = 0, and a further write of 1 byte
    returns the preallocated-buffer error with the offset still 16. *)
Theorem prealloc_write_bounds :
  (forall (h : heap) (b : BufferBase) (buffer : ptr) (n : Z),
     cursor_ok b -> U64.in_range (size_ b) -> U64.in_range n ->
     valid h (data_ b) (size_ b) = true ->
     valid h buffer n = true ->
     overlap (ptr_add (data_ b) (offset_ b)) buffer n = false ->
     ((exists s', Prealloc.write buffer n (h, b) = Ret Status_Ok s') <->
      n <= size_ b - offset_ b) /\
     (n <= size_ b - offset_ b ->
      exists bs h',
        load h buffer n = Some bs /\
        Prealloc.write buffer n (h, b)
          = Ret Status_Ok (h', with_offset (offset_ b + n) b) /\
        load h' (ptr_add (data_ b) (offset_ b)) n = Some bs) /\
     (size_ b - offset_ b < n ->
      Prealloc.write buffer n (h, b)
        = Ret (Status_PreallocatedBufferError Prealloc.overflow_msg) (h, b))) /\
  (forall m m', Status_PreallocatedBufferError m <> Status_BufferError m') /\
  (exists h1 b1 h2 b2,
     Prealloc.write (payload_at 0) 10
       (region16_heap, Prealloc.of_region (Ptr 1%positive 0) 16)
       = Ret Status_Ok (h1, b1) /\
     Prealloc.write (payload_at 10) 6 (h1, b1) = Ret Status_Ok (h2, b2) /\
     Prealloc.free_space b2 = 0 /\
     contents h2 b2 = Some payload16 /\
     Prealloc.write (payload_at 0) 1 (h2, b2)
       = Ret (Status_PreallocatedBufferError Prealloc.overflow_msg) (h2, b2) /\
     offset_ b2 = 16).
Proof.
  split; [|split].
  - intros h b buffer n Hc Hs Hn Hreg Hbuf Hov. unfold cursor_ok in Hc.
    unfold Prealloc.write. rewrite (sub_no_borrow _ _ Hc Hs).
    destruct (size_ b - offset_ b <? n) eqn:E.
    + apply Z.ltb_lt in E. repeat split; try lia; auto.
      intros (s' & Hr). discriminate.
    + apply Z.ltb_ge in E.
      assert (Hdst : valid h (ptr_add (data_ b) (offset_ b)) n = true).
      { apply valid_inside with (size := size_ b); auto; try lia. apply Hn. }
      destruct (memcpy_spec h _ buffer n (proj1 Hn) Hbuf Hdst Hov)
        as (bs & h' & Hl & Hm & Hl').
      rewrite Hm.
      assert (Hadd : U64.add (offset_ b) n = offset_ b + n).
      { apply add_no_carry; [lia|apply Hn|]. unfold U64.in_range in *. lia. }
      rewrite Hadd. repeat split; try lia; eauto.
  - intros m m'. discriminate.
  - do 4 eexists. split; [reflexivity|]. split; [reflexivity|].
    repeat split.
Qed.

Lemma prealloc_write_bounds_witness :
  exists bs h',
    load region16_heap (payload_at 0) 10 = Some bs /\
    Prealloc.write (payload_at 0) 10
      (region16_heap, mkBase (Ptr 1%positive 0) 16 3)
      = Ret Status_Ok (h', mkBase (Ptr 1%positive 0) 16 13) /\
    load h' (Ptr 1%positive 3) 10 = Some bs.
Proof.
  destruct (proj1 prealloc_write_bounds region16_heap
              (mkBase (Ptr 1%positive 0) 16 3) (payload_at 0) 10)
    as (_ & H & _).
  - unfold cursor_ok; simpl; lia.
  - unfold U64.in_range, U64.modulus; simpl; lia.
  - unfold U64.in_range, U64.modulus; lia.
  - reflexivity.
  - reflexivity.
  - reflexivity.
  - apply H. simpl. lia.
Defined.

(** ** The owning buffer: construction *)

(** C1: the preallocating constructor does not build a buffer of
    capacity N.  The member [preallocated_] is already true when the
    body asks ensure_alloced_size for N bytes and the vector is still
    empty, so for every N > 0 the guard of a preallocated buffer fires
    and the constructor throws.  The guard itself is as the claim says:
    on a buffer whose [preallocated_] is set, ensure_alloced_size(n) and
    write(raw, n) throw when they need more than the capacity, and the
    store and the buffer are as before. *)
Theorem preallocated_ceiling :
  (forall (N : Z) (h : heap),
     0 < N ->
     Buf.new_preallocated N h
       = Throw (BufferStatusException Buf.preallocated_msg) h) /\
  (forall (h : heap) (b : Buffer) (n : Z),
     preallocated_ b = true -> Buf.alloced_size b < n ->
     Buf.ensure_alloced_size n (h, b)
       = Throw (BufferStatusException Buf.preallocated_msg) (h, b)) /\
  (forall (h : heap) (b : Buffer) (buffer : ptr) (n : Z),
     owns_data_ b = true -> preallocated_ b = true ->
     Buf.alloced_size b < U64.add (offset_ (base b)) n ->
     Buf.write buffer n (h, b)
       = Throw (BufferStatusException Buf.preallocated_msg) (h, b)).
Proof.
  assert (Hens : forall h b n,
             preallocated_ b = true -> Buf.alloced_size b < n ->
             Buf.ensure_alloced_size n (h, b)
             = Throw (BufferStatusException Buf.preallocated_msg) (h, b)).
  { intros h b n Hp Hn. unfold Buf.ensure_alloced_size. rewrite Hp.
    replace (Buf.alloced_size b <? n) with true
      by (symmetry; apply Z.ltb_lt; exact Hn).
    reflexivity. }
  split; [|split].
  - intros N h HN. unfold Buf.new_preallocated.
    cbn [base size_ Base.of_region]. rewrite Hens; [reflexivity..|exact HN].
  - exact Hens.
  - intros h b buffer n Ho Hp Hn. unfold Buf.write. rewrite Ho. cbn [negb].
    rewrite Hens by assumption. reflexivity.
Qed.

Lemma preallocated_ceiling_witness :
  Buf.new_preallocated 1 sample_heap
    = Throw (BufferStatusException Buf.preallocated_msg) sample_heap.
Proof. apply (proj1 preallocated_ceiling). lia. Defined.

(** C10: the copy of a buffer that does not own its data (its vector is
    empty, as for every buffer built over external memory) has a null
    data pointer and size 0, whatever the data pointer and the size of
    the source are, and has the offset and both flags of the source.
    This holds for the copy constructor and for the one that takes an
    allocator. *)
Theorem copy_of_borrowed (h : heap) (buff : Buffer) :
  owns_data_ buff = false -> Vec.size (vec_ buff) = 0 ->
  Buf.copy h buff
    = Ret (mkBuffer (mkBase nullptr 0 (offset_ (base buff))) Vec.empty
             (owns_data_ buff) (preallocated_ buff)) h /\
  Buf.copy_alloc h buff
    = Ret (mkBuffer (mkBase nullptr 0 (offset_ (base buff))) Vec.empty
             (owns_data_ buff) (preallocated_ buff)) h.
Proof.
  intros Ho Hv. unfold Buf.copy, Buf.copy_alloc, Vec.copy.
  unfold Vec.size in Hv. rewrite Hv, Ho. simpl. split; reflexivity.
Qed.

Lemma copy_of_borrowed_witness :
  Buf.copy sample_heap (with_base (mkBase sample_data 8 3) (Buf.wrap sample_data 8))
    = Ret (mkBuffer (mkBase nullptr 0 3) Vec.empty false false) sample_heap.
Proof.
  apply (copy_of_borrowed sample_heap
           (with_base (mkBase sample_data 8 3) (Buf.wrap sample_data 8)));
    reflexivity.
Defined.

(** ** The owning buffer: growth *)

Lemma grow_more_fuel fuel k c n r :
  Buf.grow fuel c n = Some r -> Buf.grow (fuel + k) c n = Some r.
Proof.
  revert c. induction fuel as [|fuel IH]; intros c; cbn [Buf.grow Nat.add];
    [discriminate|].
  destruct (c <? n); [apply IH|auto].
Qed.

Lemma grow_from_zero fuel n : 0 < n -> Buf.grow fuel 0 n = None.
Proof.
  intros Hn. induction fuel as [|fuel IH]; cbn [Buf.grow]; [reflexivity|].
  replace (0 <? n) with true by (symmetry; apply Z.ltb_lt; exact Hn).
  exact IH.
Qed.

Lemma wrap_double z : U64.mul (U64.wrap z) 2 = U64.wrap (z * 2).
Proof.
  unfold U64.mul, U64.wrap, U64.modulus.
  rewrite Z.mul_mod_idemp_l by discriminate. reflexivity.
Qed.

(** When the loop has not stopped after [k] tests it goes on from the
    value doubled [k] times. *)
Lemma grow_split k fuel c n :
  Buf.grow k (U64.wrap c) n = None ->
  Buf.grow (k + fuel) (U64.wrap c) n
    = Buf.grow fuel (U64.wrap (c * 2 ^ Z.of_nat k)) n.
Proof.
  revert c. induction k as [|k IH]; intros c.
  - intros _. change (2 ^ Z.of_nat 0) with 1. rewrite Z.mul_1_r. reflexivity.
  - cbn [Buf.grow Nat.add]. destruct (U64.wrap c <? n); [|discriminate].
    rewrite wrap_double. intros H. rewrite (IH _ H).
    rewrite Nat2Z.inj_succ, Z.pow_succ_r by lia.
    f_equal. f_equal. ring.
Qed.

(** [Buf.grow_fuel] tests are enough: a loop that has not stopped by then
    never stops, so [Diverges] in [Buf.ensure_alloced_size] is the loop
    of the program running for ever. *)
Lemma grow_never_stops c n :
  U64.in_range c ->
  Buf.grow Buf.grow_fuel c n = None ->
  forall fuel, Buf.grow fuel c n = None.
Proof.
  intros Hc H65 fuel.
  destruct (Buf.grow fuel c n) as [r|] eqn:E; [|reflexivity].
  exfalso.
  assert (H64 : Buf.grow 64 c n = None).
  { destruct (Buf.grow 64 c n) as [r'|] eqn:E'; [|reflexivity].
    apply (grow_more_fuel _ 1) in E'. unfold Buf.grow_fuel in H65.
    change (64 + 1)%nat with 65%nat in E'. congruence. }
  assert (Hn : 0 < n).
  { change 64%nat with (S 63) in H64. cbn [Buf.grow] in H64.
    destruct (c <? n) eqn:L; [|discriminate].
    apply Z.ltb_lt in L. unfold U64.in_range in Hc. lia. }
  apply (grow_more_fuel _ 64) in E.
  rewrite Nat.add_comm in E.
  rewrite <- (wrap_small c Hc) in E, H64.
  rewrite (grow_split 64 fuel c n H64) in E.
  replace (U64.wrap (c * 2 ^ Z.of_nat 64)) with 0 in E.
  - rewrite (grow_from_zero fuel n Hn) in E. discriminate.
  - unfold U64.wrap, U64.modulus. symmetry.
    change (Z.of_nat 64) with 64. apply Z.mod_mul. discriminate.
Qed.

(** Doubling without overflow: the loop stops at the first of
    c, 2c, 4c, ... that reaches n. *)
Lemma grow_doubles (k0 : nat) :
  forall fuel c n,
    0 < c -> n <= c * 2 ^ Z.of_nat k0 -> c * 2 ^ Z.of_nat k0 < U64.modulus ->
    (k0 < fuel)%nat ->
    exists k : nat,
      (k <= k0)%nat /\
      Buf.grow fuel c n = Some (c * 2 ^ Z.of_nat k) /\
      n <= c * 2 ^ Z.of_nat k /\
      forall j : nat, (j < k)%nat -> c * 2 ^ Z.of_nat j < n.
Proof.
  induction k0 as [|k0 IH]; intros fuel c n Hc Hn Hfit Hfuel.
  - destruct fuel as [|fuel]; [lia|]. exists 0%nat.
    change (2 ^ Z.of_nat 0) with 1 in *. cbn [Buf.grow].
    rewrite Z.mul_1_r in *.
    replace (c <? n) with false by (symmetry; apply Z.ltb_ge; lia).
    repeat split; intros; lia.
  - destruct fuel as [|fuel]; [lia|].
    rewrite Nat2Z.inj_succ, Z.pow_succ_r in Hn, Hfit by lia.
    assert (Hp : 0 < 2 ^ Z.of_nat k0) by (apply Z.pow_pos_nonneg; lia).
    cbn [Buf.grow]. destruct (c <? n) eqn:L.
    + apply Z.ltb_lt in L.
      assert (Hw : U64.mul c 2 = c * 2).
      { unfold U64.mul. apply wrap_small. unfold U64.in_range. nia. }
      rewrite Hw.
      destruct (IH fuel (c * 2) n) as (k & Hk & Hg & Hge & Hlt);
        try lia; try nia.
      exists (S k). rewrite Nat2Z.inj_succ, Z.pow_succ_r by lia.
      replace (c * (2 * 2 ^ Z.of_nat k)) with (c * 2 * 2 ^ Z.of_nat k) by ring.
      repeat split; try lia; auto.
      intros [|j] Hj.
      * change (2 ^ Z.of_nat 0) with 1. lia.
      * rewrite Nat2Z.inj_succ, Z.pow_succ_r by lia.
        replace (c * (2 * 2 ^ Z.of_nat j)) with (c * 2 * 2 ^ Z.of_nat j) by ring.
        apply Hlt. lia.
    + apply Z.ltb_ge in L. exists 0%nat.
      change (2 ^ Z.of_nat 0) with 1. rewrite Z.mul_1_r.
      repeat split; intros; lia.
Qed.

Lemma fits_bounds_doublings c (k0 : nat) :
  0 < c -> c * 2 ^ Z.of_nat k0 < U64.modulus -> (k0 < Buf.grow_fuel)%nat.
Proof.
  intros Hc Hfit. unfold Buf.grow_fuel.
  destruct (Nat.lt_ge_cases k0 65) as [|Hge]; [assumption|exfalso].
  assert (2 ^ 64 <= 2 ^ Z.of_nat k0) by (apply Z.pow_le_mono_r; lia).
  unfold U64.modulus in Hfit. nia.
Qed.

Lemma load_at_start h b l n :
  cells h !! b = Some l -> 0 <= n <= Z.of_nat (length l) ->
  load h (Ptr b 0) n = Some (take (Z.to_nat n) l).
Proof.
  intros Hl Hn. unfold load. destruct (n =? 0) eqn:E.
  - apply Z.eqb_eq in E. subst n. reflexivity.
  - rewrite Hl. rewrite Z.add_0_l.
    replace (n <=? Z.of_nat (length l)) with true
      by (symmetry; apply Z.leb_le; lia).
    reflexivity.
Qed.

Lemma zeros_length n : 0 <= n -> Z.of_nat (length (Vec.zeros n)) = n.
Proof. intros Hn. unfold Vec.zeros. rewrite length_replicate. lia. Qed.

(** resize to a larger size keeps the elements and appends zeros. *)
Lemma resize_grows h v n :
  vec_wf h v -> Vec.size v < n -> n <= Vec.max_size ->
  exists old h' v',
    load h (Vec.data v) (Vec.size v) = Some old /\
    Vec.resize n h v = Ret v' h' /\
    Vec.size v' = n /\
    load h' (Vec.data v') n = Some (old ++ Vec.zeros (n - Vec.size v)) /\
    vec_wf h' v'.
Proof.
  unfold vec_wf, Vec.size, Vec.resize, Vec.data.
  intros Hwf Hn Hmax.
  replace (n <=? vsize v) with false by (symmetry; apply Z.leb_gt; exact Hn).
  replace (Vec.max_size <? n) with false by (symmetry; apply Z.ltb_ge; exact Hmax).
  destruct (vstore v) as [b|].
  - destruct Hwf as (l & Hl & Hsz). rewrite Hl.
    set (kept := take (Z.to_nat (vsize v)) l).
    assert (Hk : Z.of_nat (length kept) = vsize v)
      by (unfold kept; rewrite length_take; lia).
    pose proof (zeros_length (n - vsize v) ltac:(lia)) as Hz.
    exists kept.
    destruct (n <=? Z.of_nat (length l)) eqn:E.
    + apply Z.leb_le in E.
      eexists _, _. split; [apply load_at_start; [exact Hl|lia]|].
      split; [reflexivity|]. cbn [vstore vsize]. split; [reflexivity|].
      assert (Hlen : Z.of_nat (length (kept ++ Vec.zeros (n - vsize v) ++
                                       drop (Z.to_nat n) l)) = Z.of_nat (length l)).
      { rewrite !length_app, length_drop. lia. }
      split.
      * erewrite load_at_start;
          [|unfold heap_set; cbn [cells]; apply lookup_insert_eq|lia].
        f_equal. rewrite app_assoc. apply take_app_length'.
        rewrite length_app. lia.
      * eexists. split; [unfold heap_set; cbn [cells]; apply lookup_insert_eq|lia].
    + apply Z.leb_gt in E.
      eexists _, _. split; [apply load_at_start; [exact Hl|lia]|].
      unfold heap_alloc. cbn [next_block cells heap_free].
      split; [reflexivity|]. cbn [vstore vsize]. split; [reflexivity|].
      assert (Hlen : Z.of_nat (length (kept ++ Vec.zeros (n - vsize v))) = n)
        by (rewrite length_app; lia).
      split.
      * erewrite load_at_start; [|cbn [cells]; apply lookup_insert_eq|lia].
        f_equal. apply firstn_all2. lia.
      * eexists. split; [cbn [cells]; apply lookup_insert_eq|lia].
  - exists []. unfold heap_alloc. rewrite Hwf.
    pose proof (zeros_length n ltac:(lia)) as Hz.
    eexists _, _. split; [reflexivity|]. split; [reflexivity|].
    cbn [vstore vsize]. split; [reflexivity|]. rewrite Z.sub_0_r. split.
    + erewrite load_at_start; [|cbn [cells]; apply lookup_insert_eq|lia].
      simpl. f_equal. apply firstn_all2. lia.
    + eexists. split; [cbn [cells]; apply lookup_insert_eq|lia].
Qed.

(** resize beyond max_size() throws and changes nothing. *)
Lemma resize_too_long h v n :
  Vec.size v < n -> Vec.max_size < n -> Vec.resize n h v = Throw length_error h.
Proof.
  unfold Vec.size, Vec.resize. intros Hn Hmax.
  replace (n <=? vsize v) with false by (symmetry; apply Z.leb_gt; exact Hn).
  replace (Vec.max_size <? n) with true by (symmetry; apply Z.ltb_lt; exact Hmax).
  reflexivity.
Qed.

Lemma realloc_too_long h b n :
  owns_data_ b = true -> Buf.alloced_size b < n -> Vec.max_size < n ->
  Buf.realloc n (h, b) = Throw length_error (h, b).
Proof.
  intros Ho Hn Hmax. unfold Buf.realloc. rewrite Ho. cbn [negb].
  replace (Buf.alloced_size b <? n) with true
    by (symmetry; apply Z.ltb_lt; exact Hn).
  rewrite resize_too_long by assumption. reflexivity.
Qed.

(** realloc to a larger size on an owning buffer. *)
Lemma realloc_grows h b n :
  owns_data_ b = true -> vec_wf h (vec_ b) -> Buf.alloced_size b < n ->
  n <= Vec.max_size ->
  exists old h' b',
    load h (Vec.data (vec_ b)) (Buf.alloced_size b) = Some old /\
    Buf.realloc n (h, b) = Ret Status_Ok (h', b') /\
    Buf.alloced_size b' = n /\
    data_ (base b') = Vec.data (vec_ b') /\
    size_ (base b') = size_ (base b) /\
    offset_ (base b') = offset_ (base b) /\
    owns_data_ b' = true /\
    preallocated_ b' = preallocated_ b /\
    load h' (data_ (base b')) n
      = Some (old ++ Vec.zeros (n - Buf.alloced_size b)) /\
    vec_wf h' (vec_ b').
Proof.
  intros Ho Hwf Hn Hmax. unfold Buf.alloced_size in *.
  destruct (resize_grows h (vec_ b) n Hwf Hn Hmax)
    as (old & h' & v' & Hold & Hres & Hsz & Hnew & Hwf').
  exists old, h'. unfold Buf.realloc. rewrite Ho. cbn [negb].
  unfold Buf.alloced_size.
  replace (Vec.size (vec_ b) <? n) with true
    by (symmetry; apply Z.ltb_lt; exact Hn).
  rewrite Hres. eexists. split; [exact Hold|]. split; [reflexivity|].
  cbn. repeat split; auto.
Qed.

(** The value the doubling loop of ensure_alloced_size stops at. *)
Lemma grow_policy c n :
  0 <= c < n ->
  c = 0 \/ (exists k0 : nat, n <= c * 2 ^ Z.of_nat k0 < U64.modulus) ->
  exists k : nat,
    Buf.grow Buf.grow_fuel (if c =? 0 then n else c) n
    = Some (if c =? 0 then n else c * 2 ^ Z.of_nat k) /\
    n <= (if c =? 0 then n else c * 2 ^ Z.of_nat k) /\
    (forall j : nat, (j < k)%nat -> c * 2 ^ Z.of_nat j < n) /\
    (forall k0 : nat, n <= c * 2 ^ Z.of_nat k0 -> (k <= k0)%nat).
Proof.
  intros Hc Hfit. destruct (c =? 0) eqn:E.
  - exists 0%nat. unfold Buf.grow_fuel. cbn [Buf.grow].
    rewrite Z.ltb_irrefl. repeat split; intros; lia.
  - apply Z.eqb_neq in E. destruct Hfit as [|(k0 & Hk0)]; [lia|].
    destruct (grow_doubles k0 Buf.grow_fuel c n)
      as (k & _ & Hg & Hge & Hj); try lia.
    + apply fits_bounds_doublings with (c := c); lia.
    + exists k. split; [exact Hg|]. split; [exact Hge|]. split; [exact Hj|].
      intros k1 Hk1. destruct (Nat.le_gt_cases k k1) as [|Hlt]; [assumption|].
      specialize (Hj k1 Hlt). lia.
Qed.

(** C5, amended: on an owning buffer that is not preallocated,
    ensure_alloced_size(n) with n <= alloced_size() returns Ok and
    changes nothing: capacity, data address and size are as before.  With
    n > alloced_size() the value asked of the vector is n when the old
    capacity was 0, and otherwise the first of c, 2c, 4c, ... that
    reaches n, provided that value fits in 64 bits.  When it is at most
    max_size() = 2^63 - 1 it is the new capacity: the elements up to the
    old capacity are kept, the new bytes are zero, and size, offset and
    flags are as before.  When it is larger the call throws
    std::length_error and store and buffer are as before. *)
Theorem ensure_alloced_size_policy (h : heap) (b : Buffer) (n : Z) :
  owns_data_ b = true -> preallocated_ b = false ->
  U64.in_range n -> vec_wf h (vec_ b) ->
  (n <= Buf.alloced_size b ->
   Buf.ensure_alloced_size n (h, b) = Ret Status_Ok (h, b)) /\
  (Buf.alloced_size b < n ->
   (Buf.alloced_size b = 0 /\ n <= Vec.max_size) \/
   (exists k0 : nat, n <= Buf.alloced_size b * 2 ^ Z.of_nat k0 <= Vec.max_size) ->
   exists (k : nat) old h' b',
     load h (Vec.data (vec_ b)) (Buf.alloced_size b) = Some old /\
     Buf.ensure_alloced_size n (h, b) = Ret Status_Ok (h', b') /\
     Buf.alloced_size b' =
       (if Buf.alloced_size b =? 0 then n
        else Buf.alloced_size b * 2 ^ Z.of_nat k) /\
     n <= Buf.alloced_size b' /\
     (forall j : nat, (j < k)%nat -> Buf.alloced_size b * 2 ^ Z.of_nat j < n) /\
     data_ (base b') = Vec.data (vec_ b') /\
     size_ (base b') = size_ (base b) /\
     offset_ (base b') = offset_ (base b) /\
     owns_data_ b' = true /\ preallocated_ b' = false /\
     load h' (data_ (base b')) (Buf.alloced_size b')
       = Some (old ++ Vec.zeros (Buf.alloced_size b' - Buf.alloced_size b))) /\
  (Buf.alloced_size b < n ->
   (Buf.alloced_size b = 0 /\ Vec.max_size < n) \/
   (exists k : nat,
      n <= Buf.alloced_size b * 2 ^ Z.of_nat k < U64.modulus /\
      Vec.max_size < Buf.alloced_size b * 2 ^ Z.of_nat k /\
      forall j : nat, (j < k)%nat -> Buf.alloced_size b * 2 ^ Z.of_nat j < n) ->
   Buf.ensure_alloced_size n (h, b) = Throw length_error (h, b)).
Proof.
  intros Ho Hp Hn Hwf. unfold Buf.ensure_alloced_size. rewrite Hp.
  cbn [andb orb].
  assert (Hc0 : 0 <= Buf.alloced_size b).
  { unfold Buf.alloced_size, Vec.size. unfold vec_wf in Hwf.
    destruct (vstore (vec_ b)); [destruct Hwf as (l & _ & ?)|]; lia. }
  split; [|split].
  - intros Hle.
    replace (n <=? Buf.alloced_size b) with true
      by (symmetry; apply Z.leb_le; exact Hle).
    reflexivity.
  - intros Hlt Hfit.
    replace (n <=? Buf.alloced_size b) with false
      by (symmetry; apply Z.leb_gt; exact Hlt).
    assert (Hfit' : Buf.alloced_size b = 0 \/
                    exists k0 : nat,
                      n <= Buf.alloced_size b * 2 ^ Z.of_nat k0 < U64.modulus).
    { destruct Hfit as [[? _]|(k0 & Hk0)]; [left; assumption|right].
      exists k0. unfold Vec.max_size, U64.modulus in *. lia. }
    destruct (grow_policy (Buf.alloced_size b) n ltac:(lia) Hfit')
      as (k & Hg & Hge & Hj & Hmin).
    rewrite Hg.
    set (new := if Buf.alloced_size b =? 0 then n
                else Buf.alloced_size b * 2 ^ Z.of_nat k) in *.
    assert (Hmax : new <= Vec.max_size).
    { unfold new. destruct (Buf.alloced_size b =? 0) eqn:E.
      - apply Z.eqb_eq in E. destruct Hfit as [[_ ?]|(k0 & Hk0)]; [assumption|].
        rewrite E in Hk0. lia.
      - apply Z.eqb_neq in E. destruct Hfit as [[? _]|(k0 & Hk0)]; [lia|].
        specialize (Hmin k0 ltac:(lia)).
        assert (2 ^ Z.of_nat k <= 2 ^ Z.of_nat k0)
          by (apply Z.pow_le_mono_r; lia).
        nia. }
    destruct (realloc_grows h b new Ho Hwf ltac:(lia) Hmax)
      as (old & h' & b' & Hold & Hre & Hsz & Hd & Hs & Hof & Hown & Hpre & Hl & _).
    exists k, old, h', b'. rewrite Hsz.
    repeat split; auto; congruence.
  - intros Hlt Hlong.
    replace (n <=? Buf.alloced_size b) with false
      by (symmetry; apply Z.leb_gt; exact Hlt).
    assert (Hfit' : Buf.alloced_size b = 0 \/
                    exists k0 : nat,
                      n <= Buf.alloced_size b * 2 ^ Z.of_nat k0 < U64.modulus).
    { destruct Hlong as [[? _]|(k0 & Hk0 & _)]; [left; assumption|right].
      exists k0. exact Hk0. }
    destruct (grow_policy (Buf.alloced_size b) n ltac:(lia) Hfit')
      as (k & Hg & Hge & Hj & Hmin).
    rewrite Hg.
    set (new := if Buf.alloced_size b =? 0 then n
                else Buf.alloced_size b * 2 ^ Z.of_nat k) in *.
    apply realloc_too_long; [exact Ho|lia|].
    unfold new. destruct (Buf.alloced_size b =? 0) eqn:E.
    + apply Z.eqb_eq in E. destruct Hlong as [[_ ?]|(k0 & Hk0 & Hb & _)];
        [assumption|]. rewrite E in Hk0. unfold Vec.max_size in *. lia.
    + apply Z.eqb_neq in E. destruct Hlong as [[? _]|(k0 & Hk0 & Hb & Hfirst)]; [lia|].
      assert (k = k0).
      { specialize (Hmin k0 ltac:(lia)).
        destruct (Nat.eq_dec k k0) as [|Hne]; [assumption|].
        specialize (Hfirst k ltac:(lia)). lia. }
      subst k0. exact Hb.
Qed.

Lemma ensure_alloced_size_policy_witness :
  (exists (k : nat) h' b',
     Buf.ensure_alloced_size 5 (sample_heap, one_byte_buffer)
       = Ret Status_Ok (h', b') /\
     Buf.alloced_size b' = 1 * 2 ^ Z.of_nat k /\
     load h' (data_ (base b')) (Buf.alloced_size b')
       = Some ([Byte.x00] ++ Vec.zeros (Buf.alloced_size b' - 1))) /\
  Buf.ensure_alloced_size (2 ^ 63) (sample_heap, one_byte_buffer)
    = Throw length_error (sample_heap, one_byte_buffer).
Proof.
  assert (Hwf : vec_wf sample_heap (vec_ one_byte_buffer)).
  { unfold vec_wf. simpl. eexists. split; [reflexivity|]. simpl. lia. }
  split.
  - destruct (ensure_alloced_size_policy sample_heap one_byte_buffer 5)
      as (_ & H & _); try reflexivity.
    + unfold U64.in_range, U64.modulus. lia.
    + exact Hwf.
    + destruct H as (k & old & h' & b' & Hold & Hr & Hsz & _ & _ & _ & _ & _ & _ & _ & Hl).
      * reflexivity.
      * right. exists 3%nat. unfold Vec.max_size.
        change (Buf.alloced_size one_byte_buffer) with 1.
        change (Z.of_nat 3) with 3. lia.
      * exists k, h', b'. split; [exact Hr|]. split; [exact Hsz|].
        rewrite Hl.
        change (Buf.alloced_size one_byte_buffer) with 1 in *.
        assert (Hb : Some [Byte.x00] = Some old) by exact Hold.
        injection Hb as <-. reflexivity.
  - destruct (ensure_alloced_size_policy sample_heap one_byte_buffer (2 ^ 63)
                eq_refl eq_refl) as (_ & _ & H).
    + unfold U64.in_range, U64.modulus. lia.
    + exact Hwf.
    + apply H.
      * change (Buf.alloced_size one_byte_buffer) with 1. lia.
      * right. exists 63%nat.
        change (Buf.alloced_size one_byte_buffer) with 1.
        change (Z.of_nat 63) with 63. unfold U64.modulus, Vec.max_size.
        split; [lia|]. split; [lia|].
        intros j Hj. rewrite !Z.mul_1_l. apply Z.pow_lt_mono_r; lia.
Defined.

(** C5 as stated fails at a buffer of capacity 1 asked for 2^63 + 1
    bytes.  One byte written into a new buffer gives a buffer that owns
    its data, is not preallocated and has capacity 1; n exceeds that
    capacity, but the doubling passes 2^63, wraps to 0 and stays there,
    so ensure_alloced_size never returns, and neither does the write of
    one byte at offset 2^63 that asks for it. *)
Lemma ensure_alloced_size_never_returns :
  exists h1 b1,
    Buf.write sample_data 1 (sample_heap, Buf.new) = Ret Status_Ok (h1, b1) /\
    owns_data_ b1 = true /\ preallocated_ b1 = false /\
    Buf.alloced_size b1 = 1 /\
    U64.in_range (2 ^ 63 + 1) /\
    Buf.ensure_alloced_size (2 ^ 63 + 1) (h1, b1) = Diverges /\
    Buf.write_at sample_data (2 ^ 63) 1 (h1, b1) = Diverges /\
    forall fuel, Buf.grow fuel (Buf.alloced_size b1) (2 ^ 63 + 1) = None.
Proof.
  assert (H : Buf.grow Buf.grow_fuel 1 (2 ^ 63 + 1) = None)
    by (vm_compute; reflexivity).
  do 2 eexists. split; [reflexivity|].
  split; [reflexivity|]. split; [reflexivity|]. split; [reflexivity|].
  split; [unfold U64.in_range, U64.modulus; lia|].
  split; [vm_compute; reflexivity|]. split; [vm_compute; reflexivity|].
  apply grow_never_stops; [|exact H].
  unfold U64.in_range.
  split; [vm_compute; discriminate|vm_compute; reflexivity].
Qed.

(** ** The owning buffer: writing from a view *)

(** C6: on a buffer that owns its data, with its cursor inside its
    capacity, write(&S) copies m = min(alloced_size - offset, bytes left
    to read in S) bytes from the cursor of S to the cursor of the buffer
    and advances both cursors by m; the vector, and so the capacity and
    the data address, are untouched.  On a buffer that does not own its
    data the call returns the buffer error and nothing changes. *)
Theorem write_const_fills_capacity (h : heap) (B : Buffer) (S : BufferBase) :
  (owns_data_ B = false ->
   Buf.write_const (h, B, S)
     = Ret (Status_BufferError Buf.not_owner_write_msg) (h, B, S)) /\
  (owns_data_ B = true ->
   0 <= offset_ (base B) <= Buf.alloced_size B ->
   U64.in_range (Buf.alloced_size B) ->
   cursor_ok S -> U64.in_range (size_ S) ->
   forall m,
     m = Z.min (Buf.alloced_size B - offset_ (base B))
               (Const.nbytes_left_to_read S) ->
     valid h (ptr_add (data_ (base B)) (offset_ (base B))) m = true ->
     valid h (ptr_add (data_ S) (offset_ S)) m = true ->
     overlap (ptr_add (data_ (base B)) (offset_ (base B)))
             (ptr_add (data_ S) (offset_ S)) m = false ->
     exists bs h' B',
       load h (ptr_add (data_ S) (offset_ S)) m = Some bs /\
       Buf.write_const (h, B, S)
         = Ret Status_Ok (h', B', with_offset (offset_ S + m) S) /\
       load h' (ptr_add (data_ (base B)) (offset_ (base B))) m = Some bs /\
       offset_ (base B') = offset_ (base B) + m /\
       size_ (base B') = Z.max (offset_ (base B) + m) (size_ (base B)) /\
       data_ (base B') = data_ (base B) /\
       vec_ B' = vec_ B /\
       Buf.alloced_size B' = Buf.alloced_size B /\
       owns_data_ B' = true /\ preallocated_ B' = preallocated_ B).
Proof.
  split.
  - intros Ho. unfold Buf.write_const. rewrite Ho. reflexivity.
  - intros Ho HB HBr HS HSr m Hm Hdst Hsrc Hov.
    unfold cursor_ok in HS. unfold Const.nbytes_left_to_read in Hm.
    rewrite (sub_no_borrow _ _ HS HSr) in Hm.
    assert (Hm0 : 0 <= m) by lia.
    destruct (memcpy_spec h _ _ m Hm0 Hsrc Hdst Hov)
      as (bs & h' & Hl & Hcp & Hl').
    exists bs, h'. unfold Buf.write_const. rewrite Ho. cbn [negb].
    unfold Const.nbytes_left_to_read.
    rewrite (sub_no_borrow _ _ HB HBr), (sub_no_borrow _ _ HS HSr), <- Hm.
    unfold Base.read. rewrite (sub_no_borrow _ _ HS HSr).
    replace (size_ S - offset_ S <? m) with false
      by (symmetry; apply Z.ltb_ge; lia).
    rewrite Hcp. cbn [Buf.within RETURN_NOT_OK ok].
    assert (HaS : U64.add (offset_ S) m = offset_ S + m).
    { apply add_no_carry; try lia. unfold U64.in_range in *. lia. }
    assert (HaB : U64.add (offset_ (base B)) m = offset_ (base B) + m).
    { apply add_no_carry; try lia. unfold U64.in_range in *. lia. }
    rewrite HaS. eexists. split; [exact Hl|]. split; [reflexivity|].
    unfold Buf.after_write. rewrite HaB. cbn.
    repeat split; auto.
Qed.

Lemma write_const_fills_capacity_witness :
  exists bs h' B',
    load region16_heap (payload_at 4) 6 = Some bs /\
    Buf.write_const
      (region16_heap,
       mkBuffer (mkBase (Ptr 1%positive 0) 12 10) (mkVec (Some 1%positive) 16)
         true false,
       mkBase (payload_at 0) 16 4)
      = Ret Status_Ok (h', B', mkBase (payload_at 0) 16 10) /\
    load h' (Ptr 1%positive 10) 6 = Some bs /\
    offset_ (base B') = 16 /\ size_ (base B') = 16 /\
    Buf.alloced_size B' = 16.
Proof.
  destruct (proj2 (write_const_fills_capacity region16_heap
              (mkBuffer (mkBase (Ptr 1%positive 0) 12 10)
                 (mkVec (Some 1%positive) 16) true false)
              (mkBase (payload_at 0) 16 4)) eq_refl) with (m := 6)
    as (bs & h' & B' & H1 & H2 & H3 & H4 & H5 & _ & _ & H6 & _).
  - bounds.
  - bounds.
  - bounds.
  - bounds.
  - reflexivity.
  - reflexivity.
  - reflexivity.
  - reflexivity.
  - exists bs, h', B'. repeat split; assumption.
Defined.

(** ** The owning buffer: moving *)

(** C7, amended: the move constructor gives the new buffer every member
    of the source (data pointer, size, offset, vector with its storage,
    both flags), so it holds the bytes the source held, and leaves the
    source with a null data pointer, size 0, offset 0 and an empty
    vector.  Move assignment between two distinct buffers is a swap: the
    destination gets every member of the source and the source gets
    every member the destination had. *)
Theorem move_transfers (h : heap) (this buff : Buffer) :
  fst (Buf.move buff) = buff /\
  contents h (base (fst (Buf.move buff))) = contents h (base buff) /\
  base (snd (Buf.move buff)) = mkBase nullptr 0 0 /\
  vec_ (snd (Buf.move buff)) = Vec.empty /\
  owns_data_ (snd (Buf.move buff)) = owns_data_ buff /\
  preallocated_ (snd (Buf.move buff)) = preallocated_ buff /\
  Buf.move_assign this buff = (buff, this).
Proof.
  destruct buff as [[d s o] v ow pre], this as [[d' s' o'] v' ow' pre'].
  repeat split.
Qed.

(** C7 as stated fails for move assignment into a buffer that is not
    empty: the source of the assignment ends with the size, the data
    pointer and the offset the destination had. *)
Lemma move_assign_source_not_empty :
  Base.size (base (snd (Buf.move_assign one_byte_buffer eight_byte_buffer))) = 1 /\
  Buf.data (snd (Buf.move_assign one_byte_buffer eight_byte_buffer)) = sample_dst /\
  Base.offset (base (snd (Buf.move_assign one_byte_buffer eight_byte_buffer))) = 1 /\
  World.exec (c_move_assign 0 1)
    (World sample_heap
       (<[1%nat := ABuffer eight_byte_buffer]>
          (<[0%nat := ABuffer one_byte_buffer]> ∅)))
  = Ret None
      (World sample_heap
         (<[1%nat := ABuffer one_byte_buffer]>
            (<[0%nat := ABuffer eight_byte_buffer]> ∅))).
Proof.
  repeat split.
Qed.

(** ** The cursor invariant over the public interface *)

Lemma comes_back_returning {S A B : Type} (g : A -> B) (r : result S A) s :
  comes_back (World.returning g r) s -> comes_back r s.
Proof.
  unfold comes_back. destruct r; simpl; intros [[x H]|[x H]];
    try discriminate; injection H as ? ?; subst; eauto.
Qed.

Lemma comes_back_within {S T A : Type} (f : S -> T) (r : result S A) t :
  comes_back (Buf.within f r) t -> exists s, comes_back r s /\ t = f s.
Proof.
  unfold comes_back. destruct r; simpl; intros [[x H]|[x H]];
    try discriminate; injection H as ? ?; subst; eauto.
Qed.

Lemma comes_back_not_ok {S : Type} (r : result S Status) k s :
  comes_back (RETURN_NOT_OK r k) s ->
  comes_back r s \/ exists s0, r = Ret Status_Ok s0 /\ comes_back (k s0) s.
Proof.
  unfold comes_back. destruct r as [st s0|e s0| |]; simpl.
  - destruct st; simpl; eauto;
      intros [[x H]|[x H]]; try discriminate; injection H as ? ?; subst; eauto.
  - intros [[x H]|[x H]]; try discriminate. injection H as ? ?; subst. eauto.
  - intros [[x H]|[x H]]; discriminate.
  - intros [[x H]|[x H]]; discriminate.
Qed.

Lemma comes_back_ret {S A : Type} (a : A) (s s' : S) :
  comes_back (Ret a s) s' -> s' = s.
Proof. intros [[x H]|[x H]]; [injection H; auto|discriminate]. Qed.

Lemma comes_back_throw {S A : Type} e (s s' : S) :
  comes_back (@Throw S A e s) s' -> s' = s.
Proof. intros [[x H]|[x H]]; [discriminate|injection H; auto]. Qed.

Lemma world_ok_put w h l o :
  world_ok w -> cursor_good (cursor o) ->
  world_ok (World h (<[l := o]> (objs w))).
Proof.
  intros Hw Ho l' o'. cbn [objs]. rewrite lookup_insert.
  destruct (decide (l = l')); [intros [= <-]; exact Ho|apply Hw].
Qed.

Lemma world_ok_get_buffer w l b :
  world_ok w -> World.get_buffer l w = Some b -> cursor_good (base b).
Proof.
  unfold World.get_buffer. intros Hw.
  destruct (objs w !! l) as [[b'| |]|] eqn:E; try discriminate.
  intros [= <-]. exact (Hw _ _ E).
Qed.

Lemma world_ok_get_const w l b :
  world_ok w -> World.get_const l w = Some b -> cursor_good b.
Proof.
  unfold World.get_const. intros Hw.
  destruct (objs w !! l) as [[|b'|]|] eqn:E; try discriminate.
  intros [= <-]. exact (Hw _ _ E).
Qed.

Lemma world_ok_get_prealloc w l b :
  world_ok w -> World.get_prealloc l w = Some b -> cursor_good b.
Proof.
  unfold World.get_prealloc. intros Hw.
  destruct (objs w !! l) as [[| |b']|] eqn:E; try discriminate.
  intros [= <-]. exact (Hw _ _ E).
Qed.

Lemma cursor_set_cursor bb o : cursor (set_cursor bb o) = bb.
Proof. destruct o; reflexivity. Qed.

Lemma on_cursor_ok {A : Type} this w
    (f : heap * BufferBase -> result (heap * BufferBase) A) w' :
  world_ok w ->
  (forall b h' b', cursor_good b -> comes_back (f (mem w, b)) (h', b') ->
                   cursor_good b') ->
  comes_back (World.on_cursor this w f) w' -> world_ok w'.
Proof.
  intros Hw Hf. unfold World.on_cursor.
  destruct (objs w !! this) as [o|] eqn:E.
  - intros H. apply comes_back_within in H as ([h' b'] & H & ->).
    apply world_ok_put; [exact Hw|]. rewrite cursor_set_cursor.
    eapply Hf; [|exact H]. exact (Hw _ _ E).
  - intros [[x H]|[x H]]; discriminate.
Qed.

Lemma on_buffer_ok {A : Type} this w
    (f : heap * Buffer -> result (heap * Buffer) A) w' :
  world_ok w ->
  (forall b h' b', World.get_buffer this w = Some b ->
                   cursor_good (base b) ->
                   comes_back (f (mem w, b)) (h', b') ->
                   cursor_good (base b')) ->
  comes_back (World.on_buffer this w f) w' -> world_ok w'.
Proof.
  intros Hw Hf. unfold World.on_buffer.
  destruct (World.get_buffer this w) as [b|] eqn:E.
  - intros H. apply comes_back_within in H as ([h' b'] & H & ->).
    apply world_ok_put; [exact Hw|]. cbn [cursor].
    eapply Hf; [reflexivity| |exact H]. eapply world_ok_get_buffer; eauto.
  - intros [[x H]|[x H]]; discriminate.
Qed.

Lemma construct_ok this w r w' :
  world_ok w ->
  (forall o h', r = Ret o h' -> cursor_good (cursor o)) ->
  comes_back (World.construct this w r) w' -> world_ok w'.
Proof.
  intros Hw Hr. unfold World.construct.
  destruct (objs w !! this); [intros [[x H]|[x H]]; discriminate|].
  destruct r as [o h|e h| |].
  - intros H. apply comes_back_ret in H as ->.
    apply world_ok_put; eauto.
  - intros H. apply comes_back_throw in H as ->. exact Hw.
  - intros [[x H]|[x H]]; discriminate.
  - intros [[x H]|[x H]]; discriminate.
Qed.

Lemma good_unchanged_counters b b' :
  size_ b' = size_ b -> offset_ b' = offset_ b ->
  cursor_good b -> cursor_good b'.
Proof.
  unfold cursor_good, cursor_ok, cursor_typed. intros -> ->. auto.
Qed.

Lemma good_zero p : cursor_good (mkBase p 0 0).
Proof.
  unfold cursor_good, cursor_ok, cursor_typed, U64.in_range, U64.modulus.
  cbn. lia.
Qed.

Lemma good_of_region p size : U64.in_range size -> cursor_good (mkBase p size 0).
Proof.
  unfold cursor_good, cursor_ok, cursor_typed, U64.in_range, U64.modulus.
  cbn. lia.
Qed.

Lemma good_advance b n :
  cursor_good b -> U64.in_range n -> n <= size_ b - offset_ b ->
  cursor_good (with_offset (U64.add (offset_ b) n) b).
Proof.
  unfold cursor_good, cursor_ok, cursor_typed, U64.in_range.
  intros [Hc [Hs Ho]] Hn Hle. cbn.
  rewrite add_no_carry by lia. lia.
Qed.

Lemma good_read h b dst n h' b' :
  cursor_good b -> U64.in_range n ->
  comes_back (Base.read dst n (h, b)) (h', b') -> cursor_good b'.
Proof.
  intros Hg Hn. unfold Base.read.
  assert (Hsub : U64.sub (size_ b) (offset_ b) = size_ b - offset_ b)
    by (apply sub_no_borrow; apply Hg).
  rewrite Hsub. destruct (size_ b - offset_ b <? n) eqn:E.
  - intros H. apply comes_back_ret in H. injection H as _ ->. exact Hg.
  - apply Z.ltb_ge in E. destruct (memcpy _ _ _ _).
    + intros H. apply comes_back_ret in H. injection H as _ ->.
      apply good_advance; auto.
    + intros [[x H]|[x H]]; discriminate.
Qed.

Lemma good_read_at h b dst o n h' b' :
  cursor_good b ->
  comes_back (Base.read_at dst o n (h, b)) (h', b') -> cursor_good b'.
Proof.
  intros Hg. unfold Base.read_at.
  destruct (U64.sub (size_ b) o <? n).
  - intros H. apply comes_back_ret in H. injection H as _ ->. exact Hg.
  - destruct (memcpy _ _ _ _).
    + intros H. apply comes_back_ret in H. injection H as _ ->. exact Hg.
    + intros [[x H]|[x H]]; discriminate.
Qed.

Lemma good_prealloc_write h b buffer n h' b' :
  cursor_good b -> U64.in_range n ->
  comes_back (Prealloc.write buffer n (h, b)) (h', b') -> cursor_good b'.
Proof.
  intros Hg Hn. unfold Prealloc.write.
  assert (Hsub : U64.sub (size_ b) (offset_ b) = size_ b - offset_ b)
    by (apply sub_no_borrow; apply Hg).
  rewrite Hsub. destruct (size_ b - offset_ b <? n) eqn:E.
  - intros H. apply comes_back_ret in H. injection H as _ ->. exact Hg.
  - apply Z.ltb_ge in E. destruct (memcpy _ _ _ _).
    + intros H. apply comes_back_ret in H. injection H as _ ->.
      apply good_advance; auto.
    + intros [[x H]|[x H]]; discriminate.
Qed.

Lemma good_set_offset b o b' :
  cursor_good b -> U64.in_range o ->
  comes_back (Base.set_offset o b) b' -> cursor_good b'.
Proof.
  intros Hg Ho. unfold Base.set_offset, Base.assert_offset_is_valid.
  destruct (size_ b <? o) eqn:E.
  - intros H. apply comes_back_throw in H as ->. exact Hg.
  - apply Z.ltb_ge in E. intros H. apply comes_back_ret in H as ->.
    revert Hg. unfold cursor_good, cursor_ok, cursor_typed, U64.in_range in *.
    cbn. lia.
Qed.

Lemma good_advance_offset b n :
  cursor_good b -> U64.in_range n -> cursor_good (Base.advance_offset n b).
Proof.
  intros [Hc [Hs Ho]] Hn. rewrite (advance_offset_min b n Hc Hs Hn).
  unfold cursor_good, cursor_ok, cursor_typed, U64.in_range in *.
  cbn. lia.
Qed.

Lemma good_after_write n b :
  cursor_good (base b) -> cursor_good (base (Buf.after_write n b)).
Proof.
  unfold cursor_good, cursor_ok, cursor_typed, Buf.after_write. cbn.
  intros [Hc [Hs Ho]].
  pose proof (wrap_in_range (offset_ (base b) + n)) as Hw.
  unfold U64.add, U64.in_range in *. lia.
Qed.

Lemma good_realloc n h b h' b' :
  cursor_good (base b) ->
  comes_back (Buf.realloc n (h, b)) (h', b') -> cursor_good (base b').
Proof.
  intros Hg. unfold Buf.realloc.
  destruct (negb (owns_data_ b)).
  - intros H. apply comes_back_ret in H. injection H as _ ->. exact Hg.
  - destruct (Buf.alloced_size b <? n).
    + destruct (Vec.resize n h (vec_ b)) as [v1 h1|e h1| |].
      * intros H. apply comes_back_ret in H. injection H as _ ->. exact Hg.
      * intros H. apply comes_back_throw in H. injection H as _ ->. exact Hg.
      * intros [[x H]|[x H]]; discriminate.
      * intros [[x H]|[x H]]; discriminate.
    + intros H. apply comes_back_ret in H. injection H as _ ->. exact Hg.
Qed.

Lemma good_ensure_alloced_size n h b h' b' :
  cursor_good (base b) ->
  comes_back (Buf.ensure_alloced_size n (h, b)) (h', b') ->
  cursor_good (base b').
Proof.
  intros Hg. unfold Buf.ensure_alloced_size.
  destruct (preallocated_ b && (Buf.alloced_size b <? n)).
  - intros H. apply comes_back_throw in H. injection H as _ ->. exact Hg.
  - destruct (preallocated_ b || (n <=? Buf.alloced_size b)).
    + intros H. apply comes_back_ret in H. injection H as _ ->. exact Hg.
    + destruct (Buf.grow _ _ _).
      * apply good_realloc. exact Hg.
      * intros [[x H]|[x H]]; discriminate.
Qed.

Lemma good_write buffer n h b h' b' :
  cursor_good (base b) ->
  comes_back (Buf.write buffer n (h, b)) (h', b') -> cursor_good (base b').
Proof.
  intros Hg. unfold Buf.write. destruct (negb (owns_data_ b)).
  - intros H. apply comes_back_ret in H. injection H as _ ->. exact Hg.
  - intros H. apply comes_back_not_ok in H as [H|([h1 b1] & Hr & H)].
    + eapply good_ensure_alloced_size; eauto.
    + assert (Hg1 : cursor_good (base b1)).
      { eapply good_ensure_alloced_size; [exact Hg|]. left. eauto. }
      destruct (memcpy _ _ _ _).
      * apply comes_back_ret in H. injection H as _ ->.
        apply good_after_write. exact Hg1.
      * destruct H as [[x H]|[x H]]; discriminate.
Qed.

Lemma good_write_at buffer o n h b h' b' :
  cursor_good (base b) ->
  comes_back (Buf.write_at buffer o n (h, b)) (h', b') -> cursor_good (base b').
Proof.
  intros Hg. unfold Buf.write_at. destruct (negb (owns_data_ b)).
  - intros H. apply comes_back_ret in H. injection H as _ ->. exact Hg.
  - intros H. apply comes_back_not_ok in H as [H|([h1 b1] & Hr & H)].
    + eapply good_ensure_alloced_size; eauto.
    + assert (Hg1 : cursor_good (base b1)).
      { eapply good_ensure_alloced_size; [exact Hg|]. left. eauto. }
      destruct (memcpy _ _ _ _).
      * apply comes_back_ret in H. injection H as _ ->.
        revert Hg1. unfold cursor_good, cursor_ok, cursor_typed. cbn.
        pose proof (wrap_in_range (o + n)) as Hw.
        unfold U64.add, U64.in_range in *. lia.
      * destruct H as [[x H]|[x H]]; discriminate.
Qed.

Lemma within_ret {S T A : Type} (f : S -> T) (r : result S A) a t :
  Buf.within f r = Ret a t -> exists s, r = Ret a s /\ t = f s.
Proof. destruct r; simpl; intros H; try discriminate. injection H as <- <-. eauto. Qed.

Lemma min_left_in_range a b :
  U64.in_range (Z.min (U64.wrap a) (U64.wrap b)).
Proof.
  pose proof (wrap_in_range a). pose proof (wrap_in_range b).
  unfold U64.in_range in *. lia.
Qed.

Lemma good_write_const h B S h' B' S' :
  cursor_good (base B) -> cursor_good S ->
  comes_back (Buf.write_const (h, B, S)) (h', B', S') ->
  cursor_good (base B') /\ cursor_good S'.
Proof.
  intros HB HS. unfold Buf.write_const. destruct (negb (owns_data_ B)).
  - intros H. apply comes_back_ret in H. injection H as _ -> ->. auto.
  - set (m := Z.min _ _).
    assert (Hm : U64.in_range m) by apply min_left_in_range.
    intros H. apply comes_back_not_ok in H as [H|(s0 & Hr & H)].
    + apply comes_back_within in H as ([h1 S1] & H & E).
      injection E as _ -> ->. split; [exact HB|].
      eapply good_read; [exact HS|exact Hm|exact H].
    + apply within_ret in Hr as ([h1 S1] & Hr & ->).
      apply comes_back_ret in H. injection H as _ -> ->. split.
      * apply good_after_write. exact HB.
      * eapply good_read; [exact HS|exact Hm|]. left. eauto.
Qed.

Lemma good_write_const_n n h B S h' B' S' :
  cursor_good (base B) -> cursor_good S -> U64.in_range n ->
  comes_back (Buf.write_const_n n (h, B, S)) (h', B', S') ->
  cursor_good (base B') /\ cursor_good S'.
Proof.
  intros HB HS Hn. unfold Buf.write_const_n. destruct (negb (owns_data_ B)).
  - intros H. apply comes_back_ret in H. injection H as _ -> ->. auto.
  - intros H. apply comes_back_not_ok in H as [H|(s0 & Hr & H)].
    + apply comes_back_within in H as ([h1 B1] & H & E).
      injection E as _ -> ->. split; [|exact HS].
      eapply good_ensure_alloced_size; eauto.
    + apply within_ret in Hr as ([h1 B1] & Hr & ->).
      assert (HB1 : cursor_good (base B1)).
      { eapply good_ensure_alloced_size; [exact HB|]. left. eauto. }
      apply comes_back_not_ok in H as [H|(s1 & Hr' & H)].
      * apply comes_back_within in H as ([h2 S2] & H & E).
        injection E as _ -> ->. split; [exact HB1|].
        eapply good_read; [exact HS|exact Hn|exact H].
      * apply within_ret in Hr' as ([h2 S2] & Hr' & ->).
        apply comes_back_ret in H. injection H as _ -> ->. split.
        -- apply good_after_write. exact HB1.
        -- eapply good_read; [exact HS|exact Hn|]. left. eauto.
Qed.

Lemma good_copy h buff this h' :
  cursor_good (base buff) ->
  owns_data_ buff = true -> is_null (data_ (base buff)) = false ->
  Buf.copy h buff = Ret this h' -> cursor_good (base this).
Proof.
  intros Hg Ho Hd. unfold Buf.copy. rewrite Ho, Hd.
  destruct (Vec.copy h (vec_ buff)) as [[h1 v]|]; [|discriminate].
  cbn. intros [= <- _]. exact Hg.
Qed.

Lemma copy_alloc_is_copy h buff : Buf.copy_alloc h buff = Buf.copy h buff.
Proof. reflexivity. Qed.

Lemma copy_never_throws h buff e h' : Buf.copy h buff <> Throw e h'.
Proof.
  unfold Buf.copy. destruct (Vec.copy h (vec_ buff)) as [[h1 v]|]; [|discriminate].
  destruct (owns_data_ buff && negb (is_null (data_ (base buff)))); discriminate.
Qed.

Lemma good_copy_assign buff h this h' this' :
  cursor_good (base buff) ->
  owns_data_ buff = true -> is_null (data_ (base buff)) = false ->
  comes_back (Buf.copy_assign buff (h, this)) (h', this') ->
  cursor_good (base this').
Proof.
  intros Hg Ho Hd. unfold Buf.copy_assign.
  destruct (Buf.copy h buff) as [tmp h1|e h1| |] eqn:E.
  - pose proof (good_copy _ _ _ _ Hg Ho Hd E) as Ht.
    cbn. intros H. apply comes_back_ret in H. injection H as _ ->.
    revert Ht. apply good_unchanged_counters; reflexivity.
  - exfalso. exact (copy_never_throws _ _ _ _ E).
  - intros [[x H]|[x H]]; discriminate.
  - intros [[x H]|[x H]]; discriminate.
Qed.

Lemma good_move buff :
  cursor_good (base buff) ->
  cursor_good (base (fst (Buf.move buff))) /\
  cursor_good (base (snd (Buf.move buff))).
Proof.
  intros Hg. split.
  - revert Hg. apply good_unchanged_counters; reflexivity.
  - apply good_zero.
Qed.

Lemma new_preallocated_base size h b h' :
  Buf.new_preallocated size h = Ret b h' -> base b = mkBase nullptr 0 0.
Proof.
  unfold Buf.new_preallocated, Buf.ensure_alloced_size.
  cbn [base size_ Base.of_region preallocated_ andb orb].
  destruct (Buf.alloced_size _ <? size); cbn; [discriminate|].
  intros [= <- _]. reflexivity.
Qed.

Lemma world_ok_put' w l o :
  world_ok w -> cursor_good (cursor o) -> world_ok (World.put l o w).
Proof. intros Hw Ho. unfold World.put. apply world_ok_put; assumption. Qed.

Lemma world_ok_mem w h : world_ok w -> world_ok (World h (objs w)).
Proof. intros Hw l o. apply Hw. Qed.

Ltac no_result := intros [[? ?H]|[? ?H]]; discriminate.

(** C2, amended: the invariant 0 <= offset <= size, on every buffer of
    every kind, is kept by every call of the public interface that comes
    back (with a value or with an exception), except that set_size must
    not set the size below the offset, advance_size must not wrap
    around, and a copy (constructor or assignment) is covered for a
    source that owns non-null data. *)
Theorem cursor_invariant_kept (c : call) (w w' : world) :
  call_typed c -> world_ok w -> keeps_cursor c w ->
  comes_back (World.exec c w) w' -> world_ok w'.
Proof.
  intros Ht Hw Hk.
  destruct c; cbn [World.exec call_typed keeps_cursor] in *.
  - (* reset_offset *)
    apply on_cursor_ok; [exact Hw|]. intros b h' b' Hg H.
    apply comes_back_ret in H. injection H as _ ->.
    revert Hg. unfold cursor_good, cursor_ok, cursor_typed, U64.in_range.
    cbn. lia.
  - (* set_offset *)
    apply on_cursor_ok; [exact Hw|]. intros b h' b' Hg H.
    apply comes_back_returning, comes_back_within in H as (b1 & H & E).
    injection E as _ ->. eapply good_set_offset; eauto.
  - (* advance_offset *)
    apply on_cursor_ok; [exact Hw|]. intros b h' b' Hg H.
    apply comes_back_ret in H. injection H as _ ->.
    apply good_advance_offset; assumption.
  - (* read *)
    intros H. apply comes_back_returning in H. revert H.
    apply on_cursor_ok; [exact Hw|]. intros b h' b' Hg H.
    eapply good_read; eauto.
  - (* read at an offset *)
    intros H. apply comes_back_returning in H. revert H.
    apply on_cursor_ok; [exact Hw|]. intros b h' b' Hg H.
    eapply good_read_at; eauto.
  - (* new *)
    apply construct_ok; [exact Hw|]. intros o h' [= <- _]. apply good_zero.
  - (* new_preallocated *)
    apply construct_ok; [exact Hw|]. intros o h'.
    destruct (Buf.new_preallocated size (mem w)) as [b h1| | |] eqn:E; cbn;
      try discriminate.
    intros [= <- _]. cbn [cursor].
    rewrite (new_preallocated_base _ _ _ _ E). apply good_zero.
  - (* wrap *)
    apply construct_ok; [exact Hw|]. intros o h' [= <- _].
    apply good_of_region. exact Ht.
  - (* copy *)
    destruct (World.get_buffer buff w) as [b|] eqn:E; [|no_result].
    destruct (Hk b eq_refl) as [Ho Hd].
    apply construct_ok; [exact Hw|]. intros o h'.
    destruct (Buf.copy (mem w) b) as [t h1| | |] eqn:Ec; cbn; try discriminate.
    intros [= <- _]. cbn. eapply good_copy; eauto.
    eapply world_ok_get_buffer; eauto.
  - (* copy with an allocator *)
    destruct (World.get_buffer buff w) as [b|] eqn:E; [|no_result].
    destruct (Hk b eq_refl) as [Ho Hd].
    apply construct_ok; [exact Hw|]. intros o h'.
    rewrite copy_alloc_is_copy.
    destruct (Buf.copy (mem w) b) as [t h1| | |] eqn:Ec; cbn; try discriminate.
    intros [= <- _]. cbn. eapply good_copy; eauto.
    eapply world_ok_get_buffer; eauto.
  - (* move *)
    destruct (World.get_buffer buff w) as [b|] eqn:E; [|no_result].
    pose proof (world_ok_get_buffer _ _ _ Hw E) as Hg.
    destruct (good_move b Hg) as [Hn Ho].
    destruct (Buf.move b) as [new old]. cbn [fst snd] in *.
    apply construct_ok.
    + apply world_ok_put'; assumption.
    + intros o h' [= <- _]. exact Hn.
  - (* advance_size *)
    apply on_buffer_ok; [exact Hw|]. intros b h' b' E Hg H.
    apply comes_back_ret in H. injection H as _ ->.
    specialize (Hk b E). revert Hg.
    unfold cursor_good, cursor_ok, cursor_typed, U64.in_range in *. cbn.
    intros Hg. rewrite add_no_carry by lia. lia.
  - (* clear *)
    apply on_buffer_ok; [exact Hw|]. intros b h' b' E Hg H.
    apply comes_back_ret in H. injection H as _ ->.
    unfold Buf.clear. cbn. apply good_zero.
  - (* reset_size *)
    apply on_buffer_ok; [exact Hw|]. intros b h' b' E Hg H.
    apply comes_back_ret in H. injection H as _ ->. apply good_zero.
  - (* set_size *)
    apply on_buffer_ok; [exact Hw|]. intros b h' b' E Hg H.
    apply comes_back_ret in H. injection H as _ ->.
    specialize (Hk b E). revert Hg.
    unfold cursor_good, cursor_ok, cursor_typed, U64.in_range in *. cbn. lia.
  - (* realloc *)
    intros H. apply comes_back_returning in H. revert H.
    apply on_buffer_ok; [exact Hw|]. intros b h' b' E Hg H.
    eapply good_realloc; eauto.
  - (* ensure_alloced_size *)
    intros H. apply comes_back_returning in H. revert H.
    apply on_buffer_ok; [exact Hw|]. intros b h' b' E Hg H.
    eapply good_ensure_alloced_size; eauto.
  - (* swap *)
    destruct (World.get_buffer this w) as [a|] eqn:Ea; [|no_result].
    destruct (World.get_buffer other w) as [b|] eqn:Eb; [|no_result].
    destruct (decide (this = other)).
    + intros H. apply comes_back_ret in H as ->. exact Hw.
    + cbn. intros H. apply comes_back_ret in H as ->.
      apply world_ok_put'; [apply world_ok_put'; [exact Hw|]|]; cbn [cursor].
      * generalize (world_ok_get_buffer _ _ _ Hw Eb).
        apply good_unchanged_counters; reflexivity.
      * generalize (world_ok_get_buffer _ _ _ Hw Ea).
        apply good_unchanged_counters; reflexivity.
  - (* write from a view *)
    destruct (World.get_buffer this w) as [a|] eqn:Ea; [|no_result].
    destruct (World.get_const buff w) as [b|] eqn:Eb; [|no_result].
    intros H.
    apply comes_back_returning, comes_back_within in H as ([[h1 a1] b1] & H & ->).
    apply good_write_const in H as [Ha Hb];
      [|eapply world_ok_get_buffer; eauto|eapply world_ok_get_const; eauto].
    apply world_ok_put'; [apply world_ok_put'; [|exact Ha]|exact Hb].
    apply world_ok_mem. exact Hw.
  - (* write n bytes from a view *)
    destruct (World.get_buffer this w) as [a|] eqn:Ea; [|no_result].
    destruct (World.get_const buff w) as [b|] eqn:Eb; [|no_result].
    intros H.
    apply comes_back_returning, comes_back_within in H as ([[h1 a1] b1] & H & ->).
    apply good_write_const_n in H as [Ha Hb];
      [|eapply world_ok_get_buffer; eauto|eapply world_ok_get_const; eauto
       |exact Ht].
    apply world_ok_put'; [apply world_ok_put'; [|exact Ha]|exact Hb].
    apply world_ok_mem. exact Hw.
  - (* write *)
    intros H. apply comes_back_returning in H. revert H.
    apply on_buffer_ok; [exact Hw|]. intros b h' b' E Hg H.
    eapply good_write; eauto.
  - (* write at an offset *)
    intros H. apply comes_back_returning in H. revert H.
    apply on_buffer_ok; [exact Hw|]. intros b h' b' E Hg H.
    eapply good_write_at; eauto.
  - (* copy assignment *)
    destruct (World.get_buffer this w) as [a|] eqn:Ea; [|no_result].
    destruct (World.get_buffer buff w) as [b|] eqn:Eb; [|no_result].
    destruct (Hk b eq_refl) as [Ho Hd].
    destruct (decide (this = buff)).
    + intros H. apply comes_back_ret in H as ->. exact Hw.
    + intros H. apply comes_back_returning in H. revert H.
      apply on_buffer_ok; [exact Hw|]. intros a0 h' a' E Hg H.
      eapply good_copy_assign; [|exact Ho|exact Hd|exact H].
      eapply world_ok_get_buffer; eauto.
  - (* move assignment *)
    destruct (World.get_buffer this w) as [a|] eqn:Ea; [|no_result].
    destruct (World.get_buffer buff w) as [b|] eqn:Eb; [|no_result].
    destruct (decide (this = buff)).
    + intros H. apply comes_back_ret in H as ->. exact Hw.
    + cbn. intros H. apply comes_back_ret in H as ->.
      apply world_ok_put'; [apply world_ok_put'; [exact Hw|]|]; cbn [cursor].
      * generalize (world_ok_get_buffer _ _ _ Hw Eb).
        apply good_unchanged_counters; reflexivity.
      * generalize (world_ok_get_buffer _ _ _ Hw Ea).
        apply good_unchanged_counters; reflexivity.
  - (* ConstBuffer over a region *)
    apply construct_ok; [exact Hw|]. intros o h' [= <- _].
    apply good_of_region. exact Ht.
  - (* ConstBuffer over a buffer *)
    destruct (World.get_buffer buff w) as [b|] eqn:E; [|no_result].
    apply construct_ok; [exact Hw|]. intros o h' [= <- _].
    apply good_of_region. eapply world_ok_get_buffer; eauto.
  - (* PreallocatedBuffer over a region *)
    apply construct_ok; [exact Hw|]. intros o h' [= <- _].
    apply good_of_region. exact Ht.
  - (* PreallocatedBuffer::write *)
    destruct (World.get_prealloc this w) as [b|] eqn:E; [|no_result].
    intros H.
    apply comes_back_returning, comes_back_within in H as ([h1 b1] & H & ->).
    apply world_ok_put; [exact Hw|]. cbn [cursor].
    eapply good_prealloc_write; [|exact Ht|exact H].
    eapply world_ok_get_prealloc; eauto.
Qed.

Lemma world_ok_single h l o :
  cursor_good (cursor o) -> world_ok (World h (<[l := o]> ∅)).
Proof.
  intros Ho l' o'. cbn [objs]. rewrite lookup_insert.
  destruct (decide (l = l')); [intros [= <-]; exact Ho|].
  rewrite lookup_empty. discriminate.
Qed.

Lemma cursor_invariant_kept_witness :
  exists w',
    comes_back (World.exec (c_copy 1 0) owning_world) w' /\ world_ok w'.
Proof.
  eexists. split; [left; eexists; reflexivity|].
  apply (cursor_invariant_kept (c_copy 1 0) owning_world).
  - exact I.
  - apply world_ok_single. unfold cursor_good, cursor_typed. split; bounds.
  - intros b [= <-]. split; reflexivity.
  - left. eexists. reflexivity.
Defined.

(** C2 as stated fails.  set_size(0) on a buffer with offset 2 and size 8
    leaves offset 2 above size 0; and the copy of a buffer that does not
    own its data, with offset 3 and size 8, has offset 3 and size 0. *)
Lemma cursor_invariant_broken :
  (exists w',
     call_typed (c_set_size 0 0) /\ world_ok owning_world /\
     World.exec (c_set_size 0 0) owning_world = Ret None w' /\
     ~ world_ok w') /\
  (exists w',
     call_typed (c_copy 1 0) /\ world_ok borrowed_world /\
     World.exec (c_copy 1 0) borrowed_world = Ret None w' /\
     ~ world_ok w').
Proof.
  split.
  - eexists. split; [cbn; bounds|]. split.
    { apply world_ok_single. unfold cursor_good, cursor_typed. split; bounds. }
    split; [reflexivity|].
    intros H.
    assert (E : cursor_good (mkBase sample_data 0 2)) by (apply (H 0%nat (ABuffer (Buf.set_size 0 eight_byte_buffer))); reflexivity).
    destruct E as [E _]. unfold cursor_ok in E. cbn in E. lia.
  - eexists. split; [exact I|]. split.
    { apply world_ok_single. unfold cursor_good, cursor_typed. split; bounds. }
    split; [reflexivity|].
    intros H.
    assert (E : cursor_good (mkBase nullptr 0 3)) by (apply (H 1%nat (ABuffer (mkBuffer (mkBase nullptr 0 3) Vec.empty false false))); reflexivity).
    destruct E as [E _]. unfold cursor_ok in E. cbn in E. lia.
Qed.

(** * Further properties of the buffers *)

Lemma take_splice (l bs : list byte) (o m : nat) :
  (o + length bs <= m)%nat -> (m <= length l)%nat ->
  take m (take o l ++ bs ++ drop (o + length bs) l)
  = take o (take m l) ++ bs ++ drop (o + length bs) (take m l).
Proof.
  intros H1 H2.
  assert (Ho : length (take o l) = o) by (rewrite length_take; lia).
  rewrite take_app, Ho. rewrite (take_ge (take o l)) by (rewrite Ho; lia).
  rewrite take_app. rewrite (take_ge bs) by lia.
  rewrite take_take, Nat.min_l by lia.
  rewrite (take_drop_commute l).
  replace (o + length bs + (m - o - length bs))%nat with m by lia.
  reflexivity.
Qed.

Lemma store_inv h p bs h' :
  store h p bs = Some h' ->
  (bs = [] /\ h' = h) \/
  exists b o l,
    p = Ptr b o /\ cells h !! b = Some l /\ 0 <= o /\
    o + Z.of_nat (length bs) <= Z.of_nat (length l) /\
    (0 < length bs)%nat /\
    h' = heap_set b (take (Z.to_nat o) l ++ bs ++
                     drop (Z.to_nat o + length bs) l) h.
Proof.
  unfold store. destruct bs as [|x bs]; [intros [= <-]; auto|].
  destruct p as [|b o]; [discriminate|].
  destruct (cells h !! b) as [l|] eqn:E; [|discriminate].
  destruct ((0 <=? o) && _) eqn:B; [|discriminate].
  intros [= <-]. right. exists b, o, l.
  apply andb_prop in B as [B1 B2]. apply Z.leb_le in B1, B2.
  repeat split; auto. cbn [length]. lia.
Qed.

Lemma load_inv h p n bs :
  load h p n = Some bs ->
  (n = 0 /\ bs = []) \/
  exists b o l,
    p = Ptr b o /\ cells h !! b = Some l /\ 0 <= o /\
    o + n <= Z.of_nat (length l) /\
    bs = take (Z.to_nat n) (drop (Z.to_nat o) l).
Proof.
  unfold load. destruct (n =? 0) eqn:E0.
  - apply Z.eqb_eq in E0. intros [= <-]. auto.
  - destruct p as [|b o]; [discriminate|].
    destruct (cells h !! b) as [l|] eqn:E; [|discriminate].
    destruct ((0 <=? o) && _) eqn:B; [|discriminate].
    intros [= <-]. right. exists b, o, l.
    apply andb_prop in B as [B1 B2]. apply Z.leb_le in B1, B2. auto.
Qed.

Lemma load_intro h b o n l :
  cells h !! b = Some l -> 0 <= o -> 0 <= n -> o + n <= Z.of_nat (length l) ->
  load h (Ptr b o) n = Some (take (Z.to_nat n) (drop (Z.to_nat o) l)).
Proof.
  intros Hl Ho Hn Hle. unfold load. destruct (n =? 0) eqn:E0.
  - apply Z.eqb_eq in E0. subst n. reflexivity.
  - rewrite Hl.
    replace ((0 <=? o) && (o + n <=? Z.of_nat (length l))) with true; auto.
    symmetry. apply andb_true_intro. split; apply Z.leb_le; lia.
Qed.

(** A part of a range that was read. *)
Lemma load_inside h p m w o n :
  load h p m = Some w -> 0 <= o -> 0 <= n -> o + n <= m ->
  load h (ptr_add p o) n
  = Some (take (Z.to_nat n) (drop (Z.to_nat o) w)).
Proof.
  intros Hw Ho Hn Hle.
  destruct (load_inv _ _ _ _ Hw) as [[-> ->]|(b & o' & l & -> & Hl & Ho' & Hb & ->)].
  - assert (n = 0) by lia. subst n. rewrite drop_nil. reflexivity.
  - cbn [ptr_add]. rewrite (load_intro h b (o' + o) n l) by (auto; lia).
    f_equal.
    replace (Z.to_nat (o' + o)) with (Z.to_nat o' + Z.to_nat o)%nat by lia.
    rewrite (take_drop_commute (take _ _)), take_take.
    rewrite Nat.min_l by lia.
    rewrite <- take_drop_commute, drop_drop. reflexivity.
Qed.

(** A store leaves the other blocks alone. *)
Lemma store_other_block h p bs h' b' :
  store h p bs = Some h' ->
  (forall o, p <> Ptr b' o) ->
  cells h' !! b' = cells h !! b'.
Proof.
  intros Hs Hp.
  destruct (store_inv _ _ _ _ Hs) as [[_ ->]|(b & o & l & -> & _ & _ & _ & _ & ->)];
    [reflexivity|].
  unfold heap_set. cbn [cells]. apply lookup_insert_ne.
  intros ->. exact (Hp o eq_refl).
Qed.

Lemma store_next_block h p bs h' :
  store h p bs = Some h' -> next_block h' = next_block h.
Proof.
  intros Hs.
  destruct (store_inv _ _ _ _ Hs) as [[_ ->]|(b & o & l & -> & _ & _ & _ & _ & ->)];
    reflexivity.
Qed.

Lemma load_same_cells h h' p n :
  (forall b o, p = Ptr b o -> cells h' !! b = cells h !! b) ->
  load h' p n = load h p n.
Proof.
  intros H. unfold load. destruct (n =? 0); [reflexivity|].
  destruct p as [|b o]; [reflexivity|]. rewrite (H b o eq_refl). reflexivity.
Qed.

(** The range read at [p] after bytes were stored inside it. *)
Lemma load_after_store h p m w o bs h' :
  load h p m = Some w -> 0 <= o ->
  o + Z.of_nat (length bs) <= m ->
  store h (ptr_add p o) bs = Some h' ->
  load h' p m
  = Some (take (Z.to_nat o) w ++ bs ++ drop (Z.to_nat o + length bs) w).
Proof.
  intros Hw Ho Hle Hs.
  destruct (store_inv _ _ _ _ Hs) as [[-> ->]|(b & o1 & l & Hp & Hl & Ho1 & Hb & Hne & ->)].
  - rewrite Hw. f_equal. cbn [app length]. rewrite Nat.add_0_r.
    symmetry. apply take_drop.
  - destruct p as [|b0 o0]; [discriminate|]. cbn [ptr_add] in Hp.
    injection Hp as <- <-.
    destruct (load_inv _ _ _ _ Hw) as [[-> ->]|(b' & o' & l' & Hp' & Hl' & Ho' & Hb' & ->)].
    + lia.
    + injection Hp' as <- <-. rewrite Hl in Hl'. injection Hl' as <-.
      assert (Hm : 0 <= m) by lia.
      set (L2 := take (Z.to_nat (o0 + o)) l ++ bs ++
                 drop (Z.to_nat (o0 + o) + length bs) l).
      assert (Hl2 : cells (heap_set b0 L2 h) !! b0 = Some L2)
        by (unfold heap_set; cbn [cells]; apply lookup_insert_eq).
      assert (Hlen : length L2 = length l).
      { unfold L2. rewrite !length_app, length_take, length_drop. lia. }
      rewrite (load_intro _ b0 o0 m L2 Hl2) by lia.
      f_equal. unfold L2.
      replace (Z.to_nat (o0 + o)) with (Z.to_nat o0 + Z.to_nat o)%nat by lia.
      set (a := Z.to_nat o0). set (c := Z.to_nat o). set (k := length bs).
      set (mm := Z.to_nat m).
      assert (Ha : length (take a l) = a) by (rewrite length_take; lia).
      rewrite <- (take_take_drop l a c), <- app_assoc.
      rewrite drop_app_length' by (symmetry; exact Ha).
      replace (drop (a + c + k) l) with (drop (c + k) (drop a l))
        by (rewrite drop_drop; f_equal; lia).
      unfold k. rewrite take_splice by (rewrite ?length_drop; lia).
      reflexivity.
Qed.

Lemma valid_of_load h p m w o n :
  load h p m = Some w -> 0 <= o -> 0 <= n -> o + n <= m ->
  valid h (ptr_add p o) n = true.
Proof.
  intros Hw Ho Hn Hle. unfold valid.
  destruct (n =? 0) eqn:E0; [reflexivity|]. apply Z.eqb_neq in E0.
  destruct (load_inv _ _ _ _ Hw) as [[-> ->]|(b & o' & l & -> & Hl & Ho' & Hb & ->)];
    [lia|].
  cbn [ptr_add orb]. rewrite Hl.
  apply andb_true_intro. split; apply Z.leb_le; lia.
Qed.

Lemma load_of_valid_length h p n :
  0 <= n -> valid h p n = true ->
  exists bs, load h p n = Some bs /\ Z.of_nat (length bs) = n.
Proof.
  intros Hn Hv. destruct (load_valid _ _ _ Hv) as [bs Hbs].
  exists bs. split; [exact Hbs|]. eapply load_length; eauto.
Qed.

(** What resize does to the rest of the store. *)
Lemma resize_frame h v n h' v' :
  heap_wf h -> vec_wf h v -> Vec.resize n h v = Ret v' h' ->
  heap_wf h' /\
  (next_block h <= next_block h')%positive /\
  (forall blk, vstore v <> Some blk -> (blk < next_block h)%positive ->
               cells h' !! blk = cells h !! blk) /\
  (vstore v' = vstore v \/ vstore v' = Some (next_block h)).
Proof.
  intros Hh Hv. unfold Vec.resize.
  destruct (n <=? vsize v).
  { intros [= <- <-]. repeat split; auto. lia. }
  destruct (Vec.max_size <? n); [discriminate|].
  unfold vec_wf in Hv. destruct (vstore v) as [b|] eqn:Eb.
  - destruct Hv as (l & Hl & Hsz). rewrite Hl.
    destruct (n <=? Z.of_nat (length l)).
    + intros [= <- <-]. unfold heap_set. cbn [cells next_block vstore].
      repeat split; auto; try lia.
      * intros b' l'. cbn [cells next_block]. rewrite lookup_insert.
        case_decide; [subst b'; intros _; eapply Hh; eauto|apply Hh].
      * intros blk Hne _. apply lookup_insert_ne. congruence.
    + unfold heap_alloc, heap_free. cbn [cells next_block].
      intros [= <- <-]. cbn [cells next_block vstore].
      repeat split; auto; try lia.
      * intros b' l'. cbn [cells next_block]. rewrite lookup_insert.
        case_decide; [subst b'; lia|].
        rewrite lookup_delete. case_decide; [discriminate|].
        intros Hlive. apply Hh in Hlive. lia.
      * intros blk Hne Hlt. rewrite lookup_insert_ne by lia.
        apply lookup_delete_ne. congruence.
  - unfold heap_alloc. intros [= <- <-]. cbn [cells next_block vstore].
    repeat split; auto; try lia.
    + intros b' l'. cbn [cells next_block]. rewrite lookup_insert.
      case_decide; [subst b'; lia|].
      intros Hlive. apply Hh in Hlive. lia.
    + intros blk _ Hlt. apply lookup_insert_ne. lia.
Qed.

Lemma doubling_fits c n :
  0 < c < n -> n <= 2 ^ 63 ->
  exists k0 : nat, n <= c * 2 ^ Z.of_nat k0 < U64.modulus.
Proof.
  intros Hc Hn.
  pose proof (Z.log2_spec c ltac:(lia)) as [Hlo Hhi].
  pose proof (Z.log2_nonneg c) as Hj.
  assert (Hj63 : Z.log2 c < 63) by (apply Z.log2_lt_pow2; lia).
  exists (Z.to_nat (63 - Z.log2 c)). rewrite Z2Nat.id by lia.
  assert (Hp : 0 < 2 ^ (63 - Z.log2 c)) by (apply Z.pow_pos_nonneg; lia).
  assert (E1 : 2 ^ Z.log2 c * 2 ^ (63 - Z.log2 c) = 2 ^ 63)
    by (rewrite <- Z.pow_add_r by lia; f_equal; lia).
  assert (E2 : 2 ^ Z.succ (Z.log2 c) * 2 ^ (63 - Z.log2 c) = 2 ^ 64)
    by (rewrite <- Z.pow_add_r by lia; f_equal; lia).
  unfold U64.modulus. nia.
Qed.

Lemma vec_wf_size h v : vec_wf h v -> 0 <= Vec.size v.
Proof.
  unfold vec_wf, Vec.size. destruct (vstore v); [intros (l & _ & ?)|]; lia.
Qed.

Lemma vec_elements h v :
  vec_wf h v -> exists old, load h (Vec.data v) (Vec.size v) = Some old /\
                            Z.of_nat (length old) = Vec.size v.
Proof.
  intros Hv. pose proof (vec_wf_size _ _ Hv) as Hs.
  unfold vec_wf, Vec.data, Vec.size in *. destruct (vstore v) as [b|].
  - destruct Hv as (l & Hl & Hsz).
    rewrite (load_at_start _ _ _ _ Hl) by lia. eexists. split; [reflexivity|].
    rewrite length_take. lia.
  - rewrite Hv. exists []. split; reflexivity.
Qed.

Lemma realloc_resize n h b h' b' :
  owns_data_ b = true -> Buf.alloced_size b < n ->
  Buf.realloc n (h, b) = Ret Status_Ok (h', b') ->
  Vec.resize n h (vec_ b) = Ret (vec_ b') h'.
Proof.
  intros Ho Hn. unfold Buf.realloc. rewrite Ho. cbn [negb].
  replace (Buf.alloced_size b <? n) with true
    by (symmetry; apply Z.ltb_lt; exact Hn).
  destruct (Vec.resize n h (vec_ b)) as [v1 h1|e h1| |]; try discriminate.
  intros [= <- <-]. reflexivity.
Qed.

(** Three cases in which the policy stays within max_size(): no growth,
    a first allocation within max_size(), and a request of at most 2^62
    bytes, for which the doubling stops below 2^63. *)
Lemma within_max_size_no_growth c n : n <= c -> within_max_size c n.
Proof.
  intros Hn cap [[_ ->]|[(-> & H0 & ->)|([_ Hlt] & _)]] Hc; lia.
Qed.

Lemma within_max_size_first c n :
  c = 0 -> n <= Vec.max_size -> within_max_size c n.
Proof.
  intros -> Hn cap [[_ ->]|[(_ & _ & ->)|([H0 _] & _)]] Hc; lia.
Qed.

Lemma within_max_size_small c n : 0 <= c -> n <= 2 ^ 62 -> within_max_size c n.
Proof.
  intros Hc0 Hn cap [[_ ->]|[(_ & _ & ->)|([H0 Hlt] & k & -> & Hge & Hmin)]] Hc.
  - lia.
  - unfold Vec.max_size. lia.
  - destruct k as [|k].
    + change (2 ^ Z.of_nat 0) with 1 in *. lia.
    + specialize (Hmin k ltac:(lia)).
      rewrite Nat2Z.inj_succ, Z.pow_succ_r by lia.
      unfold Vec.max_size. lia.
Qed.

(** ensure_alloced_size on an owning, growable buffer, for at most 2^63
    bytes and a capacity within max_size(): it returns Ok, the capacity
    follows the policy, the elements are kept and followed by zeros, and
    the rest of the store is as it was. *)
Lemma ensure_ok h b n :
  heap_wf h -> owns_data_ b = true -> preallocated_ b = false ->
  vec_wf h (vec_ b) -> 0 <= n <= 2 ^ 63 ->
  within_max_size (Buf.alloced_size b) n ->
  exists old h1 b1,
    load h (Vec.data (vec_ b)) (Buf.alloced_size b) = Some old /\
    Buf.ensure_alloced_size n (h, b) = Ret Status_Ok (h1, b1) /\
    policy (Buf.alloced_size b) n (Buf.alloced_size b1) /\
    load h1 (Vec.data (vec_ b1)) (Buf.alloced_size b1)
      = Some (old ++ Vec.zeros (Buf.alloced_size b1 - Buf.alloced_size b)) /\
    size_ (base b1) = size_ (base b) /\
    offset_ (base b1) = offset_ (base b) /\
    owns_data_ b1 = true /\ preallocated_ b1 = false /\
    (Buf.alloced_size b < n -> data_ (base b1) = Vec.data (vec_ b1)) /\
    (n <= Buf.alloced_size b -> h1 = h /\ b1 = b) /\
    vec_wf h1 (vec_ b1) /\ heap_wf h1 /\
    (next_block h <= next_block h1)%positive /\
    (forall blk, vstore (vec_ b) <> Some blk -> (blk < next_block h)%positive ->
                 cells h1 !! blk = cells h !! blk) /\
    (vstore (vec_ b1) = vstore (vec_ b) \/
     vstore (vec_ b1) = Some (next_block h)).
Proof.
  intros Hh Ho Hp Hv Hn Hmax.
  pose proof (vec_wf_size _ _ Hv) as Hc0. fold (Buf.alloced_size b) in Hc0.
  destruct (vec_elements _ _ Hv) as (old & Hold & Holdlen).
  fold (Buf.alloced_size b) in Hold, Holdlen.
  unfold Buf.ensure_alloced_size. rewrite Hp. cbn [andb orb].
  destruct (n <=? Buf.alloced_size b) eqn:E.
  - apply Z.leb_le in E. exists old, h, b. rewrite Z.sub_diag.
    change (Vec.zeros 0) with (@nil byte). rewrite app_nil_r.
    repeat split; auto; try lia.
    left. auto.
  - apply Z.leb_gt in E.
    assert (Hgrow : exists cap,
               Buf.grow Buf.grow_fuel
                 (if Buf.alloced_size b =? 0 then n else Buf.alloced_size b) n
               = Some cap /\ policy (Buf.alloced_size b) n cap /\ n <= cap).
    { destruct (Buf.alloced_size b =? 0) eqn:E0.
      - apply Z.eqb_eq in E0. exists n. unfold Buf.grow_fuel. cbn [Buf.grow].
        rewrite Z.ltb_irrefl. split; [reflexivity|]. split; [|lia].
        right. left. repeat split; lia.
      - apply Z.eqb_neq in E0.
        destruct (doubling_fits (Buf.alloced_size b) n) as (k0 & Hk0); try lia.
        destruct (grow_doubles k0 Buf.grow_fuel (Buf.alloced_size b) n)
          as (k & _ & Hg & Hge & Hj); try lia.
        + apply fits_bounds_doublings with (c := Buf.alloced_size b); lia.
        + eexists. split; [exact Hg|]. split; [|exact Hge].
          right. right. split; [lia|]. exists k. auto. }
    destruct Hgrow as (cap & Hg & Hpol & Hge). rewrite Hg.
    assert (Hcap : cap <= Vec.max_size) by (apply Hmax; [exact Hpol|lia]).
    destruct (realloc_grows h b cap Ho Hv ltac:(lia) Hcap)
      as (old' & h1 & b1 & Hold' & Hre & Hsz & Hd & Hs & Hof & Hown & Hpre & Hl & Hv1).
    rewrite Hold in Hold'. injection Hold' as <-.
    assert (Hlt : Buf.alloced_size b < cap) by lia.
    pose proof (realloc_resize cap h b h1 b1 Ho Hlt Hre) as Hres.
    destruct (resize_frame _ _ _ _ _ Hh Hv Hres) as (Hh1 & Hnb & Hfr & Hst).
    exists old, h1, b1. rewrite Hsz. rewrite <- Hd.
    repeat split; auto; try congruence; try lia.
Qed.

Lemma store_heap_wf h p bs h' : heap_wf h -> store h p bs = Some h' -> heap_wf h'.
Proof.
  intros Hh Hs.
  destruct (store_inv _ _ _ _ Hs) as [[_ ->]|(b & o & l & -> & Hl & _ & _ & _ & ->)];
    [exact Hh|].
  intros b' l'. unfold heap_set. cbn [cells next_block]. rewrite lookup_insert.
  case_decide; [subst b'; intros _; eapply Hh; eauto|apply Hh].
Qed.

Lemma valid_live h b o n :
  valid h (Ptr b o) n = true -> 0 < n -> exists l, cells h !! b = Some l.
Proof.
  unfold valid. intros Hv Hn.
  replace (n =? 0) with false in Hv by (symmetry; apply Z.eqb_neq; lia).
  cbn [orb] in Hv. destruct (cells h !! b); [eauto|discriminate].
Qed.

Lemma load_none_bytes h p : load h p 0 = Some [].
Proof. reflexivity. Qed.

(** The bytes of a vector in the store give back [vec_wf]. *)
Lemma vec_wf_of_load h v w :
  0 < vsize v -> load h (Vec.data v) (vsize v) = Some w -> vec_wf h v.
Proof.
  intros Hs Hl. unfold vec_wf, Vec.data in *.
  destruct (load_inv _ _ _ _ Hl) as [[? _]|(b & o & l & Hp & Hc & Ho & Hb & _)];
    [lia|].
  destruct (vstore v) as [b'|]; [|discriminate].
  injection Hp as <- <-. exists l. split; [exact Hc|lia].
Qed.

(** Growing to [pos + n] bytes and copying [n] bytes to position [pos]:
    the common part of the two raw writes. *)
Lemma ensure_and_copy h b pos n src :
  heap_wf h -> owner_wf h b ->
  0 <= pos -> 0 <= n -> pos + n <= 2 ^ 63 ->
  within_max_size (Buf.alloced_size b) (pos + n) ->
  valid h src n = true -> (0 < n -> apart src (vec_ b)) ->
  exists old bs h1 b1 h2,
    load h (Vec.data (vec_ b)) (Buf.alloced_size b) = Some old /\
    load h src n = Some bs /\
    Buf.ensure_alloced_size (pos + n) (h, b) = Ret Status_Ok (h1, b1) /\
    memcpy h1 (ptr_add (data_ (base b1)) pos) src n = Some h2 /\
    load h2 (Vec.data (vec_ b1)) (Buf.alloced_size b1)
      = Some (take (Z.to_nat pos)
                (old ++ Vec.zeros (Buf.alloced_size b1 - Buf.alloced_size b))
              ++ bs ++
              drop (Z.to_nat (pos + n))
                (old ++ Vec.zeros (Buf.alloced_size b1 - Buf.alloced_size b))) /\
    policy (Buf.alloced_size b) (pos + n) (Buf.alloced_size b1) /\
    size_ (base b1) = size_ (base b) /\
    offset_ (base b1) = offset_ (base b) /\
    owns_data_ b1 = true /\ preallocated_ b1 = false /\
    (0 < Buf.alloced_size b1 -> data_ (base b1) = Vec.data (vec_ b1)) /\
    vec_wf h2 (vec_ b1) /\ heap_wf h2 /\
    (next_block h <= next_block h2)%positive /\
    (forall blk, vstore (vec_ b) <> Some blk -> (blk < next_block h)%positive ->
                 cells h2 !! blk = cells h !! blk) /\
    (vstore (vec_ b1) = vstore (vec_ b) \/
     vstore (vec_ b1) = Some (next_block h)).
Proof.
  intros Hh (Ho & Hp & Hv & Hd & Hcur & Hcap) Hpos Hn Hfit Hroom Hsrc Hap.
  destruct (ensure_ok h b (pos + n) Hh Ho Hp Hv ltac:(lia) Hroom)
    as (old & h1 & b1 & Hold & Hens & Hpol & Hw & Hs & Hof & Ho1 & Hp1 & Hd1 &
        Hsame & Hv1 & Hh1 & Hnb & Hfr & Hst).
  destruct (load_of_valid_length _ _ _ Hn Hsrc) as (bs & Hbs & Hlen).
  assert (Hcapge : pos + n <= Buf.alloced_size b1).
  { destruct Hpol as [[? ->]|[(? & ? & ->)|(? & k & _ & ? & _)]]; lia. }
  assert (Hcapmono : Buf.alloced_size b <= Buf.alloced_size b1).
  { destruct Hpol as [[? ->]|[(? & ? & ->)|(? & k & _ & ? & _)]]; lia. }
  assert (Hdata : 0 < Buf.alloced_size b1 -> data_ (base b1) = Vec.data (vec_ b1)).
  { intros Hpos1. destruct (Z.le_gt_cases (pos + n) (Buf.alloced_size b)) as [Hle|Hgt].
    - destruct (Hsame Hle) as [_ E]. rewrite E in *. apply Hd. exact Hpos1.
    - apply Hd1. lia. }
  (* the source is where it was *)
  assert (Hbs1 : load h1 src n = Some bs).
  { destruct (Z.eq_dec n 0) as [->|Hn0]; [rewrite <- Hbs; reflexivity|].
    rewrite <- Hbs. apply load_same_cells. intros sb so ->.
    destruct (valid_live _ _ _ _ Hsrc ltac:(lia)) as (l & Hl).
    apply Hfr; [|eapply Hh; eauto].
    specialize (Hap ltac:(lia)).
    unfold apart in Hap. destruct (vstore (vec_ b)); [congruence|discriminate]. }
  (* the two ranges are apart *)
  assert (Hov : overlap (ptr_add (data_ (base b1)) pos) src n = false).
  { destruct (Z.eq_dec n 0) as [->|Hn0].
    - unfold overlap. destruct (ptr_add _ _), src; reflexivity.
    - rewrite Hdata by lia. unfold Vec.data, overlap.
      destruct (vstore (vec_ b1)) as [vb|] eqn:Evb; [|reflexivity].
      cbn [ptr_add]. destruct src as [|sb so]; [reflexivity|].
      destruct (valid_live _ _ _ _ Hsrc ltac:(lia)) as (l & Hl).
      apply Hh in Hl.
      replace (Pos.eqb vb sb) with false; [rewrite andb_false_r; reflexivity|].
      symmetry. apply Pos.eqb_neq. intros ->.
      try rewrite Evb in Hst. destruct Hst as [E|E].
      + specialize (Hap ltac:(lia)).
        unfold apart in Hap. rewrite <- E in Hap. congruence.
      + injection E as E. lia. }
  (* the copy *)
  destruct (Z.eq_dec (Buf.alloced_size b1) 0) as [Hz|Hnz].
  - assert (Hn0 : n = 0) by lia. assert (Hp0 : pos = 0) by lia.
    assert (Hbs0 : bs = [])
      by (destruct bs; [reflexivity|cbn [length] in Hlen; lia]).
    subst bs. clear Hlen. subst n pos.
    exists old, [], h1, b1, h1. rewrite Hz in *.
    assert (Hold0 : old = []).
    { destruct old; [reflexivity|]. cbn [length] in *.
      destruct (vec_elements _ _ Hv) as (o' & Ho' & Hl').
      fold (Buf.alloced_size b) in Ho', Hl'. rewrite Hold in Ho'.
      injection Ho' as <-. cbn [length] in Hl'. lia. }
    subst old.
    replace (0 - Buf.alloced_size b) with 0 in * by lia.
    change (Vec.zeros 0) with (@nil byte) in *.
    repeat split; auto; try lia.
    unfold memcpy. rewrite Hov. reflexivity.
  - pose proof (vec_wf_size _ _ Hv1) as Hsz1. fold (Buf.alloced_size b1) in Hsz1.
    assert (Hvalid : valid h1 (ptr_add (data_ (base b1)) pos)
                       (Z.of_nat (length bs)) = true).
    { rewrite Hlen, Hdata by lia. eapply valid_of_load; eauto. }
    destruct (store_valid _ _ _ Hvalid) as (h2 & Hst2 & _).
    exists old, bs, h1, b1, h2.
    assert (Hmc : memcpy h1 (ptr_add (data_ (base b1)) pos) src n = Some h2).
    { unfold memcpy. rewrite Hov, Hbs1. exact Hst2. }
    assert (Hwhole :
              load h2 (Vec.data (vec_ b1)) (Buf.alloced_size b1)
              = Some (take (Z.to_nat pos)
                        (old ++ Vec.zeros (Buf.alloced_size b1 - Buf.alloced_size b))
                      ++ bs ++
                      drop (Z.to_nat (pos + n))
                        (old ++ Vec.zeros (Buf.alloced_size b1 - Buf.alloced_size b)))).
    { rewrite Hdata in Hst2 by lia.
      assert (Hle2 : pos + Z.of_nat (length bs) <= Buf.alloced_size b1) by lia.
      rewrite (load_after_store _ _ _ _ _ _ _ Hw Hpos Hle2 Hst2).
      do 4 f_equal. lia. }
    repeat split; auto.
    + eapply vec_wf_of_load; [|exact Hwhole]. unfold Buf.alloced_size, Vec.size in *. lia.
    + eapply store_heap_wf; eauto.
    + rewrite (store_next_block _ _ _ _ Hst2). exact Hnb.
    + intros blk Hne Hlt. rewrite <- (Hfr blk Hne Hlt).
      eapply store_other_block; [exact Hst2|].
      rewrite Hdata by lia. unfold Vec.data.
      destruct (vstore (vec_ b1)) as [vb|] eqn:Evb; [|discriminate].
      cbn [ptr_add]. intros o [= ->].
      try rewrite Evb in Hst. destruct Hst as [E|E]; [congruence|].
      injection E as E. lia.
Qed.

Lemma load_prefix h p m w s :
  load h p m = Some w -> 0 <= s <= m -> load h p s = Some (take (Z.to_nat s) w).
Proof.
  intros Hw Hs.
  destruct (load_inv _ _ _ _ Hw) as [[-> ->]|(b & o & l & -> & Hl & Ho & Hb & ->)].
  - assert (s = 0) by lia. subst s. reflexivity.
  - rewrite (load_intro h b o s l) by (auto; lia).
    f_equal. rewrite take_take. f_equal. lia.
Qed.

(** Overwriting [n] bytes at [pos] in a vector whose first [size] bytes
    are [cs]: the first [max (pos + n) size] bytes afterwards. *)
Lemma splice_contents (old zs bs : list byte) (pos size : nat) :
  (pos <= size)%nat -> (size <= length old)%nat ->
  (pos + length bs <= length (old ++ zs))%nat ->
  take (Nat.max (pos + length bs) size)
    (take pos (old ++ zs) ++ bs ++ drop (pos + length bs) (old ++ zs))
  = take pos (take size old) ++ bs ++ drop (pos + length bs) (take size old).
Proof.
  intros H1 H2 H3. set (W := old ++ zs) in *. set (n := length bs) in *.
  assert (HA : length (take pos W) = pos) by (rewrite length_take; lia).
  rewrite take_app, HA. rewrite (take_ge (take pos W)) by (rewrite HA; lia).
  rewrite take_app. rewrite (take_ge bs) by (fold n; lia). fold n.
  rewrite take_take, (Nat.min_l pos size) by lia.
  assert (HW : take pos W = take pos old) by (unfold W; apply take_app_le; lia).
  rewrite HW. do 2 f_equal.
  rewrite take_drop_commute.
  destruct (Nat.le_gt_cases (pos + n) size) as [Hle|Hgt].
  - replace (pos + n + (Nat.max (pos + n) size - pos - n))%nat with size by lia.
    f_equal. unfold W. apply take_app_le. lia.
  - replace (pos + n + (Nat.max (pos + n) size - pos - n))%nat with (pos + n)%nat by lia.
    rewrite !drop_ge; [reflexivity| |]; rewrite length_take; lia.
Qed.

Lemma contents_of_owner h b :
  owner_wf h b ->
  exists old cs,
    load h (Vec.data (vec_ b)) (Buf.alloced_size b) = Some old /\
    Z.of_nat (length old) = Buf.alloced_size b /\
    contents h (base b) = Some cs /\
    cs = take (Z.to_nat (size_ (base b))) old.
Proof.
  intros (Ho & Hp & Hv & Hd & Hcur & Hcap).
  destruct (vec_elements _ _ Hv) as (old & Hold & Hlen).
  fold (Buf.alloced_size b) in Hold, Hlen.
  exists old, (take (Z.to_nat (size_ (base b))) old).
  split; [exact Hold|]. split; [exact Hlen|]. split; [|reflexivity].
  unfold contents.
  destruct (Z.eq_dec (size_ (base b)) 0) as [E|E]; [rewrite E; reflexivity|].
  rewrite Hd by lia. eapply load_prefix; eauto. lia.
Qed.

(** The raw writes on an owning, growable buffer in good order: the
    buffer grows by the policy, the bytes are copied to [pos], and the
    buffer holds what it held with the new bytes laid over it. *)
Lemma raw_write h b pos n src :
  heap_wf h -> owner_wf h b ->
  0 <= pos <= size_ (base b) -> 0 <= n -> pos + n <= 2 ^ 63 ->
  within_max_size (Buf.alloced_size b) (pos + n) ->
  valid h src n = true -> (0 < n -> apart src (vec_ b)) ->
  exists cs bs h1 b1 h2,
    contents h (base b) = Some cs /\
    load h src n = Some bs /\
    Buf.ensure_alloced_size (pos + n) (h, b) = Ret Status_Ok (h1, b1) /\
    memcpy h1 (ptr_add (data_ (base b1)) pos) src n = Some h2 /\
    load h2 (data_ (base b1)) (Z.max (pos + n) (size_ (base b)))
      = Some (take (Z.to_nat pos) cs ++ bs ++ drop (Z.to_nat (pos + n)) cs) /\
    policy (Buf.alloced_size b) (pos + n) (Buf.alloced_size b1) /\
    size_ (base b1) = size_ (base b) /\
    offset_ (base b1) = offset_ (base b) /\
    owns_data_ b1 = true /\ preallocated_ b1 = false /\
    (0 < Buf.alloced_size b1 -> data_ (base b1) = Vec.data (vec_ b1)) /\
    Z.max (pos + n) (size_ (base b)) <= Buf.alloced_size b1 /\
    vec_wf h2 (vec_ b1) /\ heap_wf h2 /\
    (next_block h <= next_block h2)%positive /\
    (forall blk, vstore (vec_ b) <> Some blk -> (blk < next_block h)%positive ->
                 cells h2 !! blk = cells h !! blk) /\
    (vstore (vec_ b1) = vstore (vec_ b) \/
     vstore (vec_ b1) = Some (next_block h)).
Proof.
  intros Hh Hwf Hpos Hn Hfit Hroom Hsrc Hap.
  destruct (contents_of_owner _ _ Hwf) as (old & cs & Hold & Holdlen & Hcs & Ecs).
  destruct (ensure_and_copy h b pos n src Hh Hwf ltac:(lia) Hn Hfit Hroom Hsrc Hap)
    as (old' & bs & h1 & b1 & h2 & Hold' & Hbs & Hens & Hmc & Hwhole & Hpol &
        Hs & Hof & Ho1 & Hp1 & Hd1 & Hv2 & Hh2 & Hnb & Hfr & Hst).
  rewrite Hold in Hold'. injection Hold' as <-.
  destruct Hwf as (Ho & Hp & Hv & Hd & Hcur & Hcap).
  pose proof (load_length _ _ _ _ Hn Hbs) as Hlen.
  assert (Hcapge : pos + n <= Buf.alloced_size b1 /\
                   Buf.alloced_size b <= Buf.alloced_size b1).
  { destruct Hpol as [[? ->]|[(? & ? & ->)|(? & k & _ & ? & _)]]; lia. }
  exists cs, bs, h1, b1, h2.
  repeat split; auto; try lia.
  destruct (Z.eq_dec (Buf.alloced_size b1) 0) as [Hz|Hnz].
  - assert (Hn0 : n = 0) by lia. assert (Hp0 : pos = 0) by lia.
    assert (Hs0 : size_ (base b) = 0) by lia.
    assert (Hb0 : bs = [])
      by (destruct bs; [reflexivity|cbn [length] in Hlen; lia]).
    rewrite Hn0, Hp0, Hs0, Hb0. subst cs. rewrite Hs0. reflexivity.
  - rewrite Hd1 by lia.
    rewrite (load_prefix _ _ _ _ (Z.max (pos + n) (size_ (base b))) Hwhole)
      by lia.
    f_equal. subst cs.
    pose proof (zeros_length (Buf.alloced_size b1 - Buf.alloced_size b) ltac:(lia)) as Hzl.
    replace (Z.to_nat (Z.max (pos + n) (size_ (base b))))
      with (Nat.max (Z.to_nat pos + length bs) (Z.to_nat (size_ (base b)))) by lia.
    replace (Z.to_nat (pos + n)) with (Z.to_nat pos + length bs)%nat by lia.
    apply splice_contents; try lia.
    rewrite length_app. lia.
Qed.

Lemma pow63_lt_modulus : 2 ^ 63 < U64.modulus.
Proof. unfold U64.modulus. lia. Qed.

(** One raw write at the cursor, with everything that a sequence of
    writes needs to go on. *)
Lemma write_step h b src n :
  heap_wf h -> owner_wf h b ->
  0 <= n -> offset_ (base b) + n <= 2 ^ 63 ->
  within_max_size (Buf.alloced_size b) (offset_ (base b) + n) ->
  valid h src n = true -> (0 < n -> apart src (vec_ b)) ->
  exists cs bs h' b',
    contents h (base b) = Some cs /\
    load h src n = Some bs /\
    Buf.write src n (h, b) = Ret Status_Ok (h', b') /\
    offset_ (base b') = offset_ (base b) + n /\
    size_ (base b') = Z.max (offset_ (base b) + n) (size_ (base b)) /\
    contents h' (base b')
      = Some (take (Z.to_nat (offset_ (base b))) cs ++ bs ++
              drop (Z.to_nat (offset_ (base b) + n)) cs) /\
    policy (Buf.alloced_size b) (offset_ (base b) + n) (Buf.alloced_size b') /\
    owner_wf h' b' /\ heap_wf h' /\
    (next_block h <= next_block h')%positive /\
    (forall blk, vstore (vec_ b) <> Some blk -> (blk < next_block h)%positive ->
                 cells h' !! blk = cells h !! blk) /\
    (vstore (vec_ b') = vstore (vec_ b) \/
     vstore (vec_ b') = Some (next_block h)).
Proof.
  intros Hh Hwf Hn Hfit Hroom Hsrc Hap.
  pose proof Hwf as (Ho & Hp & Hv & Hd & Hcur & Hcap).
  destruct (raw_write h b (offset_ (base b)) n src Hh Hwf ltac:(lia) Hn Hfit Hroom Hsrc Hap)
    as (cs & bs & h1 & b1 & h2 & Hcs & Hbs & Hens & Hmc & Hl & Hpol & Hs & Hof &
        Ho1 & Hp1 & Hd1 & Hmax & Hv2 & Hh2 & Hnb & Hfr & Hst).
  pose proof pow63_lt_modulus as H63.
  assert (Hadd : U64.add (offset_ (base b)) n = offset_ (base b) + n)
    by (apply add_no_carry; lia).
  exists cs, bs, h2, (Buf.after_write n b1).
  split; [exact Hcs|]. split; [exact Hbs|]. split.
  { unfold Buf.write. rewrite Ho. cbn [negb]. rewrite Hadd, Hens.
    cbn [RETURN_NOT_OK ok]. rewrite Hof, Hmc. reflexivity. }
  unfold Buf.after_write, contents.
  cbn [base with_base with_size with_offset size_ offset_ data_].
  rewrite Hof, Hadd, Hs.
  split; [reflexivity|]. split; [reflexivity|].
  split; [exact Hl|].
  split; [exact Hpol|]. split.
  { unfold owner_wf, Buf.alloced_size in *.
    cbn [base with_base with_size with_offset size_ offset_ data_ vec_
         owns_data_ preallocated_].
    repeat split; auto; lia. }
  repeat split; auto.
Qed.

Lemma valid_same_cells h h' p n :
  (forall b o, p = Ptr b o -> cells h' !! b = cells h !! b) ->
  valid h' p n = valid h p n.
Proof.
  intros H. unfold valid. destruct p as [|b o]; [reflexivity|].
  rewrite (H b o eq_refl). reflexivity.
Qed.

Lemma grown_from_start h0 : heap_wf h0 -> grown_from h0 h0 Buf.new.
Proof.
  intros Hh. unfold grown_from, owner_wf, vec_wf, Buf.alloced_size. cbn.
  repeat split; auto; try lia; discriminate.
Qed.

(** A payload of the starting store, seen from a later store. *)
Lemma payload_kept h0 h b p n :
  heap_wf h0 -> grown_from h0 h b -> 0 <= n -> valid h0 p n = true ->
  valid h p n = true /\ load h p n = load h0 p n /\
  (0 < n -> apart p (vec_ b)).
Proof.
  intros Hh0 (Hh & Hwf & Hnb & Hfr & Hvb) Hn Hv.
  destruct (Z.eq_dec n 0) as [->|Hn0].
  { repeat split; try reflexivity. lia. }
  destruct p as [|sb so]; [unfold valid in Hv; cbn in Hv;
    replace (n =? 0) with false in Hv by (symmetry; apply Z.eqb_neq; lia);
    discriminate|].
  destruct (valid_live _ _ _ _ Hv ltac:(lia)) as (l & Hl).
  pose proof (Hh0 _ _ Hl) as Hlt.
  repeat split.
  - rewrite <- Hv. apply valid_same_cells. intros ? ? [= <- <-]. auto.
  - apply load_same_cells. intros ? ? [= <- <-]. auto.
  - intros _. unfold apart. destruct (vstore (vec_ b)) as [vb|] eqn:E; [|exact I].
    specialize (Hvb vb eq_refl). lia.
Qed.

(** One more payload appended at the end of the buffer. *)
Lemma write_next h0 h b p n acc :
  heap_wf h0 -> grown_from h0 h b ->
  offset_ (base b) = size_ (base b) ->
  contents h (base b) = Some acc ->
  0 <= n -> valid h0 p n = true -> size_ (base b) + n <= 2 ^ 62 ->
  exists h' b',
    Buf.write p n (h, b) = Ret Status_Ok (h', b') /\
    grown_from h0 h' b' /\
    offset_ (base b') = size_ (base b') /\
    size_ (base b') = size_ (base b) + n /\
    contents h' (base b') = Some (acc ++ default [] (load h0 p n)) /\
    policy (Buf.alloced_size b) (size_ (base b) + n) (Buf.alloced_size b').
Proof.
  intros Hh0 Hg Hend Hacc Hn Hv Hfit.
  destruct (payload_kept h0 h b p n Hh0 Hg Hn Hv) as (Hv' & Hld & Hap).
  destruct Hg as (Hh & Hwf & Hnb & Hfr & Hvb).
  pose proof Hwf as (_ & _ & Hvec & _ & Hcur & _).
  pose proof (vec_wf_size _ _ Hvec) as Hc0.
  assert (Hroom : within_max_size (Buf.alloced_size b) (offset_ (base b) + n))
    by (apply within_max_size_small; [exact Hc0|lia]).
  destruct (write_step h b p n Hh Hwf Hn ltac:(lia) Hroom Hv' Hap)
    as (cs & bs & h' & b' & Hcs & Hbs & Hw & Hof & Hsz & Hc & Hpol & Hwf' &
        Hh' & Hnb' & Hfr' & Hst).
  rewrite Hacc in Hcs. injection Hcs as <-.
  assert (Hlen : Z.of_nat (length acc) = size_ (base b)).
  { unfold contents in Hacc. eapply load_length; [|exact Hacc]. lia. }
  exists h', b'. rewrite Hend in *.
  split; [exact Hw|]. split.
  { split; [exact Hh'|]. split; [exact Hwf'|]. split; [lia|]. split.
    - intros blk Hlt. rewrite <- (Hfr blk Hlt). apply Hfr'; [|lia].
      intros E. specialize (Hvb blk E). lia.
    - intros blk E. destruct Hst as [E'|E'].
      + apply Hvb. congruence.
      + rewrite E in E'. injection E' as ->. exact Hnb. }
  split; [lia|]. split; [lia|]. split; [|exact Hpol].
  rewrite Hc. f_equal. rewrite <- Hld, Hbs. cbn [default].
  rewrite take_ge, drop_ge by lia. rewrite app_nil_r. reflexivity.
Qed.

Lemma write_all_appends h0 srcs :
  heap_wf h0 ->
  forall h b acc,
    grown_from h0 h b ->
    offset_ (base b) = size_ (base b) ->
    contents h (base b) = Some acc ->
    Forall (fun s => 0 <= snd s /\ valid h0 (fst s) (snd s) = true) srcs ->
    size_ (base b) + total srcs <= 2 ^ 62 ->
    exists h' b',
      write_all srcs (h, b) = Ret Status_Ok (h', b') /\
      grown_from h0 h' b' /\
      offset_ (base b') = size_ (base b') /\
      size_ (base b') = size_ (base b) + total srcs /\
      contents h' (base b') = Some (acc ++ gather h0 srcs).
Proof.
  intros Hh0. induction srcs as [|[p n] rest IH]; intros h b acc Hg Hend Hacc Hall Hfit.
  - exists h, b. cbn. rewrite app_nil_r, Z.add_0_r. auto.
  - apply Forall_cons in Hall as [[Hn Hv] Hall]. cbn [fst snd] in *.
    cbn [total] in Hfit.
    assert (Htot : 0 <= total rest).
    { clear -Hall.
      induction Hall as [|[q m] r [Hm _] _ IHr]; cbn [total snd] in *; lia. }
    destruct (write_next h0 h b p n acc Hh0 Hg Hend Hacc Hn Hv ltac:(lia))
      as (h1 & b1 & Hw & Hg1 & Hend1 & Hsz1 & Hc1 & _).
    destruct (IH h1 b1 _ Hg1 Hend1 Hc1 Hall ltac:(lia))
      as (h' & b' & Hws & Hg' & Hend' & Hsz' & Hc').
    exists h', b'. cbn [write_all gather total]. rewrite Hw. cbn [RETURN_NOT_OK ok].
    rewrite Hws. split; [reflexivity|]. split; [exact Hg'|].
    split; [exact Hend'|]. split; [lia|].
    rewrite Hc', <- app_assoc. reflexivity.
Qed.

Lemma sample_heap_wf : heap_wf sample_heap.
Proof.
  intros b l. unfold sample_heap. cbn [cells next_block].
  rewrite !lookup_insert. repeat case_decide; subst; try lia.
  rewrite lookup_empty. discriminate.
Qed.

Lemma region16_heap_wf : heap_wf region16_heap.
Proof.
  intros b l. unfold region16_heap. cbn [cells next_block].
  rewrite !lookup_insert. repeat case_decide; subst; try lia.
  rewrite lookup_empty. discriminate.
Qed.

Lemma eight_byte_buffer_wf : owner_wf sample_heap eight_byte_buffer.
Proof.
  unfold owner_wf, vec_wf, Buf.alloced_size, Vec.size. cbn.
  repeat split; try lia; try reflexivity.
  eexists. split; [reflexivity|]. cbn. lia.
Qed.

Lemma tight_power_step i c c' :
  0 <= i -> tight_power i c -> policy c (i + 1) c' -> tight_power (i + 1) c'.
Proof.
  intros Hi Ht Hp. right. split; [lia|].
  destruct Hp as [[Hle ->]|[(-> & _ & ->)|(Hc & k & -> & Hge & Hmin)]].
  - destruct Ht as [[-> ->]|(H1 & j & -> & Hb)]; [lia|]. exists j. split; [reflexivity|lia].
  - destruct Ht as [[-> _]|(H1 & j & Hj & Hb)].
    + exists 0%nat. split; [reflexivity|lia].
    + assert (0 < 2 ^ Z.of_nat j) by (apply Z.pow_pos_nonneg; lia). lia.
  - destruct Ht as [[-> ->]|(H1 & j & -> & Hb)]; [lia|].
    assert (Hci : 2 ^ Z.of_nat j = i) by lia.
    destruct k as [|[|k]].
    + change (2 ^ Z.of_nat 0) with 1 in Hge. lia.
    + exists (S j). change (2 ^ Z.of_nat 1) with 2 in *.
      rewrite Nat2Z.inj_succ, Z.pow_succ_r by lia. split; [ring|]. lia.
    + specialize (Hmin 1%nat ltac:(lia)). change (2 ^ Z.of_nat 1) with 2 in Hmin. lia.
Qed.

Lemma one_byte_writes h0 p (k : nat) :
  heap_wf h0 -> valid h0 p 1 = true ->
  forall h b acc,
    grown_from h0 h b ->
    offset_ (base b) = size_ (base b) ->
    contents h (base b) = Some acc ->
    tight_power (size_ (base b)) (Buf.alloced_size b) ->
    size_ (base b) + Z.of_nat k <= 2 ^ 62 ->
    exists h' b',
      write_all (replicate k (p, 1)) (h, b) = Ret Status_Ok (h', b') /\
      offset_ (base b') = size_ (base b') /\
      size_ (base b') = size_ (base b) + Z.of_nat k /\
      tight_power (size_ (base b')) (Buf.alloced_size b').
Proof.
  intros Hh0 Hv. induction k as [|k IH]; intros h b acc Hg Hend Hacc Ht Hfit.
  - exists h, b. cbn. rewrite Z.add_0_r. auto.
  - assert (Hs0 : 0 <= size_ (base b)).
    { destruct Hg as (_ & (_ & _ & _ & _ & ? & _) & _). lia. }
    destruct (write_next h0 h b p 1 acc Hh0 Hg Hend Hacc ltac:(lia) Hv ltac:(lia))
      as (h1 & b1 & Hw & Hg1 & Hend1 & Hsz1 & Hc1 & Hpol).
    pose proof (tight_power_step _ _ _ Hs0 Ht Hpol) as Ht1.
    rewrite <- Hsz1 in Ht1.
    destruct (IH h1 b1 _ Hg1 Hend1 Hc1 Ht1 ltac:(lia))
      as (h' & b' & Hws & Hend' & Hsz' & Ht').
    exists h', b'. cbn [replicate write_all]. rewrite Hw. cbn [RETURN_NOT_OK ok].
    rewrite Hws. repeat split; auto. lia.
Qed.

(** X7: a raw write on an owning, growable buffer in good order.  With
    the source in memory outside the buffer's storage, offset + n at
    most 2^63 and, where the buffer has to grow, the capacity that the
    policy asks for within max_size() = 2^63 - 1, write(src, n) returns
    Ok; the offset advances by n, the size becomes max(offset + n, size),
    the buffer holds what it held with the n source bytes laid over it
    at the old offset, the capacity follows the growth policy, and the
    buffer is in good order again. *)
Theorem write_lays_bytes (h : heap) (b : Buffer) (src : ptr) (n : Z) :
  heap_wf h -> owner_wf h b ->
  0 <= n -> offset_ (base b) + n <= 2 ^ 63 ->
  within_max_size (Buf.alloced_size b) (offset_ (base b) + n) ->
  valid h src n = true -> (0 < n -> apart src (vec_ b)) ->
  exists cs bs h' b',
    contents h (base b) = Some cs /\
    load h src n = Some bs /\
    Buf.write src n (h, b) = Ret Status_Ok (h', b') /\
    offset_ (base b') = offset_ (base b) + n /\
    size_ (base b') = Z.max (offset_ (base b) + n) (size_ (base b)) /\
    contents h' (base b')
      = Some (take (Z.to_nat (offset_ (base b))) cs ++ bs ++
              drop (Z.to_nat (offset_ (base b) + n)) cs) /\
    policy (Buf.alloced_size b) (offset_ (base b) + n) (Buf.alloced_size b') /\
    owner_wf h' b' /\ heap_wf h'.
Proof.
  intros Hh Hwf Hn Hfit Hroom Hsrc Hap.
  destruct (write_step h b src n Hh Hwf Hn Hfit Hroom Hsrc Hap)
    as (cs & bs & h' & b' & H1 & H2 & H3 & H4 & H5 & H6 & H7 & H8 & H9 & _).
  exists cs, bs, h', b'. auto 10.
Qed.

Lemma write_lays_bytes_witness :
  exists h' b',
    Buf.write sample_dst 1 (sample_heap, eight_byte_buffer)
      = Ret Status_Ok (h', b') /\
    offset_ (base b') = 3 /\ size_ (base b') = 8 /\
    contents h' (base b')
      = Some [Byte.x01; Byte.x02; Byte.x00; Byte.x04;
              Byte.x05; Byte.x06; Byte.x07; Byte.x08].
Proof.
  destruct (write_lays_bytes sample_heap eight_byte_buffer sample_dst 1)
    as (cs & bs & h' & b' & H1 & H2 & H3 & H4 & H5 & H6 & _).
  - exact sample_heap_wf.
  - exact eight_byte_buffer_wf.
  - lia.
  - cbn. lia.
  - apply within_max_size_no_growth. cbn. lia.
  - reflexivity.
  - intros _. cbn. discriminate.
  - exists h', b'. split; [exact H3|]. split; [exact H4|]. split; [exact H5|].
    rewrite H6. injection H1 as <-. injection H2 as <-. reflexivity.
Defined.

(** X8: payloads written one after the other into a new buffer.  With
    every payload in memory and at most 2^62 bytes in all, every write
    returns Ok, and at the end size = offset = the total length and the
    buffer holds the payloads concatenated in the order written, within
    its capacity. *)
Theorem write_all_concatenates (h0 : heap) (srcs : list (ptr * Z)) :
  heap_wf h0 ->
  Forall (fun s => 0 <= snd s /\ valid h0 (fst s) (snd s) = true) srcs ->
  total srcs <= 2 ^ 62 ->
  exists h' b',
    write_all srcs (h0, Buf.new) = Ret Status_Ok (h', b') /\
    size_ (base b') = total srcs /\
    offset_ (base b') = total srcs /\
    contents h' (base b') = Some (gather h0 srcs) /\
    total srcs <= Buf.alloced_size b'.
Proof.
  intros Hh0 Hall Hfit.
  destruct (write_all_appends h0 srcs Hh0 h0 Buf.new []
              (grown_from_start h0 Hh0) eq_refl eq_refl Hall Hfit)
    as (h' & b' & Hw & Hg & Hend & Hsz & Hc).
  exists h', b'. cbn in Hsz. rewrite Hend, Hsz.
  repeat split; auto.
  destruct Hg as (_ & (_ & _ & _ & _ & _ & Hcap) & _). lia.
Qed.

Lemma write_all_concatenates_witness :
  exists h' b',
    write_all [(payload_at 0, 5); (payload_at 5, 5); (payload_at 10, 6)]
      (region16_heap, Buf.new) = Ret Status_Ok (h', b') /\
    size_ (base b') = 16 /\
    contents h' (base b') = Some payload16.
Proof.
  destruct (write_all_concatenates region16_heap
              [(payload_at 0, 5); (payload_at 5, 5); (payload_at 10, 6)])
    as (h' & b' & H1 & H2 & _ & H3 & _).
  - exact region16_heap_wf.
  - repeat constructor; cbn; lia.
  - cbn. lia.
  - exists h', b'. split; [exact H1|]. split; [exact H2|]. exact H3.
Defined.

(** X9: geometric growth.  After k >= 1 writes of one byte into a new
    buffer (k at most 2^62) the size is k and the capacity is a power of
    two that is at least k and less than 2k, so the capacity has taken
    only powers of two up to that one as values. *)
Theorem one_byte_writes_capacity (h0 : heap) (p : ptr) (k : nat) :
  heap_wf h0 -> valid h0 p 1 = true ->
  (1 <= k)%nat -> Z.of_nat k <= 2 ^ 62 ->
  exists h' b' (j : nat),
    write_all (replicate k (p, 1)) (h0, Buf.new) = Ret Status_Ok (h', b') /\
    size_ (base b') = Z.of_nat k /\
    Buf.alloced_size b' = 2 ^ Z.of_nat j /\
    Z.of_nat k <= Buf.alloced_size b' < 2 * Z.of_nat k.
Proof.
  intros Hh0 Hv Hk Hfit.
  destruct (one_byte_writes h0 p k Hh0 Hv h0 Buf.new []
              (grown_from_start h0 Hh0) eq_refl eq_refl)
    as (h' & b' & Hw & _ & Hsz & Ht).
  - left. split; reflexivity.
  - cbn. lia.
  - cbn in Hsz. rewrite Hsz in Ht.
    destruct Ht as [[? _]|(_ & j & Hj & Hb)]; [lia|].
    exists h', b', j. auto.
Qed.

Lemma one_byte_writes_capacity_witness :
  exists h' b',
    write_all (replicate 5 (sample_dst, 1)) (sample_heap, Buf.new)
      = Ret Status_Ok (h', b') /\
    size_ (base b') = 5 /\ Buf.alloced_size b' = 8.
Proof.
  destruct (one_byte_writes_capacity sample_heap sample_dst 5)
    as (h' & b' & j & H1 & H2 & H3 & H4).
  - exact sample_heap_wf.
  - reflexivity.
  - lia.
  - lia.
  - exists h', b'. split; [exact H1|]. split; [exact H2|].
    assert (E : write_all (replicate 5 (sample_dst, 1)) (sample_heap, Buf.new)
                = Ret Status_Ok (h', b')) by exact H1.
    vm_compute in E. injection E as _ <-. reflexivity.
Defined.

(** A range outside the buffer's storage, after a raw write. *)
Lemma outside_kept h b h2 b1 q n :
  heap_wf h ->
  (forall blk, vstore (vec_ b) <> Some blk -> (blk < next_block h)%positive ->
               cells h2 !! blk = cells h !! blk) ->
  (vstore (vec_ b1) = vstore (vec_ b) \/ vstore (vec_ b1) = Some (next_block h)) ->
  valid h q n = true -> (0 < n -> apart q (vec_ b)) -> 0 <= n ->
  valid h2 q n = true /\ load h2 q n = load h q n /\
  (0 < n -> apart q (vec_ b1)).
Proof.
  intros Hh Hfr Hst Hv Hap Hn.
  destruct (Z.eq_dec n 0) as [->|Hn0].
  { repeat split; try reflexivity. lia. }
  specialize (Hap ltac:(lia)).
  destruct q as [|qb qo]; [unfold valid in Hv; cbn in Hv;
    replace (n =? 0) with false in Hv by (symmetry; apply Z.eqb_neq; lia);
    discriminate|].
  destruct (valid_live _ _ _ _ Hv ltac:(lia)) as (l & Hl).
  pose proof (Hh _ _ Hl) as Hlt.
  assert (Hne : vstore (vec_ b) <> Some qb).
  { unfold apart in Hap. destruct (vstore (vec_ b)); congruence. }
  repeat split.
  - rewrite <- Hv. apply valid_same_cells. intros ? ? [= <- <-]. auto.
  - apply load_same_cells. intros ? ? [= <- <-]. auto.
  - intros _. unfold apart. destruct (vstore (vec_ b1)) as [vb|] eqn:E; [|exact I].
    destruct Hst as [E'|E']; [congruence|]. injection E' as ->. lia.
Qed.

Lemma overlap_apart q v n pos :
  (0 < n -> apart q v) -> overlap q (ptr_add (Vec.data v) pos) n = false.
Proof.
  intros Hap. unfold overlap, Vec.data, apart in *.
  destruct q as [|qb qo]; [reflexivity|].
  destruct (vstore v) as [vb|]; [|reflexivity]. cbn [ptr_add].
  destruct (0 <? n) eqn:E; [|reflexivity]. apply Z.ltb_lt in E.
  specialize (Hap E).
  replace (Pos.eqb qb vb) with false by (symmetry; apply Pos.eqb_neq; exact Hap).
  reflexivity.
Qed.

(** X10: positional write and positional read.  On an owning, growable
    buffer in good order, write(src, pos, n) with pos within the size,
    pos + n at most 2^63 and, where the buffer has to grow, the capacity
    that the policy asks for within max_size() = 2^63 - 1, returns Ok,
    leaves the offset alone and makes the size max(pos + n, size);
    read(dst, pos, n) on the result then returns Ok and puts the n bytes
    of src into dst. *)
Theorem write_at_read_at (h : heap) (b : Buffer) (src dst : ptr) (pos n : Z) :
  heap_wf h -> owner_wf h b -> size_ (base b) < U64.modulus ->
  0 <= pos <= size_ (base b) -> 0 <= n -> pos + n <= 2 ^ 63 ->
  within_max_size (Buf.alloced_size b) (pos + n) ->
  valid h src n = true -> (0 < n -> apart src (vec_ b)) ->
  valid h dst n = true -> (0 < n -> apart dst (vec_ b)) ->
  exists bs h1 b1 h2,
    load h src n = Some bs /\
    Buf.write_at src pos n (h, b) = Ret Status_Ok (h1, b1) /\
    offset_ (base b1) = offset_ (base b) /\
    size_ (base b1) = Z.max (pos + n) (size_ (base b)) /\
    Base.read_at dst pos n (h1, base b1) = Ret Status_Ok (h2, base b1) /\
    load h2 dst n = Some bs.
Proof.
  intros Hh Hwf Hsize Hpos Hn Hfit Hroom Hsrc Hap Hdst Hapd.
  pose proof Hwf as (Ho & Hp & Hv & Hd & Hcur & Hcap).
  destruct (raw_write h b pos n src Hh Hwf Hpos Hn Hfit Hroom Hsrc Hap)
    as (cs & bs & h1 & b1 & h2 & Hcs & Hbs & Hens & Hmc & Hl & Hpol & Hs & Hof &
        Ho1 & Hp1 & Hd1 & Hmax & Hv2 & Hh2 & Hnb & Hfr & Hst).
  pose proof pow63_lt_modulus as H63.
  assert (Hadd : U64.add pos n = pos + n) by (apply add_no_carry; lia).
  set (b2 := with_base (with_size (Z.max (pos + n) (size_ (base b1))) (base b1)) b1).
  assert (Hw : Buf.write_at src pos n (h, b) = Ret Status_Ok (h2, b2)).
  { unfold Buf.write_at. rewrite Ho. cbn [negb]. rewrite Hadd, Hens.
    cbn [RETURN_NOT_OK ok]. rewrite Hmc. reflexivity. }
  assert (Hlencs : Z.of_nat (length cs) = size_ (base b)).
  { unfold contents in Hcs. eapply load_length; [|exact Hcs]. lia. }
  pose proof (load_length _ _ _ _ Hn Hbs) as Hlenbs.
  (* the bytes at pos *)
  assert (Hat : load h2 (ptr_add (data_ (base b1)) pos) n = Some bs).
  { rewrite (load_inside _ _ _ _ pos n Hl) by lia. f_equal.
    assert (Hlt : length (take (Z.to_nat pos) cs) = Z.to_nat pos)
      by (rewrite length_take; lia).
    rewrite drop_app_length' by (symmetry; exact Hlt).
    apply take_app_length'. lia. }
  destruct (outside_kept h b h2 b1 dst n Hh Hfr Hst Hdst Hapd Hn)
    as (Hdst2 & _ & Hapd2).
  assert (Hov : overlap dst (ptr_add (data_ (base b1)) pos) n = false).
  { destruct (Z.eq_dec n 0) as [->|Hn0].
    - unfold overlap. destruct dst, (ptr_add _ _); reflexivity.
    - rewrite Hd1 by lia. apply overlap_apart; exact Hapd2. }
  assert (Hsrc2 : valid h2 (ptr_add (data_ (base b1)) pos) n = true)
    by (eapply valid_of_load; [exact Hl| | |]; lia).
  destruct (memcpy_spec h2 dst _ n Hn Hsrc2 Hdst2 Hov)
    as (bs' & h3 & Hl' & Hm & Hl3).
  rewrite Hat in Hl'. injection Hl' as <-.
  exists bs, h2, b2, h3. split; [exact Hbs|]. split; [exact Hw|].
  unfold b2. cbn [base with_base with_size size_ offset_ data_].
  rewrite Hs. split; [exact Hof|]. split; [reflexivity|]. split; [|exact Hl3].
  unfold Base.read_at. cbn [size_ data_ with_size].
  rewrite sub_no_borrow by (unfold U64.in_range; lia).
  replace (Z.max (pos + n) (size_ (base b)) - pos <? n) with false
    by (symmetry; apply Z.ltb_ge; lia).
  rewrite Hm. reflexivity.
Qed.

Lemma write_at_read_at_witness :
  exists h1 b1 h2,
    Buf.write_at (payload_at 3) 1 2 (region16_heap,
       mkBuffer (mkBase (Ptr 1%positive 0) 4 0) (mkVec (Some 1%positive) 16)
         true false) = Ret Status_Ok (h1, b1) /\
    Base.read_at (payload_at 14) 1 2 (h1, base b1) = Ret Status_Ok (h2, base b1) /\
    load h2 (payload_at 14) 2 = Some [Byte.x13; Byte.x14].
Proof.
  destruct (write_at_read_at region16_heap
              (mkBuffer (mkBase (Ptr 1%positive 0) 4 0)
                 (mkVec (Some 1%positive) 16) true false)
              (payload_at 3) (payload_at 14) 1 2)
    as (bs & h1 & b1 & h2 & H1 & H2 & _ & _ & H3 & H4).
  - exact region16_heap_wf.
  - unfold owner_wf, vec_wf, Buf.alloced_size, Vec.size. cbn.
    repeat split; try lia; try reflexivity.
    eexists. split; [reflexivity|]. cbn. lia.
  - unfold U64.modulus. cbn. lia.
  - cbn. lia.
  - lia.
  - lia.
  - apply within_max_size_no_growth. cbn. lia.
  - reflexivity.
  - intros _. cbn. discriminate.
  - reflexivity.
  - intros _. cbn. discriminate.
  - exists h1, b1, h2. split; [exact H2|]. split; [exact H3|].
    rewrite H4. injection H1 as <-. reflexivity.
Defined.

(** X13: a copy is deep.  The copy of an owning buffer in good order that
    has storage returns a buffer with the same size, offset, flags and
    bytes, in good order, whose storage is another block; the source
    holds what it held; and bytes stored anywhere in the storage of one
    of the two afterwards leave the bytes of the other as they are. *)
Theorem copy_is_deep (h : heap) (buff : Buffer) :
  heap_wf h -> owner_wf h buff -> 0 < Buf.alloced_size buff ->
  exists cs h' this,
    contents h (base buff) = Some cs /\
    Buf.copy h buff = Ret this h' /\
    contents h' (base this) = Some cs /\
    contents h' (base buff) = Some cs /\
    size_ (base this) = size_ (base buff) /\
    offset_ (base this) = offset_ (base buff) /\
    Buf.alloced_size this = Buf.alloced_size buff /\
    owner_wf h' this /\ heap_wf h' /\
    (forall o bs h'',
        store h' (ptr_add (data_ (base this)) o) bs = Some h'' ->
        contents h'' (base buff) = Some cs) /\
    (forall o bs h'',
        store h' (ptr_add (data_ (base buff)) o) bs = Some h'' ->
        contents h'' (base this) = Some cs).
Proof.
  intros Hh Hwf Hcap0.
  destruct (contents_of_owner _ _ Hwf) as (old & cs & Hold & Holdlen & Hcs & Ecs).
  destruct Hwf as (Ho & Hp & Hv & Hd & Hcur & Hcap).
  specialize (Hd Hcap0).
  unfold vec_wf in Hv. unfold Buf.alloced_size, Vec.size in *.
  unfold Vec.data in Hd, Hold.
  destruct (vstore (vec_ buff)) as [vb|] eqn:Evb; [|lia].
  destruct Hv as (l & Hl & Hsz).
  pose proof (Hh _ _ Hl) as Hlt.
  set (nb := next_block h).
  set (h' := Heap (<[nb := take (Z.to_nat (vsize (vec_ buff))) l]> (cells h))
                  (Pos.succ nb)).
  set (this := mkBuffer (mkBase (Ptr nb 0) (size_ (base buff)) (offset_ (base buff)))
                 (mkVec (Some nb) (vsize (vec_ buff))) true false).
  assert (Hcopy : Buf.copy h buff = Ret this h').
  { unfold Buf.copy, Vec.copy.
    replace (vsize (vec_ buff) =? 0) with false by (symmetry; apply Z.eqb_neq; lia).
    rewrite Evb, Hl. unfold heap_alloc. rewrite Ho, Hp, Hd. reflexivity. }
  assert (Hold' : old = take (Z.to_nat (vsize (vec_ buff))) l).
  { rewrite (load_at_start _ _ _ _ Hl) in Hold by lia. congruence. }
  assert (Hnew : cells h' !! nb = Some old)
    by (unfold h'; cbn [cells]; rewrite Hold'; apply lookup_insert_eq).
  assert (Hkeep : cells h' !! vb = Some l).
  { unfold h'. cbn [cells]. rewrite lookup_insert_ne by (unfold nb; lia).
    exact Hl. }
  assert (Hcthis : contents h' (base this) = Some cs).
  { unfold contents, this. cbn [base data_ size_].
    rewrite (load_at_start _ _ _ _ Hnew) by lia. congruence. }
  assert (Hcbuff : contents h' (base buff) = Some cs).
  { rewrite <- Hcs. unfold contents. rewrite Hd.
    apply load_same_cells. intros ? ? [= <- <-]. rewrite Hkeep, Hl. reflexivity. }
  exists cs, h', this.
  split; [exact Hcs|]. split; [exact Hcopy|]. split; [exact Hcthis|].
  split; [exact Hcbuff|]. split; [reflexivity|]. split; [reflexivity|].
  split; [reflexivity|]. split.
  { unfold owner_wf, vec_wf, this. cbn. repeat split; auto; try lia.
    exists old. split; [exact Hnew|]. lia. }
  split.
  { intros b' l'. unfold h'. cbn [cells next_block]. rewrite lookup_insert.
    case_decide; [subst b'; lia|]. intros Hlive. apply Hh in Hlive. lia. }
  split.
  - intros o bs h'' Hst. rewrite <- Hcbuff. unfold contents. rewrite Hd.
    apply load_same_cells. intros ? ? [= <- <-].
    eapply store_other_block; [exact Hst|].
    unfold this. cbn [base data_ ptr_add]. intros o' [= E]. unfold nb in E. lia.
  - intros o bs h'' Hst. rewrite <- Hcthis. unfold contents, this.
    cbn [base data_ size_].
    apply load_same_cells. intros ? ? [= <- <-].
    eapply store_other_block; [exact Hst|].
    rewrite Hd. cbn [ptr_add]. intros o' [= E]. unfold nb in E. lia.
Qed.

Lemma copy_is_deep_witness :
  exists h' this,
    Buf.copy sample_heap eight_byte_buffer = Ret this h' /\
    contents h' (base this) = contents sample_heap (base eight_byte_buffer) /\
    data_ (base this) = Ptr 3%positive 0.
Proof.
  destruct (copy_is_deep sample_heap eight_byte_buffer)
    as (cs & h' & this & H1 & H2 & H3 & _).
  - exact sample_heap_wf.
  - exact eight_byte_buffer_wf.
  - cbn. lia.
  - exists h', this. split; [exact H2|]. split; [congruence|].
    assert (E : Buf.copy sample_heap eight_byte_buffer = Ret this h') by exact H2.
    vm_compute in E. injection E as <- _. reflexivity.
Defined.

(** X1: moving the cursor in two steps.  On a buffer with offset <= size,
    advance_offset(a) followed by advance_offset(b) leaves the offset at
    min(offset + a + b, size): the two saturating steps are one step of
    a + b, also when a + b does not fit in 64 bits. *)
Theorem advance_offset_twice (x : BufferBase) (a b : Z) :
  cursor_ok x -> U64.in_range (size_ x) -> U64.in_range a -> U64.in_range b ->
  Base.advance_offset b (Base.advance_offset a x)
  = with_offset (Z.min (offset_ x + a + b) (size_ x)) x.
Proof.
  intros Hc Hs Ha Hb.
  rewrite (advance_offset_min x a Hc Hs Ha).
  rewrite advance_offset_min; cbn [size_ offset_ with_offset]; auto.
  - unfold with_offset. cbn. f_equal. unfold cursor_ok, U64.in_range in *. lia.
  - unfold cursor_ok, U64.in_range in *. cbn. lia.
Qed.

Lemma advance_offset_twice_witness :
  Base.advance_offset (2 ^ 64 - 1) (Base.advance_offset (2 ^ 64 - 1) (mkBase nullptr 10 4))
  = mkBase nullptr 10 10.
Proof.
  rewrite advance_offset_twice; [reflexivity|bounds..].
Defined.

(** X2: seeking forward with set_offset and with advance_offset.  On a
    buffer with offset <= size, for a uint64 target o at or after the
    offset: when o is at most the size, set_offset(o) returns and gives
    the buffer that advance_offset(o - offset) gives; when o is past the
    size, set_offset(o) throws out_of_range and leaves the buffer as it
    is, where advance_offset(o - offset) stops at the end. *)
Theorem seek_forward (x : BufferBase) (o : Z) :
  cursor_ok x -> U64.in_range (size_ x) -> U64.in_range o ->
  offset_ x <= o ->
  (o <= size_ x ->
   Base.set_offset o x = Ret tt (Base.advance_offset (o - offset_ x) x)) /\
  (size_ x < o ->
   Base.set_offset o x = Throw (out_of_range "BufferBase::set_offset") x /\
   Base.advance_offset (o - offset_ x) x = with_offset (size_ x) x).
Proof.
  intros Hc Hs Ho Hfwd.
  assert (Hk : U64.in_range (o - offset_ x))
    by (unfold cursor_ok, U64.in_range in *; lia).
  rewrite (advance_offset_min x (o - offset_ x) Hc Hs Hk).
  unfold Base.set_offset, Base.assert_offset_is_valid.
  unfold cursor_ok, U64.in_range in *. split.
  - intros Hle.
    replace (size_ x <? o) with false by (symmetry; apply Z.ltb_ge; lia).
    do 2 f_equal. lia.
  - intros Hgt.
    replace (size_ x <? o) with true by (symmetry; apply Z.ltb_lt; lia).
    split; [reflexivity|]. f_equal. lia.
Qed.

Lemma seek_forward_witness :
  Base.set_offset 7 (mkBase nullptr 10 4) = Ret tt (mkBase nullptr 10 7) /\
  Base.set_offset 11 (mkBase nullptr 10 4)
    = Throw (out_of_range "BufferBase::set_offset") (mkBase nullptr 10 4).
Proof.
  destruct (seek_forward (mkBase nullptr 10 4) 7) as [H1 _];
    [bounds|bounds|bounds|cbn; lia|].
  destruct (seek_forward (mkBase nullptr 10 4) 11) as [_ H2];
    [bounds|bounds|bounds|cbn; lia|].
  split.
  - apply H1. cbn. lia.
  - apply H2. cbn. lia.
Defined.

(** X3: the two reads agree.  On a buffer with offset <= size, read(dst,
    n) does what read(dst, offset(), n) does and then, when that
    returned Ok, advances the offset by n; every other outcome (the
    buffer error, undefined behaviour of the copy) is the same. *)
Theorem read_is_read_at (h : heap) (b : BufferBase) (dst : ptr) (n : Z) :
  cursor_ok b -> U64.in_range (size_ b) -> U64.in_range n ->
  Base.read dst n (h, b)
  = match Base.read_at dst (offset_ b) n (h, b) with
    | Ret Status_Ok (h', b0) => Ret Status_Ok (h', Base.advance_offset n b0)
    | r => r
    end.
Proof.
  intros Hc Hs Hn. unfold Base.read, Base.read_at.
  pose proof (sub_no_borrow _ _ Hc Hs) as Hsub.
  destruct (U64.sub (size_ b) (offset_ b) <? n) eqn:E; [reflexivity|].
  apply Z.ltb_ge in E. rewrite Hsub in E.
  destruct (memcpy _ _ _ _); [|reflexivity].
  rewrite (advance_offset_min b n Hc Hs Hn).
  unfold cursor_ok, U64.in_range in *.
  rewrite add_no_carry by lia. do 3 f_equal. lia.
Qed.

Lemma read_is_read_at_witness :
  Base.read sample_dst 1 (sample_heap, mkBase sample_data 4 3)
  = match Base.read_at sample_dst 3 1 (sample_heap, mkBase sample_data 4 3) with
    | Ret Status_Ok (h', b0) => Ret Status_Ok (h', Base.advance_offset 1 b0)
    | r => r
    end.
Proof.
  apply (read_is_read_at sample_heap (mkBase sample_data 4 3) sample_dst 1);
    bounds.
Defined.

(** X4: reading to the end.  On a buffer with offset <= size, after
    read(dst, n) with n the bytes that are left (ranges in memory),
    end() is true, no bytes are left to read, and every read of one
    byte or more returns the buffer error and changes nothing. *)
Theorem read_to_end (h : heap) (b : BufferBase) (dst : ptr) :
  cursor_ok b -> U64.in_range (size_ b) ->
  valid h (ptr_add (data_ b) (offset_ b)) (Const.nbytes_left_to_read b) = true ->
  valid h dst (Const.nbytes_left_to_read b) = true ->
  overlap dst (ptr_add (data_ b) (offset_ b)) (Const.nbytes_left_to_read b) = false ->
  exists h' b',
    Base.read dst (Const.nbytes_left_to_read b) (h, b) = Ret Status_Ok (h', b') /\
    Base.end_ b' = true /\
    Const.nbytes_left_to_read b' = 0 /\
    forall dst' m, 0 < m ->
      Base.read dst' m (h', b')
        = Ret (Status_BufferError Base.overflow_msg) (h', b').
Proof.
  intros Hc Hs. unfold Const.nbytes_left_to_read.
  rewrite (sub_no_borrow _ _ Hc Hs). intros Hsrc Hdst Hov.
  unfold cursor_ok, U64.in_range in *.
  assert (Hleft : 0 <= size_ b - offset_ b) by lia.
  destruct (memcpy_spec h dst _ _ Hleft Hsrc Hdst Hov) as (bs & h' & _ & Hm & _).
  exists h', (with_offset (size_ b) b). unfold Base.read.
  rewrite sub_no_borrow by (unfold U64.in_range; lia).
  rewrite Z.ltb_irrefl, Hm. rewrite add_no_carry by lia.
  replace (offset_ b + (size_ b - offset_ b)) with (size_ b) by lia.
  split; [reflexivity|]. cbn [size_ offset_ with_offset].
  split; [apply Z.eqb_refl|]. split; [unfold U64.sub; rewrite Z.sub_diag; reflexivity|].
  intros dst' m Hm0. unfold U64.sub. rewrite Z.sub_diag.
  change (U64.wrap 0) with 0.
  replace (0 <? m) with true by (symmetry; apply Z.ltb_lt; lia). reflexivity.
Qed.

Lemma read_to_end_witness :
  exists h' b',
    Base.read (Ptr 1%positive 0) 5 (region16_heap, mkBase (payload_at 0) 16 11)
      = Ret Status_Ok (h', b') /\
    Base.end_ b' = true.
Proof.
  destruct (read_to_end region16_heap (mkBase (payload_at 0) 16 11) (Ptr 1%positive 0))
    as (h' & b' & H1 & H2 & _).
  - bounds.
  - bounds.
  - reflexivity.
  - reflexivity.
  - reflexivity.
  - exists h', b'. split; [exact H1|exact H2].
Defined.

(** X14: write(view, n) is the raw write from the view's cursor.  On a
    buffer that owns its data, with a view that has at least n bytes
    left, write(&S, n) does what write(raw, n) does with raw the address
    at the cursor of S, and advances the cursor of S by n exactly when
    that write returned Ok. *)
Theorem write_const_n_is_write (h : heap) (B : Buffer) (S : BufferBase) (n : Z) :
  owns_data_ B = true ->
  cursor_ok S -> U64.in_range (size_ S) ->
  0 <= n <= size_ S - offset_ S ->
  Buf.write_const_n n (h, B, S)
  = match Buf.write (ptr_add (data_ S) (offset_ S)) n (h, B) with
    | Ret Status_Ok (h', B') =>
        Ret Status_Ok (h', B', with_offset (offset_ S + n) S)
    | Ret st (h', B') => Ret st (h', B', S)
    | Throw e (h', B') => Throw e (h', B', S)
    | Undefined => Undefined
    | Diverges => Diverges
    end.
Proof.
  intros Ho Hc Hs Hn. unfold Buf.write_const_n, Buf.write. rewrite Ho. cbn [negb].
  destruct (Buf.ensure_alloced_size _ _) as [st [h1 B1]|e [h1 B1]| |];
    cbn [Buf.within RETURN_NOT_OK]; try reflexivity.
  destruct (ok st) eqn:Est.
  - destruct st; try discriminate. cbn [ok].
    unfold Base.read. rewrite (sub_no_borrow _ _ Hc Hs).
    replace (size_ S - offset_ S <? n) with false by (symmetry; apply Z.ltb_ge; lia).
    destruct (memcpy _ _ _ _); cbn [Buf.within RETURN_NOT_OK ok]; [|reflexivity].
    unfold cursor_ok, U64.in_range in *. rewrite add_no_carry by lia. reflexivity.
  - destruct st; try discriminate; reflexivity.
Qed.

Lemma write_const_n_is_write_witness :
  exists h' B',
    Buf.write_const_n 6 (region16_heap, Buf.new, mkBase (payload_at 0) 16 4)
      = Ret Status_Ok (h', B', mkBase (payload_at 0) 16 10) /\
    Buf.write (payload_at 4) 6 (region16_heap, Buf.new) = Ret Status_Ok (h', B').
Proof.
  pose proof (write_const_n_is_write region16_heap Buf.new
                (mkBase (payload_at 0) 16 4) 6 eq_refl) as H.
  eexists _, _. rewrite H; [split; reflexivity|bounds..].
Defined.

(** X15: write(view, n) on a view that is too short.  On an owning,
    growable buffer in good order, with fewer than n bytes left in the
    view, offset + n at most 2^63 and, where the buffer has to grow, the
    capacity that the policy asks for within max_size() = 2^63 - 1, the
    call returns the buffer error of the read; the view, the offset, the
    size and the bytes of the buffer are as before, but the capacity has
    already grown by the policy to hold offset + n bytes. *)
Theorem write_const_n_short_view (h : heap) (B : Buffer) (S : BufferBase) (n : Z) :
  heap_wf h -> owner_wf h B ->
  cursor_ok S -> U64.in_range (size_ S) ->
  size_ S - offset_ S < n -> offset_ (base B) + n <= 2 ^ 63 ->
  within_max_size (Buf.alloced_size B) (offset_ (base B) + n) ->
  exists h1 B1,
    Buf.write_const_n n (h, B, S)
      = Ret (Status_BufferError Base.overflow_msg) (h1, B1, S) /\
    offset_ (base B1) = offset_ (base B) /\
    size_ (base B1) = size_ (base B) /\
    contents h1 (base B1) = contents h (base B) /\
    policy (Buf.alloced_size B) (offset_ (base B) + n) (Buf.alloced_size B1) /\
    offset_ (base B) + n <= Buf.alloced_size B1.
Proof.
  intros Hh Hwf Hc Hs Hshort Hfit Hroom.
  destruct (contents_of_owner _ _ Hwf) as (old & cs & Hold & Holdlen & Hcs & Ecs).
  destruct Hwf as (Ho & Hp & Hv & Hd & Hcur & Hcap).
  unfold cursor_ok, U64.in_range in Hc, Hs.
  pose proof pow63_lt_modulus as H63.
  assert (Hadd : U64.add (offset_ (base B)) n = offset_ (base B) + n)
    by (apply add_no_carry; lia).
  destruct (ensure_ok h B (offset_ (base B) + n) Hh Ho Hp Hv ltac:(lia) Hroom)
    as (old' & h1 & B1 & Hold' & Hens & Hpol & Hw & Hsz & Hof & Ho1 & Hp1 & Hd1 &
        Hsame & Hv1 & Hh1 & _).
  rewrite Hold in Hold'. injection Hold' as <-.
  assert (Hge : offset_ (base B) + n <= Buf.alloced_size B1 /\
                Buf.alloced_size B <= Buf.alloced_size B1).
  { destruct Hpol as [[? ->]|[(? & ? & ->)|(? & k & _ & ? & _)]]; lia. }
  exists h1, B1. split.
  { unfold Buf.write_const_n. rewrite Ho. cbn [negb]. rewrite Hadd, Hens.
    cbn [Buf.within RETURN_NOT_OK ok]. unfold Base.read.
    rewrite sub_no_borrow by (unfold U64.in_range; lia).
    replace (size_ S - offset_ S <? n) with true by (symmetry; apply Z.ltb_lt; lia).
    reflexivity. }
  split; [exact Hof|]. split; [exact Hsz|]. split; [|split; [exact Hpol|lia]].
  destruct (Z.le_gt_cases (offset_ (base B) + n) (Buf.alloced_size B)) as [Hle|Hgt].
  - destruct (Hsame Hle) as [-> ->]. reflexivity.
  - rewrite Hcs. unfold contents. rewrite Hsz, Hd1 by lia.
    rewrite (load_prefix _ _ _ _ (size_ (base B)) Hw) by lia.
    f_equal. subst cs. apply take_app_le. lia.
Qed.

Lemma write_const_n_short_view_witness :
  exists h1 B1,
    Buf.write_const_n 5 (sample_heap, one_byte_buffer, mkBase sample_data 8 6)
      = Ret (Status_BufferError Base.overflow_msg)
          (h1, B1, mkBase sample_data 8 6) /\
    size_ (base B1) = 1 /\ Buf.alloced_size B1 = 8.
Proof.
  destruct (write_const_n_short_view sample_heap one_byte_buffer
              (mkBase sample_data 8 6) 5)
    as (h1 & B1 & H1 & _ & H2 & _).
  - exact sample_heap_wf.
  - unfold owner_wf, vec_wf, Buf.alloced_size, Vec.size. cbn.
    repeat split; try lia; try reflexivity.
    eexists. split; [reflexivity|]. cbn. lia.
  - bounds.
  - bounds.
  - cbn. lia.
  - cbn. lia.
  - apply within_max_size_small; cbn; lia.
  - exists h1, B1. split; [exact H1|]. split; [exact H2|].
    assert (E : Buf.write_const_n 5 (sample_heap, one_byte_buffer, mkBase sample_data 8 6)
                = Ret (Status_BufferError Base.overflow_msg)
                    (h1, B1, mkBase sample_data 8 6)) by exact H1.
    vm_compute in E. injection E as _ <-. reflexivity.
Defined.

(** X16: a buffer over externally owned memory is never written or grown.
    When [owns_data_] is false, realloc and all four writes return a
    buffer error and leave the store, the buffer and the view exactly as
    they were, whatever the arguments. *)
Theorem non_owner_untouched (h : heap) (b : Buffer) (S : BufferBase)
    (p : ptr) (o n : Z) :
  owns_data_ b = false ->
  Buf.realloc n (h, b)
    = Ret (Status_BufferError Buf.not_owner_realloc_msg) (h, b) /\
  Buf.write p n (h, b)
    = Ret (Status_BufferError Buf.not_owner_write_msg) (h, b) /\
  Buf.write_at p o n (h, b)
    = Ret (Status_BufferError Buf.not_owner_write_msg) (h, b) /\
  Buf.write_const (h, b, S)
    = Ret (Status_BufferError Buf.not_owner_write_msg) (h, b, S) /\
  Buf.write_const_n n (h, b, S)
    = Ret (Status_BufferError Buf.not_owner_write_msg) (h, b, S).
Proof.
  intros Ho.
  unfold Buf.realloc, Buf.write, Buf.write_at, Buf.write_const, Buf.write_const_n.
  rewrite Ho. repeat split.
Qed.

Lemma non_owner_untouched_witness :
  Buf.write sample_dst 1 (sample_heap, borrowed_buffer)
  = Ret (Status_BufferError Buf.not_owner_write_msg) (sample_heap, borrowed_buffer).
Proof.
  apply (non_owner_untouched sample_heap borrowed_buffer Base.new sample_dst 0 1).
  reflexivity.
Defined.

(** X17: ensure_alloced_size never reports Ok with too little capacity.
    On any buffer, whenever ensure_alloced_size(n) returns Ok the
    capacity is at least n afterwards and not below what it was, and
    size and offset are unchanged; this also holds where the
    doubling wraps around. *)
Theorem ensure_alloced_size_ok_means_room (h : heap) (b : Buffer) (n : Z)
    (h' : heap) (b' : Buffer) :
  Buf.ensure_alloced_size n (h, b) = Ret Status_Ok (h', b') ->
  n <= Buf.alloced_size b' /\
  Buf.alloced_size b <= Buf.alloced_size b' /\
  size_ (base b') = size_ (base b) /\
  offset_ (base b') = offset_ (base b).
Proof.
  unfold Buf.ensure_alloced_size.
  destruct (preallocated_ b && (Buf.alloced_size b <? n)) eqn:E1; [discriminate|].
  destruct (preallocated_ b || (n <=? Buf.alloced_size b)) eqn:E2.
  - intros [= <- <-]. repeat split; try lia.
    destruct (preallocated_ b); cbn in E1, E2.
    + apply Z.ltb_ge in E1. exact E1.
    + apply Z.leb_le in E2. exact E2.
  - apply orb_false_elim in E2 as [_ E2]. apply Z.leb_gt in E2.
    destruct (Buf.grow _ _ _) as [cap|] eqn:Eg; [|discriminate].
    assert (Hcap : n <= cap).
    { clear -Eg. revert Eg. generalize Buf.grow_fuel.
      generalize (if Buf.alloced_size b =? 0 then n else Buf.alloced_size b).
      intros c f. revert c. induction f as [|f IH]; intros c; cbn [Buf.grow];
        [discriminate|].
      destruct (c <? n) eqn:L; [apply IH|].
      apply Z.ltb_ge in L. intros [= <-]. exact L. }
    unfold Buf.realloc. destruct (negb (owns_data_ b)); [discriminate|].
    destruct (Buf.alloced_size b <? cap) eqn:E3.
    + destruct (Vec.resize cap h (vec_ b)) as [v1 h1|e h1| |] eqn:Er;
        try discriminate.
      intros [= <- <-]. cbn. apply Z.ltb_lt in E3.
      assert (Hsz : vsize v1 = cap).
      { unfold Vec.resize in Er. unfold Buf.alloced_size, Vec.size in E3.
        replace (cap <=? vsize (vec_ b)) with false in Er
          by (symmetry; apply Z.leb_gt; lia).
        destruct (Vec.max_size <? cap); [discriminate|].
        destruct (vstore (vec_ b)).
        - destruct (cells h !! b0); [|discriminate].
          destruct (cap <=? _); unfold heap_alloc in Er; injection Er as <- _;
            reflexivity.
        - unfold heap_alloc in Er. injection Er as <- _. reflexivity. }
      unfold Buf.alloced_size, Vec.size in *. cbn. rewrite Hsz.
      repeat split; lia.
    + intros [= <- <-]. apply Z.ltb_ge in E3. repeat split; lia.
Qed.

Lemma ensure_alloced_size_ok_means_room_witness :
  exists h' b',
    Buf.ensure_alloced_size 5 (sample_heap, one_byte_buffer) = Ret Status_Ok (h', b') /\
    5 <= Buf.alloced_size b'.
Proof.
  eexists _, _. split; [reflexivity|].
  eapply (ensure_alloced_size_ok_means_room sample_heap one_byte_buffer 5).
  reflexivity.
Defined.

Lemma clear_owner_wf h b : owner_wf h b -> owner_wf h (Buf.clear b).
Proof.
  intros (Ho & Hp & Hv & Hd & Hcur & Hcap).
  unfold Buf.clear. rewrite Ho, andb_true_r.
  unfold owner_wf, Buf.alloced_size, Vec.size in *.
  destruct (is_null (data_ (base b))) eqn:En; cbn.
  - assert (Hz : vsize (vec_ b) = 0).
    { destruct (Z.eq_dec (vsize (vec_ b)) 0) as [|Hnz]; [assumption|exfalso].
      pose proof (vec_wf_size _ _ Hv) as H0. unfold Vec.size in H0.
      rewrite Hd in En by lia. unfold Vec.data, vec_wf in *.
      destruct (vstore (vec_ b)); [discriminate|lia]. }
    repeat split; auto; lia.
  - repeat split; auto; try lia.
    unfold vec_wf in *. cbn. destruct (vstore (vec_ b)); [|reflexivity].
    destruct Hv as (l & Hl & Hsz). exists l. split; [exact Hl|lia].
Qed.

Lemma clear_alloced h b : owner_wf h b -> Buf.alloced_size (Buf.clear b) = 0.
Proof.
  intros (Ho & Hp & Hv & Hd & Hcur & Hcap).
  unfold Buf.clear. rewrite Ho, andb_true_r.
  unfold Buf.alloced_size, Vec.size in *.
  destruct (is_null (data_ (base b))) eqn:En; cbn; [|reflexivity].
  destruct (Z.eq_dec (vsize (vec_ b)) 0) as [|Hnz]; [assumption|exfalso].
  pose proof (vec_wf_size _ _ Hv) as H0. unfold Vec.size in H0.
  rewrite Hd in En by lia. unfold Vec.data, vec_wf in *.
  destruct (vstore (vec_ b)); [discriminate|lia].
Qed.

Lemma clear_base b : base (Buf.clear b) = mkBase nullptr 0 0.
Proof. unfold Buf.clear. destruct (negb _ && _); reflexivity. Qed.

Lemma clear_twice b : Buf.clear (Buf.clear b) = Buf.clear b.
Proof.
  unfold Buf.clear at 1. rewrite clear_base. cbn [data_ is_null negb andb].
  unfold Buf.clear. destruct (negb _ && _); reflexivity.
Qed.

Lemma clear_vstore b : vstore (vec_ (Buf.clear b)) = vstore (vec_ b).
Proof.
  unfold Buf.clear. destruct (negb _ && _); reflexivity.
Qed.

Lemma memcpy_next_block h dst src n h' :
  memcpy h dst src n = Some h' -> next_block h' = next_block h.
Proof.
  unfold memcpy. destruct (overlap dst src n); [discriminate|].
  destruct (load h src n); [|discriminate]. apply store_next_block.
Qed.

Lemma other_block_overlap p q n : other_block p q -> overlap p q n = false.
Proof.
  unfold other_block, overlap. destruct p as [|b o], q as [|b' o']; auto.
  intros Hne. replace (Pos.eqb b b') with false
    by (symmetry; apply Pos.eqb_neq; exact Hne).
  rewrite andb_false_r. reflexivity.
Qed.

Lemma other_block_add p q o : other_block p q -> other_block (ptr_add p o) q.
Proof. destruct p, q; auto. Qed.

Lemma other_block_sym p q : other_block p q -> other_block q p.
Proof. destruct p, q; cbn; auto. Qed.

(** A store in one block and a range in another. *)
Lemma store_far h p bs h' q n :
  store h p bs = Some h' -> other_block q p ->
  load h' q n = load h q n /\ valid h' q n = valid h q n.
Proof.
  intros Hs Ho.
  assert (Hc : forall b o, q = Ptr b o -> cells h' !! b = cells h !! b).
  { intros b o ->. eapply store_other_block; [exact Hs|].
    intros o' ->. cbn in Ho. congruence. }
  split; [apply load_same_cells|apply valid_same_cells]; exact Hc.
Qed.

Lemma memcpy_inv h dst src n h' :
  memcpy h dst src n = Some h' ->
  exists bs, load h src n = Some bs /\ store h dst bs = Some h'.
Proof.
  unfold memcpy. destruct (overlap dst src n); [discriminate|].
  destruct (load h src n) as [bs|]; [|discriminate]. eauto.
Qed.

(** X12: clear, and writing again.  clear() is idempotent.  On an owning,
    growable buffer in good order it leaves capacity 0, and the next
    write(src, n) of n >= 1 bytes, n at most max_size() = 2^63 - 1,
    returns Ok and gives a buffer of size n, offset n and capacity
    exactly n that holds the n bytes of src and nothing of what was
    there before. *)
Theorem clear_then_write (h : heap) (b : Buffer) (src : ptr) (n : Z) :
  heap_wf h -> owner_wf h b -> 0 < n <= Vec.max_size ->
  valid h src n = true -> apart src (vec_ b) ->
  Buf.clear (Buf.clear b) = Buf.clear b /\
  Buf.alloced_size (Buf.clear b) = 0 /\
  exists bs h' b',
    load h src n = Some bs /\
    Buf.write src n (h, Buf.clear b) = Ret Status_Ok (h', b') /\
    size_ (base b') = n /\ offset_ (base b') = n /\
    Buf.alloced_size b' = n /\
    contents h' (base b') = Some bs.
Proof.
  intros Hh Hwf Hn Hsrc Hap.
  split; [apply clear_twice|].
  split; [eapply clear_alloced; eauto|].
  pose proof (clear_owner_wf _ _ Hwf) as Hwf'.
  pose proof (clear_alloced _ _ Hwf) as Hz.
  assert (Hap' : 0 < n -> apart src (vec_ (Buf.clear b))).
  { intros _. unfold apart in *. rewrite clear_vstore. exact Hap. }
  assert (Hoff : offset_ (base (Buf.clear b)) = 0)
    by (rewrite clear_base; reflexivity).
  assert (Hsize : size_ (base (Buf.clear b)) = 0)
    by (rewrite clear_base; reflexivity).
  assert (Hroom : within_max_size (Buf.alloced_size (Buf.clear b))
                    (offset_ (base (Buf.clear b)) + n))
    by (apply within_max_size_first; [exact Hz|lia]).
  unfold Vec.max_size in Hn.
  destruct (write_step h (Buf.clear b) src n Hh Hwf' ltac:(lia) ltac:(lia) Hroom
              Hsrc Hap')
    as (cs & bs & h' & b' & Hcs & Hbs & Hw & Hof & Hsz & Hc & Hpol & _).
  rewrite Hoff, Hsize in *. rewrite Hz in Hpol.
  assert (Ecs : cs = []).
  { unfold contents in Hcs. rewrite Hsize in Hcs. cbn in Hcs. congruence. }
  subst cs. exists bs, h', b'.
  split; [exact Hbs|]. split; [exact Hw|]. split; [lia|]. split; [lia|]. split.
  - destruct Hpol as [[? _]|[(_ & _ & ->)|([? ?] & _)]]; lia.
  - rewrite Hc, take_nil, drop_nil, app_nil_r. reflexivity.
Qed.

Lemma clear_then_write_witness :
  exists h' b',
    Buf.write sample_dst 1 (sample_heap, Buf.clear eight_byte_buffer)
      = Ret Status_Ok (h', b') /\
    size_ (base b') = 1 /\ contents h' (base b') = Some [Byte.x00].
Proof.
  destruct (clear_then_write sample_heap eight_byte_buffer sample_dst 1)
    as (_ & _ & bs & h' & b' & H1 & H2 & H3 & _ & _ & H4).
  - exact sample_heap_wf.
  - exact eight_byte_buffer_wf.
  - unfold Vec.max_size. lia.
  - reflexivity.
  - cbn. discriminate.
  - exists h', b'. split; [exact H2|]. split; [exact H3|].
    rewrite H4. injection H1 as <-. reflexivity.
Defined.

(** X11: reset_size keeps the capacity for reuse.  On an owning, growable
    buffer in good order, reset_size() leaves size 0 and offset 0 with
    the vector untouched, and the next write(src, n) of n bytes up to
    the capacity returns Ok without allocating: the vector, the data
    pointer and the allocator's next block are those from before, and
    the buffer holds the n bytes of src. *)
Theorem reset_size_then_write (h : heap) (b : Buffer) (src : ptr) (n : Z) :
  heap_wf h -> owner_wf h b ->
  0 <= n <= Buf.alloced_size b -> n <= 2 ^ 63 ->
  valid h src n = true -> (0 < n -> apart src (vec_ b)) ->
  exists bs h' b',
    load h src n = Some bs /\
    Buf.write src n (h, Buf.reset_size b) = Ret Status_Ok (h', b') /\
    vec_ b' = vec_ b /\ data_ (base b') = data_ (base b) /\
    next_block h' = next_block h /\
    size_ (base b') = n /\ offset_ (base b') = n /\
    contents h' (base b') = Some bs.
Proof.
  intros Hh Hwf Hn Hfit Hsrc Hap.
  assert (Hwf' : owner_wf h (Buf.reset_size b)).
  { destruct Hwf as (Ho & Hp & Hv & Hd & Hcur & Hcap).
    unfold owner_wf, Buf.reset_size, Buf.alloced_size in *. cbn.
    repeat split; auto; lia. }
  set (r := Buf.reset_size b) in *.
  assert (Hr0 : offset_ (base r) = 0 /\ size_ (base r) = 0 /\
                Buf.alloced_size r = Buf.alloced_size b /\ vec_ r = vec_ b /\
                data_ (base r) = data_ (base b)) by (repeat split).
  destruct Hr0 as (Hro & Hrs & Hra & Hrv & Hrd).
  destruct (raw_write h r 0 n src Hh Hwf' ltac:(lia) ltac:(lia) ltac:(lia)
              ltac:(apply within_max_size_no_growth; lia) Hsrc Hap)
    as (cs & bs & h1 & b1 & h2 & Hcs & Hbs & Hens & Hmc & Hl & Hpol & Hs & Hof &
        Ho1 & Hp1 & Hd1 & Hmax & Hv2 & Hh2 & Hnb & Hfr & Hst).
  assert (Hsame : Buf.ensure_alloced_size (0 + n) (h, r) = Ret Status_Ok (h, r)).
  { unfold Buf.ensure_alloced_size.
    destruct Hwf' as (_ & -> & _). cbn [andb orb].
    replace (0 + n <=? Buf.alloced_size r) with true
      by (symmetry; apply Z.leb_le; lia).
    reflexivity. }
  rewrite Hsame in Hens. injection Hens as <- <-.
  pose proof pow63_lt_modulus as H63.
  destruct Hwf' as (Ho & _).
  exists bs, h2, (Buf.after_write n r).
  split; [exact Hbs|]. split.
  { unfold Buf.write. rewrite Ho. cbn [negb]. rewrite Hro.
    replace (U64.add 0 n) with (0 + n) by (symmetry; apply add_no_carry; lia).
    rewrite Hsame. cbn [RETURN_NOT_OK ok]. rewrite Hro, Hmc. reflexivity. }
  assert (Hadd : U64.add 0 n = n) by (rewrite add_no_carry; lia).
  unfold Buf.after_write, contents.
  cbn [base with_base with_size with_offset size_ offset_ data_ vec_].
  rewrite Hro, Hrs, Hadd.
  split; [exact Hrv|]. split; [exact Hrd|].
  split; [eapply memcpy_next_block; eauto|].
  split; [lia|]. split; [reflexivity|].
  rewrite Hrs in Hl. replace (Z.max (0 + n) 0) with (Z.max n 0) in Hl by lia.
  rewrite Hl. f_equal.
  assert (Ecs : cs = []).
  { unfold contents in Hcs. rewrite Hrs in Hcs. cbn in Hcs. congruence. }
  subst cs. rewrite take_nil, drop_nil, app_nil_r. reflexivity.
Qed.

Lemma reset_size_then_write_witness :
  exists h' b',
    Buf.write sample_dst 1 (sample_heap, Buf.reset_size eight_byte_buffer)
      = Ret Status_Ok (h', b') /\
    vec_ b' = vec_ eight_byte_buffer /\ contents h' (base b') = Some [Byte.x00].
Proof.
  destruct (reset_size_then_write sample_heap eight_byte_buffer sample_dst 1)
    as (bs & h' & b' & H1 & H2 & H3 & _ & _ & _ & _ & H4).
  - exact sample_heap_wf.
  - exact eight_byte_buffer_wf.
  - cbn. lia.
  - lia.
  - reflexivity.
  - intros _. cbn. discriminate.
  - exists h', b'. split; [exact H2|]. split; [exact H3|].
    rewrite H4. injection H1 as <-. reflexivity.
Defined.

Lemma load_app h p a c w :
  load h p (a + c) = Some w -> 0 <= a -> 0 <= c ->
  exists w1 w2,
    load h p a = Some w1 /\ load h (ptr_add p a) c = Some w2 /\ w = w1 ++ w2.
Proof.
  intros Hw Ha Hc.
  assert (Hp : 0 <= a <= a + c) by lia.
  assert (Hq : a + c <= a + c) by lia.
  assert (Hr : 0 <= a + c) by lia.
  pose proof (load_prefix _ _ _ _ a Hw Hp) as H1.
  pose proof (load_inside _ _ _ _ a c Hw Ha Hc Hq) as H2.
  eexists _, _. split; [exact H1|]. split; [exact H2|].
  pose proof (load_length _ _ _ _ Hr Hw) as Hlen.
  rewrite <- (take_drop (Z.to_nat a) w) at 1. f_equal.
  symmetry. apply take_ge. rewrite length_drop. lia.
Qed.

(** X5: the bounds test of the positional read, as it is computed.  With
    uint64 arguments, read(dst, o, n) returns the buffer error exactly
    when n exceeds size - o taken modulo 2^64: for o <= size that is
    n > size - o, and for o > size it is n > 2^64 - (o - size).  On the
    error the store and the buffer are as before.  For o + n <= size and
    ranges in memory it returns Ok, dst holds the n bytes at o, and the
    buffer, with its offset, is as before. *)
Theorem read_at_bounds (h : heap) (b : BufferBase) (dst : ptr) (o n : Z) :
  U64.in_range (size_ b) -> U64.in_range o -> U64.in_range n ->
  ((exists s', Base.read_at dst o n (h, b)
               = Ret (Status_BufferError Base.overflow_msg) s') <->
   (if o <=? size_ b then size_ b - o < n
    else U64.modulus - (o - size_ b) < n)) /\
  (forall st s', Base.read_at dst o n (h, b) = Ret st s' ->
                 ok st = false -> s' = (h, b)) /\
  (o + n <= size_ b ->
   valid h (ptr_add (data_ b) o) n = true -> valid h dst n = true ->
   overlap dst (ptr_add (data_ b) o) n = false ->
   exists bs h',
     load h (ptr_add (data_ b) o) n = Some bs /\
     Base.read_at dst o n (h, b) = Ret Status_Ok (h', b) /\
     load h' dst n = Some bs).
Proof.
  intros Hs Ho Hn. unfold U64.in_range in *.
  assert (Hsub : U64.sub (size_ b) o
                 = if o <=? size_ b then size_ b - o
                   else U64.modulus - (o - size_ b)).
  { unfold U64.sub, U64.wrap. destruct (o <=? size_ b) eqn:E.
    - apply Z.leb_le in E. apply Z.mod_small. lia.
    - apply Z.leb_gt in E.
      replace (size_ b - o) with (U64.modulus - (o - size_ b) + (-1) * U64.modulus)
        by ring.
      rewrite Z.mod_add by (unfold U64.modulus; lia).
      apply Z.mod_small. lia. }
  unfold Base.read_at. rewrite Hsub.
  split; [|split].
  - destruct (o <=? size_ b); 
      match goal with |- context [?x <? n] => destruct (x <? n) eqn:E end;
      (apply Z.ltb_lt in E || apply Z.ltb_ge in E);
      (split; [intros (s' & Hr)|intros Hlt]); eauto; try lia;
      destruct (memcpy _ _ _ _); discriminate.
  - intros st s'.
    match goal with |- context [?x <? n] => destruct (x <? n) end.
    + intros [= <- <-]. reflexivity.
    + destruct (memcpy _ _ _ _); [|discriminate].
      intros [= <- <-]. discriminate.
  - intros Hle Hsrc Hdst Hov.
    replace (o <=? size_ b) with true by (symmetry; apply Z.leb_le; lia).
    replace (size_ b - o <? n) with false by (symmetry; apply Z.ltb_ge; lia).
    destruct (memcpy_spec h dst _ n (proj1 Hn) Hsrc Hdst Hov)
      as (bs & h' & Hl & Hm & Hl').
    exists bs, h'. rewrite Hm. auto.
Qed.

Lemma read_at_bounds_witness :
  exists h',
    Base.read_at sample_dst 2 1 (sample_heap, mkBase sample_data 4 0)
      = Ret Status_Ok (h', mkBase sample_data 4 0) /\
    load h' sample_dst 1 = Some [Byte.x03].
Proof.
  destruct (read_at_bounds sample_heap (mkBase sample_data 4 0) sample_dst 2 1)
    as (_ & _ & H); [bounds..|].
  destruct H as (bs & h' & H1 & H2 & H3); [cbn; lia|reflexivity..|].
  exists h'. split; [exact H2|]. rewrite H3. rewrite <- H1. reflexivity.
Defined.

(** X18: two writes into a preallocated fixed buffer.  With the cursor
    inside a region that is in memory, sources in other blocks, and
    a + c bytes of room, write(src1, a) and then write(src2, c) both
    return Ok; the offset has advanced by a + c, free_space() has gone
    down by a + c, and the a + c bytes from the old cursor on are those
    of src1 followed by those of src2. *)
Theorem prealloc_writes_accumulate (h : heap) (b : BufferBase)
    (src1 src2 : ptr) (a c : Z) :
  cursor_ok b -> U64.in_range (size_ b) ->
  0 <= a -> 0 <= c -> a + c <= size_ b - offset_ b ->
  valid h (data_ b) (size_ b) = true ->
  valid h src1 a = true -> valid h src2 c = true ->
  other_block src1 (data_ b) -> other_block src2 (data_ b) ->
  exists bs1 bs2 h1 b1 h2 b2,
    load h src1 a = Some bs1 /\ load h src2 c = Some bs2 /\
    Prealloc.write src1 a (h, b) = Ret Status_Ok (h1, b1) /\
    Prealloc.write src2 c (h1, b1) = Ret Status_Ok (h2, b2) /\
    offset_ b2 = offset_ b + a + c /\
    Prealloc.free_space b2 = Prealloc.free_space b - (a + c) /\
    load h2 (ptr_add (data_ b) (offset_ b)) (a + c) = Some (bs1 ++ bs2).
Proof.
  intros Hc Hs Ha Hcc Hroom Hreg Hv1 Hv2 Ho1 Ho2.
  unfold cursor_ok, U64.in_range in *.
  assert (Hs0 : 0 <= size_ b) by lia.
  destruct (load_of_valid_length _ _ _ Hs0 Hreg) as (W & HW & HWlen).
  destruct (load_of_valid_length _ _ _ Ha Hv1) as (bs1 & Hb1 & Hl1).
  destruct (load_of_valid_length _ _ _ Hcc Hv2) as (bs2 & Hb2 & Hl2).
  (* first write *)
  assert (Hd1 : valid h (ptr_add (data_ b) (offset_ b)) (Z.of_nat (length bs1)) = true)
    by (rewrite Hl1; eapply valid_of_load; [exact HW| | |]; lia).
  destruct (store_valid _ _ _ Hd1) as (h1 & Hst1 & _).
  assert (Hm1 : memcpy h (ptr_add (data_ b) (offset_ b)) src1 a = Some h1).
  { unfold memcpy. rewrite other_block_overlap, Hb1; [exact Hst1|].
    apply other_block_add, other_block_sym. exact Ho1. }
  assert (HW1 : load h1 (data_ b) (size_ b)
                = Some (take (Z.to_nat (offset_ b)) W ++ bs1 ++
                        drop (Z.to_nat (offset_ b) + length bs1) W)).
  { eapply load_after_store; [exact HW| | |exact Hst1]; lia. }
  set (W1 := take (Z.to_nat (offset_ b)) W ++ bs1 ++
             drop (Z.to_nat (offset_ b) + length bs1) W) in *.
  destruct (store_far _ _ _ _ src2 c Hst1) as [Hb2' Hv2'].
  { apply other_block_sym, other_block_add, other_block_sym. exact Ho2. }
  rewrite Hb2 in Hb2'. rewrite Hv2 in Hv2'.
  (* second write *)
  assert (Hd2 : valid h1 (ptr_add (data_ b) (offset_ b + a)) (Z.of_nat (length bs2)) = true)
    by (rewrite Hl2; eapply valid_of_load; [exact HW1| | |]; lia).
  destruct (store_valid _ _ _ Hd2) as (h2 & Hst2 & _).
  assert (Hm2 : memcpy h1 (ptr_add (data_ b) (offset_ b + a)) src2 c = Some h2).
  { unfold memcpy. rewrite other_block_overlap, Hb2'; [exact Hst2|].
    apply other_block_add, other_block_sym. exact Ho2. }
  assert (HW2 : load h2 (data_ b) (size_ b)
                = Some (take (Z.to_nat (offset_ b + a)) W1 ++ bs2 ++
                        drop (Z.to_nat (offset_ b + a) + length bs2) W1)).
  { eapply load_after_store; [exact HW1| | |exact Hst2]; lia. }
  exists bs1, bs2, h1, (with_offset (offset_ b + a) b), h2,
         (with_offset (offset_ b + a + c) b).
  split; [exact Hb1|]. split; [exact Hb2|]. split.
  { unfold Prealloc.write. rewrite sub_no_borrow by (unfold U64.in_range; lia).
    replace (size_ b - offset_ b <? a) with false by (symmetry; apply Z.ltb_ge; lia).
    rewrite Hm1, add_no_carry by lia. reflexivity. }
  split.
  { unfold Prealloc.write. cbn [size_ offset_ data_ with_offset].
    rewrite sub_no_borrow by (unfold U64.in_range; lia).
    replace (size_ b - (offset_ b + a) <? c) with false
      by (symmetry; apply Z.ltb_ge; lia).
    rewrite Hm2, add_no_carry by lia. reflexivity. }
  split; [reflexivity|]. split.
  { unfold Prealloc.free_space. cbn [size_ offset_ with_offset].
    rewrite !sub_no_borrow by (unfold U64.in_range; lia). lia. }
  rewrite (load_inside _ _ _ _ (offset_ b) (a + c) HW2) by lia. f_equal.
  assert (Hto : length (take (Z.to_nat (offset_ b)) W) = Z.to_nat (offset_ b))
    by (rewrite length_take; lia).
  assert (HW1a : take (Z.to_nat (offset_ b + a)) W1
                 = take (Z.to_nat (offset_ b)) W ++ bs1).
  { unfold W1. rewrite app_assoc. apply take_app_length'.
    rewrite length_app. lia. }
  rewrite HW1a, <- app_assoc.
  rewrite drop_app_length' by (symmetry; exact Hto).
  rewrite app_assoc. apply take_app_length'. rewrite length_app. lia.
Qed.

Lemma prealloc_writes_accumulate_witness :
  exists h2 b2,
    (exists h1 b1,
       Prealloc.write (payload_at 0) 10
         (region16_heap, Prealloc.of_region (Ptr 1%positive 0) 16)
         = Ret Status_Ok (h1, b1) /\
       Prealloc.write (payload_at 10) 6 (h1, b1) = Ret Status_Ok (h2, b2)) /\
    load h2 (Ptr 1%positive 0) 16 = Some payload16.
Proof.
  destruct (prealloc_writes_accumulate region16_heap
              (Prealloc.of_region (Ptr 1%positive 0) 16)
              (payload_at 0) (payload_at 10) 10 6)
    as (bs1 & bs2 & h1 & b1 & h2 & b2 & H1 & H2 & H3 & H4 & _ & _ & H5).
  - bounds.
  - bounds.
  - lia.
  - lia.
  - cbn. lia.
  - reflexivity.
  - reflexivity.
  - reflexivity.
  - cbn. discriminate.
  - cbn. discriminate.
  - exists h2, b2. split; [exists h1, b1; auto|].
    injection H1 as <-. injection H2 as <-. exact H5.
Defined.

Lemma ptr_add_add p x y : ptr_add (ptr_add p x) y = ptr_add p (x + y).
Proof. destruct p; cbn; [reflexivity|]. f_equal. lia. Qed.

(** X6: two reads in a row.  On a buffer with offset <= size and a + c
    bytes left, with the destinations in blocks of their own,
    read(dst1, a) and then read(dst2, c) both return Ok, the offset has
    advanced by a + c, and dst1 followed by dst2 hold the a + c bytes
    that were at the cursor, in order. *)
Theorem reads_concatenate (h : heap) (b : BufferBase) (dst1 dst2 : ptr) (a c : Z) :
  cursor_ok b -> U64.in_range (size_ b) ->
  0 <= a -> 0 <= c -> a + c <= size_ b - offset_ b ->
  valid h (ptr_add (data_ b) (offset_ b)) (a + c) = true ->
  valid h dst1 a = true -> valid h dst2 c = true ->
  other_block dst1 (data_ b) -> other_block dst2 (data_ b) ->
  other_block dst1 dst2 ->
  exists w1 w2 h1 b1 h2 b2,
    load h (ptr_add (data_ b) (offset_ b)) (a + c) = Some (w1 ++ w2) /\
    Base.read dst1 a (h, b) = Ret Status_Ok (h1, b1) /\
    Base.read dst2 c (h1, b1) = Ret Status_Ok (h2, b2) /\
    offset_ b2 = offset_ b + a + c /\
    load h2 dst1 a = Some w1 /\ load h2 dst2 c = Some w2.
Proof.
  intros Hc Hs Ha Hcc Hroom Hsrc Hv1 Hv2 Ho1 Ho2 Ho12.
  unfold cursor_ok, U64.in_range in *.
  assert (Hac : 0 <= a + c) by lia.
  destruct (load_of_valid_length _ _ _ Hac Hsrc) as (w & Hw & Hwlen).
  destruct (load_app _ _ _ _ _ Hw Ha Hcc) as (w1 & w2 & Hw1 & Hw2 & ->).
  rewrite ptr_add_add in Hw2.
  pose proof (load_length _ _ _ _ Ha Hw1) as Hl1.
  pose proof (load_length _ _ _ _ Hcc Hw2) as Hl2.
  (* first read *)
  rewrite <- Hl1 in Hv1.
  destruct (store_valid _ _ _ Hv1) as (h1 & Hst1 & Hld1). rewrite Hl1 in Hld1.
  assert (Hm1 : memcpy h dst1 (ptr_add (data_ b) (offset_ b)) a = Some h1).
  { unfold memcpy. rewrite other_block_overlap, Hw1; [exact Hst1|].
    apply other_block_sym, other_block_add, other_block_sym. exact Ho1. }
  destruct (store_far _ _ _ _ (ptr_add (data_ b) (offset_ b + a)) c Hst1) as [Hw2' _].
  { apply other_block_add, other_block_sym. exact Ho1. }
  rewrite Hw2 in Hw2'.
  destruct (store_far _ _ _ _ dst2 c Hst1) as [_ Hv2'].
  { apply other_block_sym. exact Ho12. }
  rewrite Hv2, <- Hl2 in Hv2'.
  (* second read *)
  destruct (store_valid _ _ _ Hv2') as (h2 & Hst2 & Hld2). rewrite Hl2 in Hld2.
  assert (Hm2 : memcpy h1 dst2 (ptr_add (data_ b) (offset_ b + a)) c = Some h2).
  { unfold memcpy. rewrite other_block_overlap, Hw2'; [exact Hst2|].
    apply other_block_sym, other_block_add, other_block_sym. exact Ho2. }
  destruct (store_far _ _ _ _ dst1 a Hst2) as [Hld1' _]; [exact Ho12|].
  rewrite Hld1 in Hld1'.
  exists w1, w2, h1, (with_offset (offset_ b + a) b), h2,
         (with_offset (offset_ b + a + c) b).
  split; [exact Hw|]. split.
  { unfold Base.read. rewrite sub_no_borrow by (unfold U64.in_range; lia).
    replace (size_ b - offset_ b <? a) with false by (symmetry; apply Z.ltb_ge; lia).
    rewrite Hm1, add_no_carry by lia. reflexivity. }
  split.
  { unfold Base.read. cbn [size_ offset_ data_ with_offset].
    rewrite sub_no_borrow by (unfold U64.in_range; lia).
    replace (size_ b - (offset_ b + a) <? c) with false
      by (symmetry; apply Z.ltb_ge; lia).
    rewrite Hm2, add_no_carry by lia. reflexivity. }
  split; [reflexivity|]. split; [exact Hld1'|exact Hld2].
Qed.

Lemma reads_concatenate_witness :
  exists h2 b2,
    (exists h1 b1,
       Base.read (Ptr 2%positive 0) 2 (scatter_heap, mkBase (Ptr 1%positive 0) 16 3)
         = Ret Status_Ok (h1, b1) /\
       Base.read (Ptr 3%positive 1) 3 (h1, b1) = Ret Status_Ok (h2, b2)) /\
    offset_ b2 = 8 /\
    load h2 (Ptr 2%positive 0) 2 = Some [Byte.x13; Byte.x14] /\
    load h2 (Ptr 3%positive 1) 3 = Some [Byte.x15; Byte.x16; Byte.x17].
Proof.
  destruct (reads_concatenate scatter_heap (mkBase (Ptr 1%positive 0) 16 3)
              (Ptr 2%positive 0) (Ptr 3%positive 1) 2 3)
    as (w1 & w2 & h1 & b1 & h2 & b2 & H0 & H1 & H2 & H3 & H4 & H5).
  - bounds.
  - bounds.
  - lia.
  - lia.
  - cbn. lia.
  - reflexivity.
  - reflexivity.
  - reflexivity.
  - cbn. discriminate.
  - cbn. discriminate.
  - cbn. discriminate.
  - exists h2, b2. split; [exists h1, b1; auto|]. split; [exact H3|].
    assert (E0 : load scatter_heap (ptr_add (data_ (mkBase (Ptr 1%positive 0) 16 3))
                                      (offset_ (mkBase (Ptr 1%positive 0) 16 3))) (2 + 3)
                 = Some [Byte.x13; Byte.x14; Byte.x15; Byte.x16; Byte.x17])
      by reflexivity.
    rewrite E0 in H0. injection H0 as E. symmetry in E.
    assert (Htwo : 0 <= 2) by lia.
    pose proof (load_length _ _ _ _ Htwo H4) as L1.
    destruct w1 as [|x1 [|x2 [|]]]; cbn in L1; try lia.
    cbn in E. injection E as -> -> <-. split; assumption.
Defined.

(** The copy of an owning buffer with storage, spelled out. *)
Lemma copy_owner h buff :
  heap_wf h -> owner_wf h buff -> 0 < Buf.alloced_size buff ->
  exists vb l cs,
    vstore (vec_ buff) = Some vb /\ cells h !! vb = Some l /\
    (vb < next_block h)%positive /\
    data_ (base buff) = Ptr vb 0 /\
    contents h (base buff) = Some cs /\
    cs = take (Z.to_nat (size_ (base buff))) l /\
    Buf.copy h buff
    = Ret (mkBuffer
             (mkBase (Ptr (next_block h) 0) (size_ (base buff)) (offset_ (base buff)))
             (mkVec (Some (next_block h)) (vsize (vec_ buff))) true false)
          (Heap (<[next_block h := take (Z.to_nat (vsize (vec_ buff))) l]> (cells h))
                (Pos.succ (next_block h))).
Proof.
  intros Hh Hwf Hcap0.
  destruct (contents_of_owner _ _ Hwf) as (old & cs & Hold & Holdlen & Hcs & Ecs).
  destruct Hwf as (Ho & Hp & Hv & Hd & Hcur & Hcap).
  specialize (Hd Hcap0).
  unfold vec_wf in Hv. unfold Buf.alloced_size, Vec.size in *.
  unfold Vec.data in Hd, Hold.
  destruct (vstore (vec_ buff)) as [vb|] eqn:Evb; [|lia].
  destruct Hv as (l & Hl & Hsz).
  exists vb, l, cs. split; [reflexivity|]. split; [exact Hl|].
  split; [eapply Hh; eauto|]. split; [exact Hd|]. split; [exact Hcs|]. split.
  { rewrite (load_at_start _ _ _ _ Hl) in Hold by lia.
    injection Hold as <-. subst cs. rewrite take_take. f_equal. lia. }
  unfold Buf.copy, Vec.copy.
  replace (vsize (vec_ buff) =? 0) with false by (symmetry; apply Z.eqb_neq; lia).
  rewrite Evb, Hl. unfold heap_alloc. rewrite Ho, Hp, Hd. reflexivity.
Qed.

Lemma write_const_n_agrees h B S n :
  owns_data_ B = true ->
  cursor_ok S -> U64.in_range (size_ S) ->
  0 <= n <= size_ S - offset_ S ->
  Buf.write_const_n n (h, B, S)
  = match Buf.write (ptr_add (data_ S) (offset_ S)) n (h, B) with
    | Ret Status_Ok (h', B') =>
        Ret Status_Ok (h', B', with_offset (offset_ S + n) S)
    | Ret st (h', B') => Ret st (h', B', S)
    | Throw e (h', B') => Throw e (h', B', S)
    | Undefined => Undefined
    | Diverges => Diverges
    end.
Proof.
  intros Ho Hc Hs Hn. unfold Buf.write_const_n, Buf.write. rewrite Ho. cbn [negb].
  destruct (Buf.ensure_alloced_size _ _) as [st [h1 B1]|e [h1 B1]| |];
    cbn [Buf.within RETURN_NOT_OK]; try reflexivity.
  destruct (ok st) eqn:Est.
  - destruct st; try discriminate. cbn [ok].
    unfold Base.read. rewrite (sub_no_borrow _ _ Hc Hs).
    replace (size_ S - offset_ S <? n) with false by (symmetry; apply Z.ltb_ge; lia).
    destruct (memcpy _ _ _ _); cbn [Buf.within RETURN_NOT_OK ok]; [|reflexivity].
    unfold cursor_ok, U64.in_range in *. rewrite add_no_carry by lia. reflexivity.
  - destruct st; try discriminate; reflexivity.
Qed.

Lemma new_owner_wf h : owner_wf h Buf.new.
Proof.
  unfold owner_wf, vec_wf, Buf.alloced_size. cbn. repeat split; auto; lia.
Qed.

(** X19: copy assignment replaces the destination.  For two owning,
    growable buffers in good order with storage of their own, the source
    having storage, this = buff returns; afterwards this has the size,
    the offset and the bytes of buff in a block of its own, buff holds
    what it held, and the block that was the storage of this is no
    longer in the store. *)
Theorem copy_assign_replaces (h : heap) (this buff : Buffer) :
  heap_wf h -> owner_wf h this -> owner_wf h buff ->
  0 < Buf.alloced_size buff ->
  vstore (vec_ this) <> vstore (vec_ buff) ->
  exists cs h' this',
    contents h (base buff) = Some cs /\
    Buf.copy_assign buff (h, this) = Ret tt (h', this') /\
    contents h' (base this') = Some cs /\
    contents h' (base buff) = Some cs /\
    size_ (base this') = size_ (base buff) /\
    offset_ (base this') = offset_ (base buff) /\
    other_block (data_ (base this')) (data_ (base buff)) /\
    (forall blk, vstore (vec_ this) = Some blk -> cells h' !! blk = None).
Proof.
  intros Hh Hwt Hwb Hcap0 Hne.
  destruct (copy_owner h buff Hh Hwb Hcap0)
    as (vb & l & cs & Evb & Hl & Hlt & Hd & Hcs & Ecs & Hcopy).
  pose proof Hwb as (_ & _ & _ & _ & Hcur & Hcap).
  unfold Buf.alloced_size, Vec.size in *.
  set (nb := next_block h) in *.
  set (L := take (Z.to_nat (vsize (vec_ buff))) l) in *.
  assert (Hold : forall blk, vstore (vec_ this) = Some blk ->
                             (blk < nb)%positive /\ blk <> vb).
  { intros blk E. destruct Hwt as (_ & _ & Hv & _). unfold vec_wf in Hv.
    rewrite E in Hv. destruct Hv as (l' & Hl' & _). split; [eapply Hh; eauto|].
    intros ->. rewrite E, Evb in Hne. congruence. }
  unfold Buf.copy_assign. rewrite Hcopy. cbn [Buf.swap].
  cbn [base vec_ data_ size_ offset_ owns_data_ preallocated_].
  eexists cs, _, _. split; [exact Hcs|]. split; [reflexivity|].
  cbn [base data_ size_ offset_].
  unfold Vec.destroy. rewrite clear_vstore.
  assert (HLcs : take (Z.to_nat (size_ (base buff))) L = cs).
  { subst cs. unfold L. rewrite take_take. f_equal. lia. }
  assert (HlenL : Z.of_nat (length L) = vsize (vec_ buff)).
  { unfold L. rewrite length_take.
    destruct Hwb as (_ & _ & Hv & _). unfold vec_wf in Hv. rewrite Evb in Hv.
    destruct Hv as (l' & Hl' & Hsz). rewrite Hl in Hl'. injection Hl' as <-. lia. }
  destruct (vstore (vec_ this)) as [tb|] eqn:Etb.
  - destruct (Hold tb eq_refl) as [Htb Htbvb].
    assert (Hnb : cells (heap_free tb (Heap (<[nb:=L]> (cells h)) (Pos.succ nb))) !! nb
                  = Some L).
    { unfold heap_free. cbn [cells]. rewrite lookup_delete_ne by lia.
      apply lookup_insert_eq. }
    assert (Hvb : cells (heap_free tb (Heap (<[nb:=L]> (cells h)) (Pos.succ nb))) !! vb
                  = Some l).
    { unfold heap_free. cbn [cells]. rewrite lookup_delete_ne by congruence.
      rewrite lookup_insert_ne by lia. exact Hl. }
    split.
    { unfold contents. cbn [data_ size_].
      rewrite (load_at_start _ _ _ _ Hnb) by lia. congruence. }
    split.
    { unfold contents. rewrite Hd.
      destruct Hwb as (_ & _ & Hv & _). unfold vec_wf in Hv. rewrite Evb in Hv.
      destruct Hv as (l' & Hl' & Hsz). rewrite Hl in Hl'. injection Hl' as <-.
      rewrite (load_at_start _ _ _ _ Hvb) by lia. congruence. }
    split; [reflexivity|]. split; [reflexivity|]. split.
    { rewrite Hd. cbn. lia. }
    intros blk [= <-]. unfold heap_free. cbn [cells]. apply lookup_delete_eq.
  - assert (Hnb : cells (Heap (<[nb:=L]> (cells h)) (Pos.succ nb)) !! nb = Some L)
      by (cbn [cells]; apply lookup_insert_eq).
    assert (Hvb : cells (Heap (<[nb:=L]> (cells h)) (Pos.succ nb)) !! vb = Some l)
      by (cbn [cells]; rewrite lookup_insert_ne by lia; exact Hl).
    split.
    { unfold contents. cbn [data_ size_].
      rewrite (load_at_start _ _ _ _ Hnb) by lia. congruence. }
    split.
    { unfold contents. rewrite Hd.
      destruct Hwb as (_ & _ & Hv & _). unfold vec_wf in Hv. rewrite Evb in Hv.
      destruct Hv as (l' & Hl' & Hsz). rewrite Hl in Hl'. injection Hl' as <-.
      rewrite (load_at_start _ _ _ _ Hvb) by lia. congruence. }
    split; [reflexivity|]. split; [reflexivity|]. split.
    { rewrite Hd. cbn. lia. }
    intros blk [=].
Qed.

Lemma copy_assign_replaces_witness :
  exists h' this',
    Buf.copy_assign eight_byte_buffer (sample_heap, one_byte_buffer)
      = Ret tt (h', this') /\
    contents h' (base this') = contents sample_heap (base eight_byte_buffer) /\
    cells h' !! 2%positive = None.
Proof.
  destruct (copy_assign_replaces sample_heap one_byte_buffer eight_byte_buffer)
    as (cs & h' & this' & H1 & H2 & H3 & _ & _ & _ & _ & H4).
  - exact sample_heap_wf.
  - unfold owner_wf, vec_wf, Buf.alloced_size, Vec.size. cbn.
    repeat split; try lia; try reflexivity.
    eexists. split; [reflexivity|]. cbn. lia.
  - exact eight_byte_buffer_wf.
  - cbn. lia.
  - cbn. discriminate.
  - exists h', this'. split; [exact H2|]. split; [congruence|].
    apply H4. reflexivity.
Defined.

(** X20: a moved-from buffer can be used again.  After the move
    constructor has taken an owning, growable buffer in good order, a
    write(src, n) of n >= 1 bytes, n at most max_size() = 2^63 - 1, on
    what is left of the source returns Ok and gives it those n bytes in
    storage of its own, and the buffer that was constructed still holds
    the bytes the source held. *)
Theorem moved_from_is_reusable (h : heap) (buff : Buffer) (src : ptr) (n : Z) :
  heap_wf h -> owner_wf h buff -> 0 < n <= Vec.max_size ->
  valid h src n = true ->
  exists cs bs h' rest',
    contents h (base buff) = Some cs /\
    load h src n = Some bs /\
    Buf.write src n (h, snd (Buf.move buff)) = Ret Status_Ok (h', rest') /\
    size_ (base rest') = n /\
    contents h' (base rest') = Some bs /\
    contents h' (base (fst (Buf.move buff))) = Some cs.
Proof.
  intros Hh Hwf Hn Hsrc.
  destruct (contents_of_owner _ _ Hwf) as (old & cs & Hold & Holdlen & Hcs & Ecs).
  pose proof Hwf as (Ho & Hp & Hv & Hd & Hcur & Hcap).
  set (rest := snd (Buf.move buff)).
  assert (Hrest : rest = mkBuffer (mkBase nullptr 0 0) Vec.empty true false).
  { unfold rest. destruct buff as [[d s o] v ow pr]. cbn in Ho, Hp.
    subst ow pr. reflexivity. }
  assert (Hnew : fst (Buf.move buff) = buff) by (destruct buff as [[? ? ?] ? ? ?]; reflexivity).
  assert (Hwr : owner_wf h rest) by (rewrite Hrest; apply new_owner_wf).
  assert (Hroom : within_max_size (Buf.alloced_size rest) (offset_ (base rest) + n)).
  { rewrite Hrest. apply within_max_size_first; [reflexivity|cbn; lia]. }
  unfold Vec.max_size in Hn.
  destruct (write_step h rest src n Hh Hwr ltac:(lia))
    as (cs0 & bs & h' & rest' & Hcs0 & Hbs & Hw & Hof & Hsz & Hc & _ & _ & _ & _ & Hfr & _).
  - rewrite Hrest. cbn. lia.
  - exact Hroom.
  - exact Hsrc.
  - intros _. rewrite Hrest. unfold apart. cbn. destruct src; exact I.
  - exists cs, bs, h', rest'. split; [exact Hcs|]. split; [exact Hbs|].
    split; [exact Hw|]. rewrite Hrest in Hsz, Hc, Hcs0, Hfr. cbn in Hsz.
    split; [lia|]. split.
    + rewrite Hc. cbn in Hcs0. injection Hcs0 as <-.
      rewrite take_nil, drop_nil, app_nil_r. reflexivity.
    + rewrite Hnew, <- Hcs. unfold contents.
      destruct (Z.eq_dec (size_ (base buff)) 0) as [E|E]; [rewrite E; reflexivity|].
      unfold Buf.alloced_size, Vec.size in *.
      rewrite Hd by lia. unfold Vec.data. unfold vec_wf in Hv.
      destruct (vstore (vec_ buff)) as [vb|]; [|reflexivity].
      destruct Hv as (l & Hl & _).
      apply load_same_cells. intros ? ? [= <- <-].
      apply Hfr; [discriminate|eapply Hh; eauto].
Qed.

Lemma moved_from_is_reusable_witness :
  exists h' rest',
    Buf.write sample_dst 1 (sample_heap, snd (Buf.move eight_byte_buffer))
      = Ret Status_Ok (h', rest') /\
    contents h' (base rest') = Some [Byte.x00] /\
    contents h' (base (fst (Buf.move eight_byte_buffer)))
      = contents sample_heap (base eight_byte_buffer).
Proof.
  destruct (moved_from_is_reusable sample_heap eight_byte_buffer sample_dst 1)
    as (cs & bs & h' & rest' & H1 & H2 & H3 & _ & H4 & H5).
  - exact sample_heap_wf.
  - exact eight_byte_buffer_wf.
  - unfold Vec.max_size. lia.
  - reflexivity.
  - exists h', rest'. split; [exact H3|]. split; [|congruence].
    rewrite H4. injection H2 as <-. reflexivity.
Defined.

(** X21: streaming a buffer into a new one through a view.  For an
    owning, growable buffer in good order of at most max_size() =
    2^63 - 1 bytes, a ConstBuffer made from it and written whole into a
    new buffer with write(&S, size) returns Ok: the new buffer has the
    same size and the same bytes, the view is at its end, and the first
    buffer holds what it held. *)
Theorem stream_through_view (h : heap) (B1 : Buffer) :
  heap_wf h -> owner_wf h B1 -> size_ (base B1) <= Vec.max_size ->
  exists cs h' B2 S',
    contents h (base B1) = Some cs /\
    Buf.write_const_n (size_ (base B1)) (h, Buf.new, Const_of_buffer B1)
      = Ret Status_Ok (h', B2, S') /\
    size_ (base B2) = size_ (base B1) /\
    contents h' (base B2) = Some cs /\
    Base.end_ S' = true /\
    contents h' (base B1) = Some cs.
Proof.
  intros Hh Hwf Hfit.
  destruct (contents_of_owner _ _ Hwf) as (old & cs & Hold & Holdlen & Hcs & Ecs).
  pose proof Hwf as (Ho & Hp & Hv & Hd & Hcur & Hcap).
  pose proof pow63_lt_modulus as H63.
  set (n := size_ (base B1)) in *.
  assert (Hroom : within_max_size (Buf.alloced_size Buf.new)
                    (offset_ (base Buf.new) + n))
    by (apply within_max_size_first; [reflexivity|cbn; lia]).
  unfold Vec.max_size in Hfit.
  set (S := Const_of_buffer B1).
  assert (HS : data_ S = data_ (base B1) /\ size_ S = n /\ offset_ S = 0)
    by (repeat split).
  destruct HS as (HSd & HSs & HSo).
  assert (Hn0 : 0 <= n) by lia.
  assert (Hlencs : Z.of_nat (length cs) = n)
    by (unfold contents in Hcs; eapply load_length; eauto).
  assert (Hsrcl : load h (ptr_add (data_ S) (offset_ S)) n = Some cs).
  { rewrite HSd, HSo. unfold contents in Hcs. fold n in Hcs.
    rewrite (load_inside _ _ _ _ 0 n Hcs) by lia.
    f_equal. cbn [Z.to_nat drop]. apply take_ge. lia. }
  assert (Hsrcv : valid h (ptr_add (data_ S) (offset_ S)) n = true).
  { rewrite HSd, HSo. unfold contents in Hcs. fold n in Hcs.
    eapply valid_of_load; [exact Hcs| | |]; lia. }
  rewrite (write_const_n_agrees h Buf.new S n eq_refl);
    [|unfold cursor_ok; lia|unfold U64.in_range; lia|lia].
  destruct (write_step h Buf.new _ n Hh (new_owner_wf h) Hn0 ltac:(cbn; lia) Hroom
              Hsrcv
              ltac:(intros _; unfold apart; cbn; destruct (ptr_add _ _); exact I))
    as (cs0 & bs & h' & B2 & Hcs0 & Hbs & Hw & Hof & Hsz & Hc & _ & _ & _ & _ & Hfr & _).
  rewrite Hw. rewrite Hsrcl in Hbs. injection Hbs as <-.
  cbn in Hcs0. injection Hcs0 as <-. cbn in Hsz, Hc.
  exists cs, h', B2, (with_offset (offset_ S + n) S).
  split; [exact Hcs|]. split; [reflexivity|]. split; [lia|]. split.
  { rewrite Hc. rewrite drop_nil, app_nil_r. reflexivity. }
  split.
  { unfold Base.end_. cbn [offset_ size_ with_offset]. rewrite HSs, HSo.
    apply Z.eqb_eq. lia. }
  rewrite <- Hcs. unfold contents. fold n.
  destruct (Z.eq_dec n 0) as [E|E]; [rewrite E; reflexivity|].
  unfold Buf.alloced_size, Vec.size in *.
  rewrite Hd by lia. unfold Vec.data. unfold vec_wf in Hv.
  destruct (vstore (vec_ B1)) as [vb|]; [|reflexivity].
  destruct Hv as (l & Hl & _).
  apply load_same_cells. intros ? ? [= <- <-].
  apply Hfr; [discriminate|eapply Hh; eauto].
Qed.

Lemma stream_through_view_witness :
  exists h' B2 S',
    Buf.write_const_n 8 (sample_heap, Buf.new, Const_of_buffer eight_byte_buffer)
      = Ret Status_Ok (h', B2, S') /\
    contents h' (base B2) = contents sample_heap (base eight_byte_buffer).
Proof.
  destruct (stream_through_view sample_heap eight_byte_buffer)
    as (cs & h' & B2 & S' & H1 & H2 & _ & H3 & _).
  - exact sample_heap_wf.
  - exact eight_byte_buffer_wf.
  - change (8 <= 2 ^ 63 - 1). lia.
  - exists h', B2, S'. split; [exact H2|]. congruence.
Defined.

Lemma inside_loop_spec (fuel : nat) (i : Z) (coords range : list Z) :
  0 <= i ->
  2 * (i + Z.of_nat fuel) - 1 <= TileConstCellIterator.INT_MAX ->
  i + Z.of_nat fuel <= Z.of_nat (length coords) ->
  2 * (i + Z.of_nat fuel) <= Z.of_nat (length range) ->
  exists r,
    TileConstCellIterator.inside_loop fuel i coords range = Some r /\
    (r = true <->
     forall j x lo hi, i <= j < i + Z.of_nat fuel ->
       coords !! Z.to_nat j = Some x ->
       range !! Z.to_nat (2 * j) = Some lo ->
       range !! Z.to_nat (2 * j + 1) = Some hi ->
       lo <= x <= hi).
Proof.
  revert i. induction fuel as [|fuel IH]; intros i Hi Hmax Hc Hr.
  - exists true. split; [reflexivity|]. split; [|reflexivity].
    intros _ j x lo hi Hj. lia.
  - cbn [TileConstCellIterator.inside_loop].
    replace (TileConstCellIterator.INT_MAX <? 2 * i + 1) with false
      by (symmetry; apply Z.ltb_ge; lia).
    destruct (lookup_lt_is_Some_2 coords (Z.to_nat i) ltac:(lia)) as [x Hx].
    destruct (lookup_lt_is_Some_2 range (Z.to_nat (2 * i)) ltac:(lia)) as [lo Hlo].
    destruct (lookup_lt_is_Some_2 range (Z.to_nat (2 * i + 1)) ltac:(lia)) as [hi Hhi].
    rewrite Hx, Hlo.
    destruct (x <? lo) eqn:E1.
    { apply Z.ltb_lt in E1. exists false. split; [reflexivity|].
      split; [discriminate|]. intros H.
      specialize (H i x lo hi ltac:(lia) Hx Hlo Hhi). lia. }
    apply Z.ltb_ge in E1. rewrite Hhi.
    destruct (hi <? x) eqn:E2.
    { apply Z.ltb_lt in E2. exists false. split; [reflexivity|].
      split; [discriminate|]. intros H.
      specialize (H i x lo hi ltac:(lia) Hx Hlo Hhi). lia. }
    apply Z.ltb_ge in E2.
    destruct (IH (i + 1) ltac:(lia) ltac:(lia) ltac:(lia) ltac:(lia))
      as (r & Hrun & Hiff).
    exists r. split; [exact Hrun|]. rewrite Hiff. split.
    + intros H j x' lo' hi' Hj Hx' Hlo' Hhi'.
      destruct (Z.eq_dec j i) as [->|Hne].
      * rewrite Hx in Hx'. rewrite Hlo in Hlo'. rewrite Hhi in Hhi'.
        injection Hx' as <-. injection Hlo' as <-. injection Hhi' as <-. lia.
      * apply (H j x' lo' hi'); [lia|assumption..].
    + intros H j x' lo' hi' Hj. apply H. lia.
Qed.

Lemma realloc_room h b n :
  owner_wf h b -> 0 < n <= Vec.max_size ->
  exists old h1 b1 w,
    load h (Vec.data (vec_ b)) (Buf.alloced_size b) = Some old /\
    Buf.realloc n (h, b) = Ret Status_Ok (h1, b1) /\
    Buf.alloced_size b1 = Z.max n (Buf.alloced_size b) /\
    size_ (base b1) = size_ (base b) /\
    offset_ (base b1) = offset_ (base b) /\
    load h1 (data_ (base b1)) (Buf.alloced_size b1) = Some w /\
    take (Z.to_nat (Buf.alloced_size b)) w = old.
Proof.
  intros Hwf Hn.
  destruct (contents_of_owner _ _ Hwf) as (old & cs & Hold & Holdlen & Hcs & Ecs).
  destruct Hwf as (Ho & Hp & Hv & Hd & Hcur & Hcap).
  destruct (Z.lt_ge_cases (Buf.alloced_size b) n) as [Hlt|Hge].
  - destruct (realloc_grows h b n Ho Hv Hlt ltac:(lia))
      as (old' & h1 & b1 & Hold' & Hre & Hsz & Hdat & Hs & Hof & _ & _ & Hl & _).
    rewrite Hold in Hold'. injection Hold' as <-.
    exists old, h1, b1, (old ++ Vec.zeros (n - Buf.alloced_size b)).
    split; [exact Hold|]. split; [exact Hre|]. split; [lia|].
    split; [exact Hs|]. split; [exact Hof|]. split; [rewrite Hsz; exact Hl|].
    apply take_app_length'. lia.
  - exists old, h, b, old. split; [exact Hold|]. split.
    { unfold Buf.realloc. rewrite Ho. cbn [negb].
      replace (Buf.alloced_size b <? n) with false
        by (symmetry; apply Z.ltb_ge; lia). reflexivity. }
    split; [lia|]. split; [reflexivity|]. split; [reflexivity|].
    split; [rewrite Hd by lia; exact Hold|].
    apply take_ge. lia.
Qed.

(** X22: filling a buffer in place.  On an owning, growable buffer in good
    order, realloc(n) with size + k <= n and n at most max_size() =
    2^63 - 1 returns Ok and leaves free_space() >= k; the k >= 1 bytes
    stored by the caller at data(size()) are all inside the storage, and
    after advance_size(k) the buffer holds its former bytes followed by
    those k bytes, with free_space() smaller by k. *)
Theorem fill_in_place (h : heap) (b : Buffer) (n : Z) (bs : list byte) :
  owner_wf h b ->
  Buf.alloced_size b < U64.modulus -> n <= Vec.max_size ->
  (0 < length bs)%nat ->
  size_ (base b) + Z.of_nat (length bs) <= n ->
  exists cs h1 b1 h2,
    contents h (base b) = Some cs /\
    Buf.realloc n (h, b) = Ret Status_Ok (h1, b1) /\
    Z.of_nat (length bs) <= Buf.free_space b1 /\
    store h1 (Buf.data_at (size_ (base b1)) b1) bs = Some h2 /\
    contents h2 (base (Buf.advance_size (Z.of_nat (length bs)) b1))
      = Some (cs ++ bs) /\
    Buf.free_space (Buf.advance_size (Z.of_nat (length bs)) b1)
      = Buf.free_space b1 - Z.of_nat (length bs).
Proof.
  intros Hwf Hc64 Hn64 Hk Hfit.
  destruct (contents_of_owner _ _ Hwf) as (old & cs & Hold & Holdlen & Hcs & Ecs).
  destruct (realloc_room h b n Hwf ltac:(destruct Hwf as (_ & _ & _ & _ & ? & _); lia))
    as (old' & h1 & b1 & w & Hold' & Hre & Hsz & Hs & Hof & Hw & Htw).
  rewrite Hold in Hold'. injection Hold' as <-.
  destruct Hwf as (Ho & Hp & Hv & Hd & Hcur & Hcap).
  set (k := Z.of_nat (length bs)) in *.
  set (s := size_ (base b)) in *.
  set (m := Buf.alloced_size b1) in *.
  unfold Vec.max_size in Hn64. pose proof pow63_lt_modulus as H63.
  assert (Hm : 0 < m) by lia.
  assert (Hwlen : Z.of_nat (length w) = m) by (eapply load_length; [|exact Hw]; lia).
  assert (Hnn : is_null (data_ (base b1)) = false).
  { destruct (data_ (base b1)); [|reflexivity].
    unfold load in Hw. replace (m =? 0) with false in Hw
      by (symmetry; apply Z.eqb_neq; lia). discriminate. }
  assert (Hfs : Buf.free_space b1 = m - s).
  { unfold Buf.free_space. fold m. rewrite Hs. fold s.
    unfold U64.sub, U64.wrap. apply Z.mod_small. lia. }
  assert (Hdat : Buf.data_at (size_ (base b1)) b1 = ptr_add (data_ (base b1)) s).
  { unfold Buf.data_at, Base.nonconst_data. rewrite Hnn, Hs. reflexivity. }
  assert (Hval : valid h1 (ptr_add (data_ (base b1)) s) k = true)
    by (eapply valid_of_load; [exact Hw|lia..]).
  destruct (store_valid _ _ _ Hval) as (h2 & Hst & _).
  pose proof (load_after_store _ _ _ _ s bs _ Hw ltac:(lia) ltac:(fold k; lia) Hst)
    as Hl2.
  assert (Hadd : U64.add s k = s + k).
  { unfold U64.add, U64.wrap. apply Z.mod_small. lia. }
  exists cs, h1, b1, h2.
  split; [exact Hcs|]. split; [exact Hre|]. split; [rewrite Hfs; lia|].
  split; [rewrite Hdat; exact Hst|]. split.
  - unfold contents, Buf.advance_size.
    cbn [base with_base with_size data_ size_]. rewrite Hs. fold s. rewrite Hadd.
    rewrite (load_prefix _ _ _ _ (s + k) Hl2) by lia. f_equal.
    assert (Hts : take (Z.to_nat s) w = cs).
    { rewrite Ecs, <- Htw, take_take. f_equal. lia. }
    rewrite Hts.
    assert (Hlcs : length cs = Z.to_nat s).
    { rewrite <- Hts, length_take. lia. }
    rewrite app_assoc. rewrite take_app_length'; [reflexivity|].
    rewrite length_app. lia.
  - rewrite Hfs. unfold Buf.free_space, Buf.advance_size, Buf.alloced_size.
    cbn [base vec_ with_base with_size size_].
    change (Vec.size (vec_ b1)) with m. rewrite Hs. rewrite Hadd.
    unfold U64.sub, U64.wrap. rewrite Z.mod_small; lia.
Qed.

Lemma fill_in_place_witness :
  exists h1 b1 h2,
    Buf.realloc 4 (sample_heap, one_byte_buffer) = Ret Status_Ok (h1, b1) /\
    store h1 (Buf.data_at (size_ (base b1)) b1) [Byte.x2a; Byte.x2b] = Some h2 /\
    contents h2 (base (Buf.advance_size 2 b1))
      = Some [Byte.x00; Byte.x2a; Byte.x2b].
Proof.
  destruct (fill_in_place sample_heap one_byte_buffer 4 [Byte.x2a; Byte.x2b])
    as (cs & h1 & b1 & h2 & H1 & H2 & _ & H3 & H4 & _).
  - unfold owner_wf, vec_wf, Buf.alloced_size, Vec.size. cbn.
    repeat split; try lia; try reflexivity.
    eexists. split; [reflexivity|]. cbn. lia.
  - reflexivity.
  - unfold Vec.max_size. lia.
  - cbn. lia.
  - cbn. lia.
  - exists h1, b1, h2. split; [exact H2|]. split; [exact H3|].
    change (Z.of_nat (length [Byte.x2a; Byte.x2b])) with 2 in H4.
    rewrite H4. injection H1 as <-. reflexivity.
Defined.

(** X23: the dense branch of cell_inside_range.  With dense coordinates,
    [dim_num] coordinates present, a range of 2 * dim_num bounds and
    dim_num at most 2^30, the call returns, and it returns true exactly
    when every coordinate i lies between range[2i] and range[2i+1]. *)
Theorem cell_inside_range_dense (coords range : list Z) (dim_num : Z)
    (tile_answer : option bool) :
  dim_num <= 2 ^ 30 ->
  dim_num <= Z.of_nat (length coords) ->
  2 * dim_num <= Z.of_nat (length range) ->
  exists r,
    TileConstCellIterator.cell_inside_range true (Some coords) dim_num
      tile_answer range = Some r /\
    (r = true <->
     forall j x lo hi, 0 <= j < dim_num ->
       coords !! Z.to_nat j = Some x ->
       range !! Z.to_nat (2 * j) = Some lo ->
       range !! Z.to_nat (2 * j + 1) = Some hi ->
       lo <= x <= hi).
Proof.
  intros Hmax Hc Hr. unfold TileConstCellIterator.cell_inside_range.
  destruct (Z.le_gt_cases dim_num 0) as [Hz|Hpos].
  - replace (Z.to_nat dim_num) with 0%nat by lia.
    exists true. split; [reflexivity|]. split; [|reflexivity].
    intros _ j x lo hi Hj. lia.
  - destruct (inside_loop_spec (Z.to_nat dim_num) 0 coords range)
      as (r & Hrun & Hiff).
    + lia.
    + unfold TileConstCellIterator.INT_MAX.
      change (2 ^ 30) with 1073741824 in Hmax. lia.
    + lia.
    + lia.
    + exists r. split; [exact Hrun|]. rewrite Hiff.
      rewrite Z2Nat.id by lia. reflexivity.
Qed.

Lemma cell_inside_range_dense_witness :
  TileConstCellIterator.cell_inside_range true (Some [3; 7]) 2 None [1; 5; 6; 9]
  = Some true.
Proof.
  destruct (cell_inside_range_dense [3; 7] [1; 5; 6; 9] 2 None)
    as (r & Hrun & Hiff).
  - change (2 ^ 30) with 1073741824. lia.
  - cbn. lia.
  - cbn. lia.
  - rewrite Hrun. f_equal. apply Hiff.
    intros j x lo hi Hj.
    assert (Hcases : j = 0 \/ j = 1) by lia.
    destruct Hcases as [-> | ->]; cbn; intros [= <-] [= <-] [= <-]; lia.
Defined.
